(** * Knowledge Garden backend: the category tree and its derived stores

    A shallow embedding of the category controller
    (src/services/tag-service/controllers/category.controller.js), the
    category model (the Mongoose schema with its pre-save hook), the
    advanced search handler of the search controller and the cache
    utility, followed by the properties of the tree-and-index consistency
    core.

    Conventions of the embedding.
    - An ObjectId is a natural number; a request names a category by its
      canonical id, so the string/ObjectId casts of Mongoose are identities.
    - A JavaScript Number that counts or stamps (resourceCount, Date.now())
      is an integer of Z.
    - The collection is the list of its documents in insertion order.
    - utils/elasticsearch is not part of the sources: the search index is a
      parameter (an oracle that answers every call with a result or an
      exception), and every attempted call is recorded in the world.
    - MongoDB itself is taken to be reachable. *)

From Stdlib Require Import List String Ascii ZArith Lia Bool Arith PeanoNat.
From Stdlib Require Import Permutation.
From Stdlib Require Import DecimalString.
Import ListNotations.

Set Warnings "-register-all".

Local Open Scope string_scope.
Local Open Scope list_scope.
Local Open Scope nat_scope.

(* ------------------------------------------------------------------ *)
(** ** Strings: trim, toLowerCase and the slug of the pre-save hook     *)
(* ------------------------------------------------------------------ *)

Module Str.

(** White space of the ASCII range, as [String.prototype.trim] and the
    regular expression class [\s] see it. A string is the list of its
    bytes; the characters beyond ASCII (which JavaScript may also count as
    white space or change the case of) are outside the model. *)
Definition is_space (c : ascii) : bool :=
  let n := nat_of_ascii c in
  (n =? 32) || ((9 <=? n) && (n <=? 13)).

(** The class [\w] together with the hyphen: [A-Za-z0-9_-]. *)
Definition is_word_or_dash (c : ascii) : bool :=
  let n := nat_of_ascii c in
  ((48 <=? n) && (n <=? 57)) || ((65 <=? n) && (n <=? 90))
  || ((97 <=? n) && (n <=? 122)) || (n =? 95) || (n =? 45).

(** [toLowerCase] on one character of the ASCII range. *)
Definition lower (c : ascii) : ascii :=
  let n := nat_of_ascii c in
  if (65 <=? n) && (n <=? 90) then ascii_of_nat (n + 32) else c.

Fixpoint drop_spaces (l : list ascii) : list ascii :=
  match l with
  | c :: r => if is_space c then drop_spaces r else l
  | [] => []
  end.

Definition trim_chars (l : list ascii) : list ascii :=
  rev (drop_spaces (rev (drop_spaces l))).

Definition trim (s : string) : string :=
  string_of_list_ascii (trim_chars (list_ascii_of_string s)).

(** [replace(/\s+/g, '-')]: every maximal run of white space becomes one
    hyphen; [in_run] tells that the previous character was white space. *)
Fixpoint dash_spaces_from (in_run : bool) (l : list ascii) : list ascii :=
  match l with
  | [] => []
  | c :: r =>
      if is_space c
      then (if in_run then dash_spaces_from true r
            else "-"%char :: dash_spaces_from true r)
      else c :: dash_spaces_from false r
  end.

Definition dash_spaces (l : list ascii) : list ascii :=
  dash_spaces_from false l.

(** [replace(/[^\w\-]+/g, '')]. *)
Definition keep_word (l : list ascii) : list ascii :=
  filter is_word_or_dash l.

Definition truthy (s : string) : bool :=
  negb (String.eqb s "").

Definition truthy_opt (o : option string) : bool :=
  match o with
  | Some s => truthy s
  | None => false
  end.

(** [s.split(sep)]; [cur] holds, reversed, the piece being read. *)
Fixpoint split_from (sep : ascii) (cur : list ascii) (l : list ascii)
    : list string :=
  match l with
  | [] => [string_of_list_ascii (rev cur)]
  | c :: r =>
      if Ascii.eqb c sep
      then string_of_list_ascii (rev cur) :: split_from sep [] r
      else split_from sep (c :: cur) r
  end.

Definition split (sep : ascii) (s : string) : list string :=
  split_from sep [] (list_ascii_of_string s).

End Str.

(** [this.name.trim().toLowerCase().replace(/\s+/g, '-').replace(/[^\w\-]+/g, '')] *)
Definition slugify (name : string) : string :=
  string_of_list_ascii
    (Str.keep_word
       (Str.dash_spaces
          (map Str.lower (Str.trim_chars (list_ascii_of_string name))))).

(* ------------------------------------------------------------------ *)
(** ** The category document                                            *)
(* ------------------------------------------------------------------ *)

Definition ObjectId := nat.

Record Category := mkCategory {
  _id : ObjectId;
  name : string;
  description : option string;
  slug : string;
  parent : option ObjectId;
  ancestors : list ObjectId;
  resourceCount : Z;
  isActive : bool;
  createdBy : option ObjectId;
  createdAt : Z;
  updatedAt : Z
}.

Definition with_ancestors (a : list ObjectId) (c : Category) : Category :=
  mkCategory (_id c) (name c) (description c) (slug c) (parent c) a
    (resourceCount c) (isActive c) (createdBy c) (createdAt c) (updatedAt c).

Definition with_parent (p : option ObjectId) (c : Category) : Category :=
  mkCategory (_id c) (name c) (description c) (slug c) p (ancestors c)
    (resourceCount c) (isActive c) (createdBy c) (createdAt c) (updatedAt c).

Definition with_updatedAt (t : Z) (c : Category) : Category :=
  mkCategory (_id c) (name c) (description c) (slug c) (parent c) (ancestors c)
    (resourceCount c) (isActive c) (createdBy c) (createdAt c) t.

Definition parent_is (p : ObjectId) (c : Category) : bool :=
  match parent c with
  | Some q => q =? p
  | None => false
  end.

(* ------------------------------------------------------------------ *)
(** ** The collection                                                   *)
(* ------------------------------------------------------------------ *)

Definition Collection := list Category.

(** [Category.findById(id)] *)
Definition findById (id : ObjectId) (s : Collection) : option Category :=
  find (fun c => _id c =? id) s.

(** [Category.findOne({ name })] *)
Definition findOneByName (n : string) (s : Collection) : option Category :=
  find (fun c => String.eqb (name c) n) s.

(** [Category.find({ parent: parentId })] *)
Definition findByParent (p : ObjectId) (s : Collection) : list Category :=
  filter (parent_is p) s.

(** [Category.exists({ parent: id })] *)
Definition existsByParent (p : ObjectId) (s : Collection) : bool :=
  existsb (parent_is p) s.

(** A write to the document [id]: what [doc.save()] and
    [findByIdAndUpdate] send is a [$set] of the modified paths, applied to
    the stored document. *)
Definition updateOne (id : ObjectId) (f : Category -> Category)
    (s : Collection) : Collection :=
  map (fun d => if _id d =? id then f d else d) s.

(** [doc.deleteOne] / [doc.remove]: the document leaves the collection. *)
Definition deleteOne (id : ObjectId) (s : Collection) : Collection :=
  filter (fun d => negb (_id d =? id)) s.

(** [subcategory.save()] of the repair walk: the modified path is
    [ancestors]; the pre-save hook stamps [updatedAt] on every save. *)
Definition save_ancestors (now : Z) (id : ObjectId) (a : list ObjectId)
    (s : Collection) : Collection :=
  updateOne id (fun d => with_updatedAt now (with_ancestors a d)) s.

(** [category.save()] of the move: [parent] and [ancestors] were assigned. *)
Definition save_moved (now : Z) (id : ObjectId) (p : option ObjectId)
    (a : list ObjectId) (s : Collection) : Collection :=
  updateOne id
    (fun d => with_updatedAt now (with_ancestors a (with_parent p d))) s.

(* ------------------------------------------------------------------ *)
(** ** The recursive repair of the descendants                          *)
(* ------------------------------------------------------------------ *)

(** The [for ... of] loop of [updateSubcategoryAncestors] over the children
    found before the loop starts; [rec] is the recursive call. *)
Fixpoint repairEach
    (rec : ObjectId -> list ObjectId -> Collection -> option Collection)
    (now : Z) (parentId : ObjectId) (parentAncestors : list ObjectId)
    (subcategories : list Category) (s : Collection) : option Collection :=
  match subcategories with
  | [] => Some s
  | subcategory :: rest =>
      let a := parentAncestors ++ [parentId] in
      match rec (_id subcategory) a (save_ancestors now (_id subcategory) a s) with
      | Some s' => repairEach rec now parentId parentAncestors rest s'
      | None => None
      end
  end.

(** [updateSubcategoryAncestors(parentId, parentAncestors)]. The recursion
    of the source follows the tree downwards; [fuel] bounds its depth and
    [None] stands for a walk that did not finish within it. *)
Fixpoint updateSubcategoryAncestors (fuel : nat) (now : Z)
    (parentId : ObjectId) (parentAncestors : list ObjectId)
    (s : Collection) : option Collection :=
  match fuel with
  | O => None
  | S fuel' =>
      repairEach (updateSubcategoryAncestors fuel' now) now
        parentId parentAncestors (findByParent parentId s) s
  end.

(* ------------------------------------------------------------------ *)
(** ** JSON values, responses, the log                                  *)
(* ------------------------------------------------------------------ *)

Inductive Json :=
| JNull
| JBool (b : bool)
| JNum (z : Z)
| JStr (s : string)
| JId (i : ObjectId)
| JArr (l : list Json)
| JObj (fields : list (string * Json)).

Module Js.

Fixpoint assoc (k : string) (fs : list (string * Json)) : option Json :=
  match fs with
  | [] => None
  | (k', v) :: r => if String.eqb k' k then Some v else assoc k r
  end.

(** An object literal whose [undefined] properties are dropped, as
    [JSON.stringify] does. *)
Fixpoint obj_of (fs : list (string * option Json)) : list (string * Json) :=
  match fs with
  | [] => []
  | (k, Some v) :: r => (k, v) :: obj_of r
  | (_, None) :: r => obj_of r
  end.

(** Assignment of a property: an existing key keeps its place. *)
Fixpoint set_field {V} (k : string) (v : V) (fs : list (string * V))
    : list (string * V) :=
  match fs with
  | [] => [(k, v)]
  | (k', v') :: r =>
      if String.eqb k' k then (k, v) :: r else (k', v') :: set_field k v r
  end.

(** [{ ...a, ...b }] *)
Definition spread {V} (a b : list (string * V)) : list (string * V) :=
  fold_left (fun acc kv => set_field (fst kv) (snd kv) acc) b a.

(** A JavaScript value read from a JSON document: [None] is [undefined]. *)
Definition Value := option Json.

(** [v.k]. The outer [None] is the TypeError raised when [v] is [null] or
    [undefined]; a primitive or an array has no such property. *)
Definition prop (k : string) (v : Value) : option Value :=
  match v with
  | None => None
  | Some JNull => None
  | Some (JObj fs) => Some (assoc k fs)
  | Some _ => Some None
  end.

(** [v?.k] *)
Definition opt_prop (k : string) (v : Value) : Value :=
  match v with
  | Some (JObj fs) => assoc k fs
  | _ => None
  end.

Definition truthy (v : Value) : bool :=
  match v with
  | None => false
  | Some JNull => false
  | Some (JBool b) => b
  | Some (JNum z) => negb (Z.eqb z 0)
  | Some (JStr s) => Str.truthy s
  | Some _ => true
  end.

(** [v || d] *)
Definition or_else (v : Value) (d : Json) : Json :=
  match v with
  | Some j => if truthy v then j else d
  | None => d
  end.

Definition keys (j : Json) : list string :=
  match j with
  | JObj fs => map fst fs
  | _ => []
  end.

End Js.

Record Response := mkResponse {
  status : nat;
  body : Json
}.

(** [res.status(code).json({ success: false, message })] *)
Definition failure (code : nat) (message : string) : Response :=
  mkResponse code (JObj [("success", JBool false); ("message", JStr message)]).

(** The [catch (error)] of a handler. *)
Definition serverError (message error : string) : Response :=
  mkResponse 500
    (JObj [("success", JBool false); ("message", JStr message);
           ("error", JStr error)]).

(** [res.status(code).json({ success: true, data })] *)
Definition success (code : nat) (data : Json) : Response :=
  mkResponse code (JObj [("success", JBool true); ("data", data)]).

Definition opt_json {A} (f : A -> Json) (o : option A) : Json :=
  match o with
  | Some a => f a
  | None => JNull
  end.

(** The [toJSON] of the schema: the virtual [id] is included, [_id] and
    [__v] are removed. *)
Definition category_json (c : Category) : Json :=
  JObj (Js.obj_of
    [("name", Some (JStr (name c)));
     ("description", option_map JStr (description c))] ++
       [("slug", JStr (slug c));
        ("parent", opt_json JId (parent c));
        ("ancestors", JArr (map JId (ancestors c)));
        ("resourceCount", JNum (resourceCount c));
        ("isActive", JBool (isActive c));
        ("createdBy", opt_json JId (createdBy c));
        ("createdAt", JNum (createdAt c));
        ("updatedAt", JNum (updatedAt c));
        ("id", JId (_id c))]).

Inductive Level := LDebug | LInfo | LWarn | LError.

Definition LogEntry := (Level * string)%type.

(* ------------------------------------------------------------------ *)
(** ** The search index (utils/elasticsearch, a parameter)              *)
(* ------------------------------------------------------------------ *)

(** An index name; [None] is [undefined]. *)
Definition Index := option string.

Inductive EsCall :=
| IndexDocument (index : Index) (id : ObjectId) (doc : Json)
| UpdateDocument (index : Index) (id : ObjectId) (doc : Json)
| DeleteDocument (index : Index) (id : ObjectId)
| FullTextSearch (index : Index) (q : string) (fields : list string)
    (filters options : Json)
| FilteredSearch (index : Index) (filters options : Json).

(** A thrown error: its message, the [statusCode] some errors of the
    Elasticsearch client carry, its stack. *)
Record JsError := mkError {
  message : string;
  statusCode : option nat;
  stack : string
}.

Definition TypeError (m : string) : JsError := mkError m None "".

Inductive EsOutcome :=
| Resolves (result : Js.Value)
| Throws (e : JsError).

(** The index answers a call knowing the calls made before it. *)
Definition SearchIndex := list EsCall -> EsCall -> EsOutcome.

(** What the handlers take from their surroundings. *)
Record Env := mkEnv {
  (** utils/elasticsearch *)
  elastic : SearchIndex;
  (** [elasticSearch.client.indices.categories] *)
  categories_index : Index;
  (** Whether the installed Mongoose still has [Document.prototype.remove]:
      the method exists up to Mongoose 6 and is gone in Mongoose 7, which
      package.json asks for ([^7.4.0]); without it [category.remove()]
      raises a TypeError. *)
  document_remove : bool;
  (** The error, if any, with which the Redis client rejects a [SET] of
      this key. *)
  redis_set_error : string -> option JsError;
  (** [config.server.env === 'development'] *)
  development : bool;
  (** The matching of MongoDB's [$text: { $search }] on the text index
      over name and description. *)
  text_search : string -> Category -> bool;
  (** [.sort({ [field]: 1 | -1 })]; the flag tells a descending order. *)
  mongo_sort : string -> bool -> list Category -> list Category
}.

(* ------------------------------------------------------------------ *)
(** ** The world a handler runs in                                      *)
(* ------------------------------------------------------------------ *)

Record World := mkWorld {
  categories : Collection;
  (** the next ObjectId the driver generates *)
  next_oid : ObjectId;
  (** the calls made to the search index, oldest first *)
  es_calls : list EsCall;
  (** what the logger received, oldest first *)
  logs : list LogEntry;
  (** the Redis cache: key, value and expiry in seconds *)
  cache : list (string * (Json * nat))
}.

Definition empty_world : World := mkWorld [] 0 [] [] [].

Definition with_categories (s : Collection) (w : World) : World :=
  mkWorld s (next_oid w) (es_calls w) (logs w) (cache w).

Definition log (l : Level) (m : string) (w : World) : World :=
  mkWorld (categories w) (next_oid w) (es_calls w) (logs w ++ [(l, m)]) (cache w).

(** [await elasticSearch.f(...)]: the call is recorded and answered. *)
Definition es_call (env : Env) (c : EsCall) (w : World) : EsOutcome * World :=
  (elastic env (es_calls w) c,
   mkWorld (categories w) (next_oid w) (es_calls w ++ [c]) (logs w) (cache w)).

(** [try { await elasticSearch.f(...) } catch (esError) { logger.warn(...) }]
    around a write to the index. *)
Definition es_try (env : Env) (c : EsCall) (warning : string) (w : World)
    : World :=
  match es_call env c w with
  | (Resolves _, w') => w'
  | (Throws e, w') => log LWarn (warning ++ message e)%string w'
  end.

Record User := mkUser {
  user_id : ObjectId;
  role : string
}.

(** A request: the authenticated user and the value of [Date.now()] while
    it is served. *)
Record Ctx := mkCtx {
  user : User;
  now : Z
}.

Definition is_admin (ctx : Ctx) : bool := String.eqb (role (user ctx)) "admin".

(* ------------------------------------------------------------------ *)
(** ** Request bodies                                                   *)
(* ------------------------------------------------------------------ *)

(** [req.body] of the create and update requests: the paths of the schema
    a client may send. A field is [None] when the body does not have it;
    [p_parent = Some None] is a body with [parent: null]. The time stamps
    and [createdBy] are outside the model of the body. *)
Record Payload := mkPayload {
  p_name : option string;
  p_description : option string;
  p_parent : option (option ObjectId);
  p_ancestors : option (list ObjectId);
  p_resourceCount : option Z;
  p_isActive : option bool
}.

(** [if (parent)] on the body's parent: an id is truthy, [null] and
    [undefined] are not. *)
Definition truthy_parent (p : option (option ObjectId)) : option ObjectId :=
  match p with
  | Some (Some i) => Some i
  | _ => None
  end.

(** The unique indexes on [name] and [slug], checked against the other
    documents. *)
Definition unique_ok (c : Category) (s : Collection) : bool :=
  forallb (fun d => (_id d =? _id c)
                    || negb (String.eqb (name d) (name c)
                             || String.eqb (slug d) (slug c))) s.

(* ------------------------------------------------------------------ *)
(** ** createCategory                                                   *)
(* ------------------------------------------------------------------ *)

Definition msg_duplicate := "Category with this name already exists".
Definition msg_parent_not_found := "Parent category not found".
Definition msg_not_found := "Category not found".

(** [Category.create(categoryData)]: defaults, setters, validation, the
    pre-save hook and the unique indexes. [inr] is the error thrown. *)
Definition Category_create (ctx : Ctx) (nm : string) (descr : option string)
    (par : option ObjectId) (anc : list ObjectId) (w : World)
    : (Category * World) + string :=
  let c := mkCategory (next_oid w) (Str.trim nm) (option_map Str.trim descr)
             (slugify nm) par anc 0%Z true (Some (user_id (user ctx)))
             (now ctx) (now ctx) in
  if negb (Str.truthy (name c)) then
    inr "Category validation failed: name: Category name is required"
  else if negb (unique_ok c (categories w)) then
    inr "E11000 duplicate key error collection: categories"
  else
    inl (c, mkWorld (categories w ++ [c]) (S (next_oid w)) (es_calls w) (logs w)
              (cache w)).

(** The document sent to the index when a category is created. *)
Definition created_doc (c : Category) : Json :=
  JObj (Js.obj_of
    [("id", Some (JId (_id c))); ("name", Some (JStr (name c)));
     ("description", option_map JStr (description c));
     ("slug", Some (JStr (slug c))); ("parent", Some (opt_json JId (parent c)));
     ("resourceCount", Some (JNum (resourceCount c)));
     ("createdAt", Some (JNum (createdAt c)))]).

Definition createCategory_failed (error : string) (w : World)
    : Response * World :=
  (serverError "Server error while creating category" error,
   log LError ("Error creating category: " ++ error)%string w).

Definition createCategory (env : Env) (ctx : Ctx) (body : Payload) (w : World)
    : Response * World :=
  match p_name body with
  | None =>
      createCategory_failed
        "Cannot read properties of undefined (reading 'trim')" w
  | Some nm =>
      match findOneByName (Str.trim nm) (categories w) with
      | Some _ => (failure 400 msg_duplicate, w)
      | None =>
          let insert par anc :=
            match Category_create ctx (Str.trim nm) (p_description body)
                    par anc w with
            | inr e => createCategory_failed e w
            | inl (category, w1) =>
                let w2 :=
                  es_try env
                    (IndexDocument (categories_index env) (_id category)
                       (created_doc category))
                    "Failed to index category in Elasticsearch: " w1 in
                (success 201 (category_json category), w2)
            end in
          match truthy_parent (p_parent body) with
          | Some par =>
              match findById par (categories w) with
              | None => (failure 404 msg_parent_not_found, w)
              | Some parentCategory =>
                  insert (Some par) (ancestors parentCategory ++ [par])
              end
          | None => insert None []
          end
      end
  end.

(* ------------------------------------------------------------------ *)
(** ** updateCategory                                                   *)
(* ------------------------------------------------------------------ *)

Definition set_opt {A} (o : option A) (old : A) : A :=
  match o with
  | Some a => a
  | None => old
  end.

(** The [$set] that [findByIdAndUpdate] applies for the body
    [{ ...req.body, updatedAt: Date.now() }], after the setters of the
    schema ([trim] on name and description). [par] is the body's parent as
    it is left after the [delete req.body.parent]. *)
Definition apply_update (now : Z) (body : Payload)
    (par : option (option ObjectId)) (c : Category) : Category :=
  mkCategory (_id c)
    (set_opt (option_map Str.trim (p_name body)) (name c))
    (match p_description body with
     | Some d => Some (Str.trim d)
     | None => description c
     end)
    (slug c)
    (set_opt par (parent c))
    (set_opt (p_ancestors body) (ancestors c))
    (set_opt (p_resourceCount body) (resourceCount c))
    (set_opt (p_isActive body) (isActive c))
    (createdBy c) (createdAt c) now.

Definition updated_doc (c : Category) : Json :=
  JObj (Js.obj_of
    [("name", Some (JStr (name c)));
     ("description", option_map JStr (description c));
     ("slug", Some (JStr (slug c)));
     ("updatedAt", Some (JNum (updatedAt c)))]).

Definition updateCategory_failed (error : string) (w : World)
    : Response * World :=
  (serverError "Server error while updating category" error,
   log LError ("Error updating category: " ++ error)%string w).

Definition updateCategory (env : Env) (ctx : Ctx) (id : ObjectId)
    (body : Payload) (w : World) : Response * World :=
  match findById id (categories w) with
  | None => (failure 404 msg_not_found, w)
  | Some category =>
      if negb (is_admin ctx) then
        (failure 403 "Not authorized to update categories", w)
      else
        let renamed :=
          match p_name body with
          | Some nm =>
              Str.truthy nm && negb (String.eqb (Str.trim nm) (name category))
          | None => false
          end in
        let taken :=
          match p_name body with
          | Some nm =>
              match findOneByName (Str.trim nm) (categories w) with
              | Some _ => true
              | None => false
              end
          | None => false
          end in
        if renamed && taken then (failure 400 msg_duplicate, w)
        else
          (* if (req.body.parent) delete req.body.parent *)
          let par :=
            match truthy_parent (p_parent body) with
            | Some _ => None
            | None => p_parent body
            end in
          let updated := apply_update (now ctx) body par category in
          if match p_name body with
             | Some _ => negb (Str.truthy (name updated))
             | None => false
             end then
            updateCategory_failed "Validation failed: name: Category name is required" w
          else if negb (unique_ok updated (categories w)) then
            updateCategory_failed "E11000 duplicate key error collection: categories" w
          else
            let w1 :=
              with_categories
                (updateOne id (apply_update (now ctx) body par) (categories w)) w in
            let w2 :=
              es_try env
                (UpdateDocument (categories_index env) (_id updated)
                   (updated_doc updated))
                "Failed to update category in Elasticsearch: " w1 in
            (success 200 (category_json updated), w2)
  end.

(* ------------------------------------------------------------------ *)
(** ** deleteCategory                                                   *)
(* ------------------------------------------------------------------ *)

Definition msg_has_children :=
  "Cannot delete category with subcategories. Delete subcategories first or reassign them.".
Definition msg_not_empty :=
  "Cannot delete category with resources. Remove resources first or reassign them.".

Definition deleteCategory (env : Env) (ctx : Ctx) (id : ObjectId) (w : World)
    : Response * World :=
  match findById id (categories w) with
  | None => (failure 404 msg_not_found, w)
  | Some category =>
      if negb (is_admin ctx) then
        (failure 403 "Not authorized to delete categories", w)
      else if existsByParent id (categories w) then
        (failure 400 msg_has_children, w)
      else if (resourceCount category >? 0)%Z then
        (failure 400 msg_not_empty, w)
      else if negb (document_remove env) then
        let e := "category.remove is not a function" in
        (serverError "Server error while deleting category" e,
         log LError ("Error deleting category: " ++ e)%string w)
      else
        let w1 := with_categories (deleteOne (_id category) (categories w)) w in
        let w2 :=
          es_try env (DeleteDocument (categories_index env) (_id category))
            "Failed to delete category from Elasticsearch: " w1 in
        (success 200 (JObj []), w2)
  end.

(* ------------------------------------------------------------------ *)
(** ** moveCategory                                                     *)
(* ------------------------------------------------------------------ *)

(** [req.body.newParentId]: the string ['root'] or the id of a category. *)
Inductive NewParent :=
| Root
| Under (newParentId : ObjectId).

Definition msg_new_parent_not_found := "New parent category not found".
Definition msg_cycle := "Cannot move category to its own subcategory or itself".

(** [newParent.ancestors.includes(categoryId)] *)
Definition includes (id : ObjectId) (l : list ObjectId) : bool :=
  existsb (fun a => a =? id) l.

Definition moved_doc (c : Category) : Json :=
  JObj [("parent", opt_json JId (parent c)); ("updatedAt", JNum (updatedAt c))].

(** What follows the checks of [moveCategory]: the save of the category,
    the repair of its descendants, the write to the index, the answer.
    [None]: the repair did not finish within [fuel]. *)
Definition move_commit (fuel : nat) (env : Env) (ctx : Ctx)
    (category : Category) (p : option ObjectId) (a : list ObjectId) (w : World)
    : option (Response * World) :=
  let categoryId := _id category in
  let saved := with_updatedAt (now ctx) (with_ancestors a (with_parent p category)) in
  let s1 := save_moved (now ctx) categoryId p a (categories w) in
  match updateSubcategoryAncestors fuel (now ctx) categoryId a s1 with
  | None => None
  | Some s2 =>
      let w2 :=
        es_try env
          (UpdateDocument (categories_index env) categoryId (moved_doc saved))
          "Failed to update moved category in Elasticsearch: "
          (with_categories s2 w) in
      Some (success 200 (category_json saved), w2)
  end.

Definition moveCategory (fuel : nat) (env : Env) (ctx : Ctx)
    (categoryId : ObjectId) (newParentId : NewParent) (w : World)
    : option (Response * World) :=
  if negb (is_admin ctx) then
    Some (failure 403 "Not authorized to move categories", w)
  else
    match findById categoryId (categories w) with
    | None => Some (failure 404 msg_not_found, w)
    | Some category =>
        match newParentId with
        | Root => move_commit fuel env ctx category None [] w
        | Under np =>
            match findById np (categories w) with
            | None => Some (failure 404 msg_new_parent_not_found, w)
            | Some newParent =>
                if includes categoryId (ancestors newParent) || (np =? categoryId)
                then Some (failure 400 msg_cycle, w)
                else
                  move_commit fuel env ctx category (Some np)
                    (ancestors newParent ++ [np]) w
            end
        end
    end.

(* ------------------------------------------------------------------ *)
(** ** Commands                                                         *)
(* ------------------------------------------------------------------ *)

Inductive Command :=
| Create (body : Payload)
| Update (id : ObjectId) (body : Payload)
| Delete (id : ObjectId)
| Move (id : ObjectId) (newParentId : NewParent).

Definition handle (fuel : nat) (env : Env) (ctx : Ctx) (c : Command) (w : World)
    : option (Response * World) :=
  match c with
  | Create body => Some (createCategory env ctx body w)
  | Update id body => Some (updateCategory env ctx id body w)
  | Delete id => Some (deleteCategory env ctx id w)
  | Move id np => moveCategory fuel env ctx id np w
  end.

(** A sequence of requests, each with its context, served one after the
    other; the answers are collected. *)
Fixpoint run (fuel : nat) (env : Env) (reqs : list (Ctx * Command)) (w : World)
    : option (list Response * World) :=
  match reqs with
  | [] => Some ([], w)
  | (ctx, c) :: rest =>
      match handle fuel env ctx c w with
      | None => None
      | Some (r, w1) =>
          match run fuel env rest w1 with
          | None => None
          | Some (rs, w2) => Some (r :: rs, w2)
          end
      end
  end.

Definition succeeded (r : Response) : bool :=
  (200 <=? status r) && (status r <? 300).

(* ------------------------------------------------------------------ *)
(** ** getCategories: the listing, with its search and the fallback     *)
(* ------------------------------------------------------------------ *)

(** [req.query] of the listing; the defaults of the destructuring are
    [query = ''], [limit = 20], [page = 1], [sort = 'name'],
    [order = 'asc']; [limit] and [page] are what [parseInt] returns. *)
Record ListQuery := mkListQuery {
  lq_query : string;
  lq_limit : nat;
  lq_page : nat;
  lq_sort : string;
  lq_order : string;
  lq_parentId : option NewParent
}.

(** The filter [{ parent: null }] or [{ parent: parentId }], or none. *)
Definition matches_filter (f : option NewParent) (c : Category) : bool :=
  match f with
  | None => true
  | Some Root => match parent c with None => true | Some _ => false end
  | Some (Under p) => parent_is p c
  end.

(** [.sort(options.sort).skip((page - 1) * limit).limit(limit)]; a
    negative skip is refused by the server and [limit(0)] is no limit. *)
Definition paginate (env : Env) (q : ListQuery) (l : list Category)
    : list Category + string :=
  if lq_page q =? 0 then
    inr "BSON field 'skip' value must be >= 0"
  else
    let sorted := mongo_sort env (lq_sort q) (String.eqb (lq_order q) "desc") l in
    let skipped := skipn ((lq_page q - 1) * lq_limit q) sorted in
    inl (if lq_limit q =? 0 then skipped else firstn (lq_limit q) skipped).

Definition listing (count : Json) (data : Json) : Response :=
  mkResponse 200 (JObj [("success", JBool true); ("count", count); ("data", data)]).

(** The query on MongoDB, with or without the [$text] search. *)
Definition mongo_matches (env : Env) (q : ListQuery) (text : bool)
    (s : Collection) : list Category :=
  filter (fun c => matches_filter (lq_parentId q) c
                   && (negb text || text_search env (lq_query q) c)) s.

Definition mongo_listing (env : Env) (q : ListQuery) (text : bool) (w : World)
    : Response * World :=
  let found := mongo_matches env q text (categories w) in
  match paginate env q found with
  | inr e =>
      (serverError "Server error while fetching categories" e,
       log LError ("Error fetching categories: " ++ e)%string w)
  | inl page =>
      (listing (JNum (Z.of_nat (List.length found))) (JArr (map category_json page)), w)
  end.

Definition parent_filter_json (f : option NewParent) : Json :=
  match f with
  | None => JObj []
  | Some Root => JObj [("parent", JStr "root")]
  | Some (Under p) => JObj [("parent", JId p)]
  end.

(** The call [elasticSearch.fullTextSearch(index, query, searchFields,
    filters, { size, from })] of the listing. *)
Definition listing_search (env : Env) (q : ListQuery) : EsCall :=
  FullTextSearch (categories_index env) (lq_query q) ["name"; "description"]
    (parent_filter_json (lq_parentId q))
    (JObj [("size", JNum (Z.of_nat (lq_limit q)));
           ("from", JNum ((Z.of_nat (lq_page q) - 1) * Z.of_nat (lq_limit q)))]).

Definition getCategories (env : Env) (q : ListQuery) (w : World)
    : Response * World :=
  if Str.truthy (lq_query q) then
    let fallback (m : string) (w1 : World) :=
      mongo_listing env q true
        (log LWarn ("Elasticsearch search failed, falling back to MongoDB: " ++ m)%string w1) in
    match es_call env (listing_search env q) w with
    | (Resolves esResults, w1) =>
        match Js.prop "total" esResults, Js.prop "hits" esResults with
        | Some total, Some hits =>
            (mkResponse 200
               (JObj (Js.obj_of [("success", Some (JBool true));
                                 ("count", total); ("data", hits)])), w1)
        | _, _ =>
            fallback "Cannot read properties of undefined (reading 'total')" w1
        end
    | (Throws e, w1) => fallback (message e) w1
    end
  else mongo_listing env q false w.

(* ------------------------------------------------------------------ *)
(** ** advancedSearch (search controller) and the error middleware      *)
(* ------------------------------------------------------------------ *)

(** [req.query] of the advanced search. A field is [None] when the query
    string does not have it; [limit] and [page] are what [parseInt]
    returns (10 and 1 when absent). *)
Record AdvancedQuery := mkAdvancedQuery {
  aq_q : option string;
  aq_type : option string;
  aq_categories : option string;
  aq_tags : option string;
  aq_resourceType : option string;
  aq_dateFrom : option string;
  aq_dateTo : option string;
  aq_verified : option string;
  aq_sort : option string;
  aq_order : option string;
  aq_limit : nat;
  aq_page : nat
}.

Definition when {A} (b : bool) (a : A) : option A := if b then Some a else None.

Module Advanced.

Definition resources_index := "knowledge_garden_resources".

(** [typeToIndex[type] || config.elasticsearch.indices.resources]; the
    configuration has no index for tags. *)
Definition index_of (type : string) : Index :=
  if String.eqb type "users" then Some "knowledge_garden_users"
  else if String.eqb type "collections" then Some "knowledge_garden_collections"
  else Some resources_index.

Definition type_of (q : AdvancedQuery) : string := set_opt (aq_type q) "resources".
Definition sort_of (q : AdvancedQuery) : string := set_opt (aq_sort q) "relevance".
Definition order_of (q : AdvancedQuery) : string := set_opt (aq_order q) "desc".

Definition list_filter (o : option string) : option Json :=
  match o with
  | Some s => when (Str.truthy s) (JArr (map JStr (Str.split ","%char s)))
  | None => None
  end.

Definition filters (q : AdvancedQuery) : Json :=
  let resources := String.eqb (type_of q) "resources" in
  JObj (Js.obj_of
    [("categories", list_filter (aq_categories q));
     ("tags", list_filter (aq_tags q));
     ("resourceType",
        match aq_resourceType q with
        | Some r => when (Str.truthy r) (JStr r)
        | None => None
        end);
     ("isVerified",
        match aq_verified q with
        | Some v => when (Str.truthy v) (JBool (String.eqb v "true"))
        | None => None
        end);
     ("dateRange",
        when (Str.truthy_opt (aq_dateFrom q) || Str.truthy_opt (aq_dateTo q))
          (JObj (Js.obj_of [("field", Some (JStr "createdAt"));
                            ("gte", option_map JStr (aq_dateFrom q));
                            ("lte", option_map JStr (aq_dateTo q))])));
     ("visibility", when resources (JStr "public"));
     ("status", when resources (JStr "active"))]).

Definition sortOptions (q : AdvancedQuery) : Json :=
  let sort := sort_of q in
  let order := JStr (order_of q) in
  let resources := String.eqb (type_of q) "resources" in
  if String.eqb sort "relevance" && Str.truthy_opt (aq_q q) then
    JObj [("_score", order)]
  else if String.eqb sort "date" then JObj [("createdAt", order)]
  else if String.eqb sort "rating" && resources then JObj [("averageRating", order)]
  else if String.eqb sort "views" && resources then JObj [("viewCount", order)]
  else if String.eqb sort "downloads" && resources then JObj [("downloadCount", order)]
  else if String.eqb sort "name" || String.eqb sort "title" then
    JObj [(if resources then "title.keyword" else "name.keyword", order)]
  else JObj [].

Definition terms (field : string) (size : option Z) : Json :=
  JObj [("terms", JObj (Js.obj_of [("field", Some (JStr field));
                                   ("size", option_map JNum size)]))].

Definition options (q : AdvancedQuery) : Json :=
  JObj [("size", JNum (Z.of_nat (aq_limit q)));
        ("from", JNum ((Z.of_nat (aq_page q) - 1) * Z.of_nat (aq_limit q)));
        ("sort", sortOptions q);
        ("highlight",
           JObj [("fields", JObj [("title", JObj []); ("name", JObj []);
                                  ("description", JObj [])]);
                 ("pre_tags", JArr [JStr "<strong>"]);
                 ("post_tags", JArr [JStr "</strong>"])]);
        ("aggregations",
           JObj [("resourceTypes", terms "resourceType" (Some 10%Z));
                 ("categories", terms "categories" (Some 20%Z));
                 ("tags", terms "tags" (Some 20%Z));
                 ("verificationStatus", terms "isVerified" None)])].

Definition fields (q : AdvancedQuery) : list string :=
  if String.eqb (type_of q) "resources"
  then ["title^3"; "description^2"; "tags"; "ownerName"]
  else ["name^2"; "description"].

Definition search_call (q : AdvancedQuery) : EsCall :=
  let index := index_of (type_of q) in
  match aq_q q with
  | Some text =>
      if Str.truthy text
      then FullTextSearch index text (fields q) (filters q) (options q)
      else FilteredSearch index (filters q) (options q)
  | None => FilteredSearch index (filters q) (options q)
  end.

(** [{ id: hit._id, score: hit._score, ...hit._source,
       highlights: hit.highlight || {} }]; a [_source] that is not an
    object spreads nothing. [None]: the hit is [null]. *)
Definition item (hit : Json) : option Json :=
  match Js.prop "_id" (Some hit), Js.prop "_score" (Some hit),
        Js.prop "_source" (Some hit), Js.prop "highlight" (Some hit) with
  | Some id, Some score, Some source, Some highlight =>
      let base := [("id", id); ("score", score)] in
      let spreaded :=
        match source with
        | Some (JObj fs) => Js.spread base (map (fun kv => (fst kv, Some (snd kv))) fs)
        | _ => base
        end in
      Some (JObj (Js.obj_of
                    (Js.set_field "highlights"
                       (Some (Js.or_else highlight (JObj []))) spreaded)))
  | _, _, _, _ => None
  end.

Fixpoint items (hits : list Json) : option (list Json) :=
  match hits with
  | [] => Some []
  | h :: r =>
      match item h, items r with
      | Some i, Some others => Some (i :: others)
      | _, _ => None
      end
  end.

(** [results.aggregations?.[key]?.buckets || []] *)
Definition facet (results : Js.Value) (key : string) : Json :=
  Js.or_else
    (Js.opt_prop "buckets" (Js.opt_prop key (Js.opt_prop "aggregations" results)))
    (JArr []).

(** [Math.ceil(total / limit)] for a total that is a number; what is not
    a finite number is [null] in JSON. *)
Definition totalPages (total : Js.Value) (limit : nat) : Json :=
  match total with
  | Some (JNum t) =>
      if limit =? 0 then JNull
      else JNum (- ((- t) / Z.of_nat limit))%Z
  | _ => JNull
  end.

(** The formatting of the results; [None] is a TypeError. *)
Definition format (q : AdvancedQuery) (results : Js.Value) : option Json :=
  match Js.prop "hits" results with
  | Some hits =>
      match Js.prop "hits" hits, Js.prop "total" hits with
      | Some (Some (JArr l)), Some total =>
          match items l, Js.prop "value" total with
          | Some its, Some value =>
              Some (JObj
                [("success", JBool true);
                 ("data",
                    JObj (Js.obj_of
                      [("items", Some (JArr its));
                       ("facets",
                          Some (JObj
                            [("resourceTypes", facet results "resourceTypes");
                             ("categories", facet results "categories");
                             ("tags", facet results "tags");
                             ("verificationStatus", facet results "verificationStatus")]));
                       ("total", value)]));
                 ("meta",
                    JObj (Js.obj_of
                      [("query", Some (JStr (set_opt (aq_q q) "")));
                       ("page", Some (JNum (Z.of_nat (aq_page q))));
                       ("limit", Some (JNum (Z.of_nat (aq_limit q))));
                       ("total", value);
                       ("totalPages", Some (totalPages value (aq_limit q)))]))])
          | _, _ => None
          end
      | _, _ => None
      end
  | None => None
  end.

End Advanced.

(** The error middleware the application mounts last: it answers for a
    handler that called [next(err)]. *)
Definition errorHandler (env : Env) (err : JsError) (w : World)
    : Response * World :=
  (mkResponse
     (match statusCode err with
      | Some c => if c =? 0 then 500 else c
      | None => 500
      end)
     (JObj (Js.obj_of
        [("success", Some (JBool false));
         ("error", Some (JStr (if Str.truthy (message err) then message err
                               else "Server Error")));
         ("stack", when (development env) (JStr (stack err)))])),
   log LError (message err) w).

Definition advancedSearch (env : Env) (q : AdvancedQuery) (w : World)
    : Response * World :=
  let failed (err : JsError) (w1 : World) :=
    errorHandler env err (log LError "Advanced search error:" w1) in
  match es_call env (Advanced.search_call q) w with
  | (Throws err, w1) => failed err w1
  | (Resolves results, w1) =>
      match Advanced.format q results with
      | Some json => (mkResponse 200 json, w1)
      | None => failed (TypeError "Cannot read properties of undefined") w1
      end
  end.

(* ------------------------------------------------------------------ *)
(** ** utils/cache.js: set                                              *)
(* ------------------------------------------------------------------ *)

(** [cache.set(key, value, expiry = 3600)]: the value is serialized and
    sent to Redis; an error is logged and swallowed. The function returns
    nothing, so its result is the world alone. *)
Definition cache_set (env : Env) (key : string) (value : Json)
    (expiry : option nat) (w : World) : World :=
  match redis_set_error env key with
  | Some error => log LError ("Cache set error: " ++ message error)%string w
  | None =>
      log LDebug ("Cache set: " ++ key)%string
        (mkWorld (categories w) (next_oid w) (es_calls w) (logs w)
           ((key, (value, set_opt expiry 3600))
              :: filter (fun e => negb (String.eqb (fst e) key)) (cache w)))
  end.

(* ================================================================== *)
(** * Vocabulary of the properties                                      *)
(* ================================================================== *)

(** A document without its materialized path and its time stamp: what the
    repair walk never writes. *)
Definition skel (c : Category) : Category :=
  with_updatedAt 0 (with_ancestors [] c).

(** A document without its time stamp. *)
Definition untimed (c : Category) : Category := with_updatedAt 0 c.

(** Invariant I2 at one document: its path is its parent's path followed
    by the parent. *)
Definition good (s : Collection) (c : Category) : Prop :=
  match parent c with
  | None => ancestors c = []
  | Some p =>
      exists pc, findById p s = Some pc /\ ancestors c = ancestors pc ++ [p]
  end.

(** A ghost measure for the repair walk. [inside] marks the region of the
    collection the walk may enter; the children of a document inside are
    inside, one rank above their parent, and no rank exceeds [bound]. *)
Definition ranked (inside : ObjectId -> Prop) (rank : ObjectId -> nat)
    (bound : nat) (s : Collection) : Prop :=
  forall c p, In c s -> parent c = Some p -> inside p ->
    inside (_id c) /\ rank (_id c) = S (rank p) /\ rank (_id c) <= bound.

(** A child the walk finds below the document [pid] of the region. *)
Definition walk_child (inside : ObjectId -> Prop) (rank : ObjectId -> nat)
    (bound : nat) (pid : ObjectId) (sub : Category) : Prop :=
  inside (_id sub) /\ rank (_id sub) = S (rank pid) /\ rank (_id sub) <= bound.

(** A document the walk below [pid] cannot reach: one outside the region,
    or one whose rank is at most that of [pid]. *)
Definition walk_untouched (inside : ObjectId -> Prop) (rank : ObjectId -> nat)
    (pid i : ObjectId) : Prop :=
  ~ inside i \/ rank i <= rank pid.

(** The documents that may still have a wrong path while the walk below
    [pid] runs: the children of [pid], and those set aside in [Bad]. *)
Definition pending (pid : ObjectId) (Bad : ObjectId -> Prop) (s : Collection)
    : Prop :=
  forall c, In c s -> good s c \/ parent c = Some pid \/ Bad (_id c).

Definition has_path (pid : ObjectId) (pa : list ObjectId) (s : Collection)
    : Prop :=
  exists pc, findById pid s = Some pc /\ ancestors pc = pa.

(** The ids identify the documents and every document satisfies I2. *)
Record tree_ok (s : Collection) : Prop := mk_tree_ok {
  ids_unique : NoDup (map _id s);
  paths_ok : forall c, In c s -> good s c
}.

(** The longest materialized path of the collection. *)
Definition depth (s : Collection) : nat :=
  fold_right (fun c m => Nat.max (List.length (ancestors c)) m) 0 s.

(** The state of the collection when [moveCategory] has passed its checks:
    the new parent, if any, exists and is neither the category nor below
    it. *)
Definition move_allowed (s : Collection) (A : ObjectId)
    (p : option ObjectId) (a : list ObjectId) : Prop :=
  match p with
  | None => a = []
  | Some np =>
      exists pc, findById np s = Some pc /\ a = ancestors pc ++ [np]
                 /\ includes A (ancestors pc) = false /\ np <> A
  end.

(** Rank of a document for the walk below [A]: one more than its old
    depth inside the subtree of [A], nothing outside. *)
Definition subtree_rank (s : Collection) (A : ObjectId) (i : ObjectId) : nat :=
  match findById i s with
  | Some c =>
      if (i =? A) || includes A (ancestors c)
      then S (List.length (ancestors c)) else 0
  | None => 0
  end.

Record wf (w : World) : Prop := mk_wf {
  wf_tree : tree_ok (categories w);
  wf_fresh : forall c, In c (categories w) -> _id c < next_oid w
}.

(** What [createCategory] does to the collection: nothing, or one new
    document at the end, with a new id and the path of its parent. *)
Inductive created (ctx : Ctx) (body : Payload) (w : World) (r : Response)
    (w' : World) : Prop :=
| create_refused :
    categories w' = categories w -> next_oid w' = next_oid w ->
    succeeded r = false ->
    created ctx body w r w'
| create_done c nm :
    categories w' = categories w ++ [c] ->
    next_oid w' = S (next_oid w) ->
    r = success 201 (category_json c) ->
    p_name body = Some nm ->
    findOneByName (Str.trim nm) (categories w) = None ->
    c = mkCategory (next_oid w) (Str.trim (Str.trim nm))
          (option_map Str.trim (p_description body)) (slugify (Str.trim nm))
          (parent c) (ancestors c) 0%Z true (Some (user_id (user ctx)))
          (now ctx) (now ctx) ->
    parent c = truthy_parent (p_parent body) ->
    good (categories w) c ->
    created ctx body w r w'.

(** The chain of ids obtained by following the [parent] links from a
    document up to a root, written from the root down to the parent. [None]:
    a link leads to no document, or the root was not reached in [fuel]
    steps. *)
Fixpoint parent_chain (fuel : nat) (s : Collection) (c : Category)
    : option (list ObjectId) :=
  match fuel with
  | O => None
  | S k =>
      match parent c with
      | None => Some []
      | Some p =>
          match findById p s with
          | None => None
          | Some pc =>
              match parent_chain k s pc with
              | Some l => Some (l ++ [p])
              | None => None
              end
          end
      end
  end.

Definition create_or_move (c : Command) : bool :=
  match c with
  | Create _ | Move _ _ => true
  | Update _ _ | Delete _ => false
  end.

(** [b] is below [a]: following the [parent] links from [b] leads to [a]. *)
Inductive descendant (s : Collection) (a : ObjectId) : ObjectId -> Prop :=
| desc_child b bc :
    findById b s = Some bc -> parent bc = Some a -> descendant s a b
| desc_below b bc q :
    findById b s = Some bc -> parent bc = Some q -> descendant s a q ->
    descendant s a b.

(* ------------------------------------------------------------------ *)
(** ** Concrete surroundings and requests for the examples              *)
(* ------------------------------------------------------------------ *)

(** An index that is down: every call is refused. *)
Definition index_down : SearchIndex :=
  fun _ _ => Throws (mkError "connect ECONNREFUSED 127.0.0.1:9200" None "").

(** An index that accepts every call and returns nothing. *)
Definition index_up : SearchIndex := fun _ _ => Resolves None.

Definition env_with (index : SearchIndex) : Env :=
  mkEnv index (Some "categories") true (fun _ => None) false
    (fun q c => String.eqb (name c) q) (fun _ _ l => l).

Definition admin_at (t : Z) : Ctx := mkCtx (mkUser 1000 "admin") t.

Definition named (n : string) (p : option ObjectId) : Payload :=
  mkPayload (Some n) None (option_map Some p) None None None.

(** The scenario of the specification: a root A (id 0), B (id 1) under A,
    C (id 2) under B. *)
Definition three_levels : list (Ctx * Command) :=
  [(admin_at 1, Create (named "A" None));
   (admin_at 2, Create (named "B" (Some 0)));
   (admin_at 3, Create (named "C" (Some 1)))].

Definition world_after (reqs : list (Ctx * Command)) : World :=
  match run (List.length reqs) (env_with index_up) reqs empty_world with
  | Some (_, w) => w
  | None => empty_world
  end.

(** Every category below [A] has a correct path. *)
Definition subtree_ok (s : Collection) (A : ObjectId) : Prop :=
  forall c, In c s -> descendant s A (_id c) -> good s c.

(** [A] and the categories below it: the region of the walk below [A]. *)
Definition in_or_below (s : Collection) (A : ObjectId) (i : ObjectId) : Prop :=
  i = A \/ descendant s A i.

(** Rank of a document for a walk in a subtree whose paths are correct:
    one more than the length of its path. *)
Definition full_rank (s : Collection) (i : ObjectId) : nat :=
  match findById i s with
  | Some c => S (List.length (ancestors c))
  | None => 0
  end.

(** A root and its child, both written at time 1, with correct paths. *)
Definition root_and_child : Collection :=
  [mkCategory 0 "A" None "a" None [] 0%Z true (Some 1000) 1%Z 1%Z;
   mkCategory 1 "B" None "b" (Some 0) [0] 0%Z true (Some 1000) 1%Z 1%Z].

(** A category whose counter an update has set to -1. *)
Definition negative_count : list (Ctx * Command) :=
  [(admin_at 1, Create (named "A" None));
   (admin_at 2, Update 0 (mkPayload None None None None (Some (-1)%Z) None))].

(** The same surroundings under a Mongoose without
    [Document.prototype.remove]. *)
Definition without_remove (env : Env) : Env :=
  mkEnv (elastic env) (categories_index env) false
    (redis_set_error env) (development env) (text_search env) (mongo_sort env).

(** The same surroundings with another search index. *)
Definition with_elastic (index : SearchIndex) (env : Env) : Env :=
  mkEnv index (categories_index env) (document_remove env)
    (redis_set_error env) (development env) (text_search env) (mongo_sort env).

(** Two outcomes of a handler that agree on the answer and on the
    collection. *)
Definition same_primary (a b : option (Response * World)) : Prop :=
  match a, b with
  | Some (r1, w1), Some (r2, w2) =>
      r1 = r2 /\ categories w1 = categories w2 /\ next_oid w1 = next_oid w2
  | None, None => True
  | _, _ => False
  end.

(** At most one call to the index per request, made after the write to
    the collection; if it throws, a warning with the message of the error
    is the one thing logged. *)
Definition index_attempt (env : Env) (w : World) (r : Response) (w1 : World)
    : Prop :=
  (succeeded r = false /\ es_calls w1 = es_calls w)
  \/ (succeeded r = true
      /\ exists call m,
           es_calls w1 = es_calls w ++ [call]
           /\ match elastic env (es_calls w) call with
              | Resolves _ => logs w1 = logs w
              | Throws e => logs w1 = logs w ++ [(LWarn, (m ++ message e)%string)]
              end).

(** What a later read of the collection by id shows after a request that
    succeeded. *)
Definition visible (c : Command) (r : Response) (w1 : World) : Prop :=
  match c with
  | Create _ =>
      exists category,
        r = success 201 (category_json category)
        /\ findById (_id category) (categories w1) = Some category
  | Update id _ | Move id _ =>
      exists category,
        r = success 200 (category_json category)
        /\ findById id (categories w1) = Some category
  | Delete id => findById id (categories w1) = None
  end.

(** The body with another [resourceCount]. *)
Definition with_resourceCount (z : option Z) (b : Payload) : Payload :=
  mkPayload (p_name b) (p_description b) (p_parent b) (p_ancestors b) z
    (p_isActive b).

(** A body that holds nothing but [resourceCount]. *)
Definition count_only (z : Z) : Payload :=
  mkPayload None None None None (Some z) None.

(** The body [{ "parent": null }]. *)
Definition null_parent : Payload :=
  mkPayload None None (Some None) None None None.

(* ------------------------------------------------------------------ *)
(** ** Vocabulary for the further properties                            *)
(* ------------------------------------------------------------------ *)

(** A character of [a-z0-9_-]. *)
Definition is_slug_char (c : ascii) : bool :=
  let n := nat_of_ascii c in
  ((48 <=? n) && (n <=? 57)) || ((97 <=? n) && (n <=? 122))
  || (n =? 95) || (n =? 45).

(** No white space at either end. *)
Definition trimmed (s : string) : Prop :=
  match list_ascii_of_string s with
  | [] => True
  | c :: r => Str.is_space c = false /\ Str.is_space (last r c) = false
  end.

(* ------------------------------------------------------------------ *)
(** ** More of the category controller: the two reads by id             *)
(* ------------------------------------------------------------------ *)

(** [getCategory]: [Category.findById(req.params.id)], 404 when there is
    none. The handler writes nothing. *)
Definition getCategory (id : ObjectId) (w : World) : Response :=
  match findById id (categories w) with
  | None => failure 404 msg_not_found
  | Some category => success 200 (category_json category)
  end.

(** [Category.find({ parent: req.params.id }).sort({ name: 1 })] *)
Definition subcategories_of (env : Env) (id : ObjectId) (w : World)
    : list Category :=
  mongo_sort env "name" false (findByParent id (categories w)).

(** [getSubcategories]: the children of the category, sorted by name, and
    their number; an id without children (or without a category) gives
    the empty list. *)
Definition getSubcategories (env : Env) (id : ObjectId) (w : World) : Response :=
  listing (JNum (Z.of_nat (List.length (subcategories_of env id w))))
    (JArr (map category_json (subcategories_of env id w))).

(** What [getCategory] answers for the id of a command right after the
    command succeeded with the answer [r]. *)
Definition read_back (c : Command) (r : Response) (w1 : World) : Prop :=
  match c with
  | Create _ =>
      exists category,
        r = success 201 (category_json category)
        /\ getCategory (_id category) w1 = success 200 (category_json category)
  | Update id _ | Move id _ =>
      exists category,
        r = success 200 (category_json category)
        /\ getCategory id w1 = r
  | Delete id => getCategory id w1 = failure 404 msg_not_found
  end.

(** The parent and the path [moveCategory] gives the category it moves. *)
Definition target_of (s : Collection) (np : NewParent)
    : option ObjectId * list ObjectId :=
  match np with
  | Root => (None, [])
  | Under n =>
      (Some n,
       match findById n s with
       | Some newParent => ancestors newParent ++ [n]
       | None => []
       end)
  end.

(** A document without its parent, its path and its time stamp. *)
Definition bare (c : Category) : Category := with_parent None (skel c).

(** The body's parent as [updateCategory] leaves it after
    [if (req.body.parent) delete req.body.parent]. *)
Definition parent_after_guard (body : Payload) : option (option ObjectId) :=
  match truthy_parent (p_parent body) with
  | Some _ => None
  | None => p_parent body
  end.

(** The requests that write [parent] and [ancestors] together or not at
    all: every create, delete and move, and the updates whose body has no
    [ancestors] and no [parent: null]. *)
Definition keeps_paths (c : Command) : bool :=
  match c with
  | Update _ body =>
      match parent_after_guard body, p_ancestors body with
      | None, None => true
      | _, _ => false
      end
  | Create _ | Delete _ | Move _ _ => true
  end.

(** The ids, the names and the slugs identify the documents. *)
Record distinct (w : World) : Prop := mk_distinct {
  distinct_ids : NoDup (map _id (categories w));
  distinct_fresh : forall c, In c (categories w) -> _id c < next_oid w;
  distinct_names : NoDup (map name (categories w));
  distinct_slugs : NoDup (map slug (categories w))
}.

(* ------------------------------------------------------------------ *)
(** ** The router of the tag service and its middleware                 *)
(* ------------------------------------------------------------------ *)

(** What the middleware takes from its surroundings: [jwt.verify(token,
    secret)], [None] when it throws, and the stack an error created with a
    given message carries. A decoded payload without a role is a user whose
    role is the empty string: both are falsy and equal to no role name. *)
Record Auth := mkAuth {
  verify : string -> option User;
  trace : string -> string
}.

(** A request to one of the category routes that follow
    [router.use(authenticate)]: the two headers [authenticate] reads, the
    route with its parameters and body, the time it is served. *)
Record Request := mkRequest {
  x_auth_token : option string;
  authorization : option string;
  command : Command;
  received : Z
}.

(** [const error = new Error(m); error.statusCode = code] *)
Definition http_error (auth : Auth) (m : string) (code : nat) : JsError :=
  mkError m (Some code) (trace auth m).

(** [authHeader.substring(7)] when [authHeader.startsWith('Bearer ')] *)
Definition bearer (authHeader : option string) : option string :=
  match authHeader with
  | Some h =>
      if String.prefix "Bearer " h
      then Some (String.substring 7 (String.length h - 7) h)
      else None
  | None => None
  end.

(** [authenticate]: the user the token decodes to, or the error passed to
    [next]. *)
Definition authenticate (auth : Auth) (req : Request) : User + JsError :=
  let token :=
    if Str.truthy_opt (x_auth_token req) then x_auth_token req
    else match bearer (authorization req) with
         | Some t => Some t
         | None => x_auth_token req
         end in
  match token with
  | Some t =>
      if Str.truthy t then
        match verify auth t with
        | Some decoded => inl decoded
        | None => inr (http_error auth "Invalid token" 401)
        end
      else inr (http_error auth "Access denied. No token provided." 401)
  | None => inr (http_error auth "Access denied. No token provided." 401)
  end.

(** [authorize(roles)]: the error passed to [next], if any. *)
Definition authorize (auth : Auth) (roles : list string) (u : User)
    : option JsError :=
  if negb (Str.truthy (role u)) then
    Some (http_error auth "Unauthorized" 403)
  else if negb (existsb (String.eqb (role u)) roles) then
    Some (http_error auth "Forbidden: Insufficient permissions" 403)
  else None.

(** POST /categories, PUT /categories/:id, DELETE /categories/:id and
    PUT /categories/:id/move as the router serves them: [authenticate],
    then [authorize(['admin'])], then the controller; an error passed to
    [next] is answered by the error middleware of the application. *)
Definition category_route (fuel : nat) (env : Env) (auth : Auth)
    (req : Request) (w : World) : option (Response * World) :=
  match authenticate auth req with
  | inr err => Some (errorHandler env err w)
  | inl u =>
      match authorize auth ["admin"] u with
      | Some err => Some (errorHandler env err w)
      | None => handle fuel env (mkCtx u (received req)) (command req) w
      end
  end.

(** Tokens that decode to an administrator and to a plain user. *)
Definition two_tokens : Auth :=
  mkAuth (fun t => if String.eqb t "root-token" then Some (mkUser 1000 "admin")
                   else if String.eqb t "user-token" then Some (mkUser 7 "user")
                   else None)
         (fun _ => "Error").

(* ------------------------------------------------------------------ *)
(** ** Reading the answer of a listing                                  *)
(* ------------------------------------------------------------------ *)

(** [response.data] when it is an array. *)
Definition data_of (r : Response) : list Json :=
  match Js.opt_prop "data" (Some (body r)) with
  | Some (JArr l) => l
  | _ => []
  end.

(** [response.count] *)
Definition count_of (r : Response) : Js.Value :=
  Js.opt_prop "count" (Some (body r)).

(** The same query for another page. *)
Definition on_page (k : nat) (q : ListQuery) : ListQuery :=
  mkListQuery (lq_query q) (lq_limit q) k (lq_sort q) (lq_order q)
    (lq_parentId q).

(** The documents the listing without a search text has to show, in the
    order asked for. *)
Definition sorted_matches (env : Env) (q : ListQuery) (w : World)
    : list Category :=
  mongo_sort env (lq_sort q) (String.eqb (lq_order q) "desc")
    (filter (matches_filter (lq_parentId q)) (categories w)).

(* ------------------------------------------------------------------ *)
(** ** The search controller: what a call asks, the suggestions         *)
(* ------------------------------------------------------------------ *)

(** The names of the properties every object literal inherits from
    [Object.prototype]: for these [typeToIndex[type]] is the inherited
    function or object, which is truthy. *)
Definition inherited_key (k : string) : bool :=
  existsb (String.eqb k)
    ["constructor"; "__defineGetter__"; "__defineSetter__"; "hasOwnProperty";
     "__lookupGetter__"; "__lookupSetter__"; "isPrototypeOf";
     "propertyIsEnumerable"; "toString"; "valueOf"; "__proto__";
     "toLocaleString"].

(** An advanced search for tags. *)
Definition tags_query : AdvancedQuery :=
  mkAdvancedQuery (Some "trees") (Some "tags") None None None None None None
    None None 10 1.

Definition call_index (c : EsCall) : Index :=
  match c with
  | IndexDocument i _ _ | UpdateDocument i _ _ | DeleteDocument i _
  | FullTextSearch i _ _ _ _ | FilteredSearch i _ _ => i
  end.

(** The filters a search call sends. *)
Definition call_filters (c : EsCall) : Js.Value :=
  match c with
  | FullTextSearch _ _ _ f _ | FilteredSearch _ f _ => Some f
  | _ => None
  end.

(** [elasticsearch.getSuggestions(index, text, fields, size)] of
    utils/elasticsearch: the suggestions, taken to be strings (what the
    fallback of the tag controller produces), or the error thrown. [size]
    is what [parseInt(limit)] returns, [None] for [NaN]. *)
Definition Suggester :=
  Index -> string -> list string -> option Z -> list string + JsError.

(** [req.query] of the suggestions; [limit] is what [parseInt] returns
    (5 when absent). *)
Record SuggestQuery := mkSuggestQuery {
  sq_q : option string;
  sq_limit : option Z
}.

(** [[...new Set(l)]]: the first occurrence of each string, in order. *)
Fixpoint dedupe (l : list string) : list string :=
  match l with
  | [] => []
  | x :: r => x :: filter (fun y => negb (String.eqb y x)) (dedupe r)
  end.

(** [l.slice(0, n)]: [NaN] is 0, a negative [n] counts from the end. *)
Definition slice_to {A} (n : option Z) (l : list A) : list A :=
  match n with
  | None => []
  | Some z =>
      if (z <? 0)%Z then firstn (List.length l - Z.to_nat (- z)) l
      else firstn (Z.to_nat z) l
  end.

(** [getSearchSuggestions]: the answer and what [console.error] received.
    Both calls are in one [try]: when the second throws, the suggestions
    of the first are already assigned. *)
Definition getSearchSuggestions (suggest : Suggester) (q : SuggestQuery)
    : Response * list string :=
  let required :=
    mkResponse 400
      (JObj [("success", JBool false);
             ("error", JStr "Query parameter is required")]) in
  match sq_q q with
  | None => (required, [])
  | Some text =>
      if negb (Str.truthy text) then (required, [])
      else
        let failed (e : JsError) :=
          ("Elasticsearch connection error: " ++ message e)%string in
        let '(resourceSuggestions, tagSuggestions, console) :=
          match suggest (Some Advanced.resources_index) text
                  ["title"; "description"; "tags"] (sq_limit q) with
          | inr e => ([], [], [failed e])
          | inl rs =>
              match suggest None text ["name"] (sq_limit q) with
              | inr e => (rs, [], [failed e])
              | inl ts => (rs, ts, [])
              end
          end in
        let allSuggestions := resourceSuggestions ++ tagSuggestions in
        let uniqueSuggestions := dedupe allSuggestions in
        (success 200
           (JArr (map JStr (slice_to (sq_limit q) uniqueSuggestions))),
         console)
  end.

(** An index of suggestions that knows resources and has no tags. *)
Definition titles_only : Suggester :=
  fun index _ _ _ =>
    match index with
    | Some _ => inl ["graph"; "graphs"; "graph"]
    | None => inr (mkError "index_not_found_exception" (Some 404) "")
    end.

(** The request that moves a category back where it is: under its parent,
    or to the root. *)
Definition origin (c : Category) : NewParent :=
  match parent c with
  | Some p => Under p
  | None => Root
  end.

(** A document with another parent, without its path and time stamp. *)
Definition reparented (A : ObjectId) (p : option ObjectId) (e : Category)
    : Category :=
  if _id e =? A then with_parent p e else e.

(* ------------------------------------------------------------------ *)
(** ** globalSearch (search controller)                                 *)
(* ------------------------------------------------------------------ *)

(** What [globalSearch] puts in its list of indices: an index of the
    configuration ([None] is [undefined]: the configuration names no index
    for tags), or the property of that name that [typeToIndex] inherits. *)
Inductive SearchTarget :=
| Configured (index : Index)
| Inherited (key : string).

(** [elasticsearch.client.msearch({ body })]: the body is made from the
    list of indices, the text, [size] and [from] ([None] is [NaN]). *)
Definition Msearch :=
  list SearchTarget -> string -> option Z -> option Z -> EsOutcome.

(** [req.query] of the global search; [limit] and [page] are what
    [parseInt] returns (10 and 1 when absent), [None] for [NaN]. *)
Record GlobalQuery := mkGlobalQuery {
  gq_q : option string;
  gq_limit : option Z;
  gq_page : option Z;
  gq_type : option string
}.

(** [responseData] *)
Record ResponseData := mkData {
  rd_resources : list Json;
  rd_users : list Json;
  rd_collections : list Json;
  rd_tags : list Json
}.

Module Global.

Definition users_index := "knowledge_garden_users".
Definition collections_index := "knowledge_garden_collections".

Definition all_indices : list SearchTarget :=
  [Configured (Some Advanced.resources_index); Configured (Some users_index);
   Configured (Some collections_index); Configured None].

(** [typeToIndex[type]] when it is truthy. *)
Definition typeToIndex (type : string) : option SearchTarget :=
  if String.eqb type "resources" then
    Some (Configured (Some Advanced.resources_index))
  else if String.eqb type "users" then Some (Configured (Some users_index))
  else if String.eqb type "collections" then
    Some (Configured (Some collections_index))
  else if inherited_key type then Some (Inherited type)
  else None.

(** The indices to search; [None] is the answer 'Invalid search type'. *)
Definition indices (type : option string) : option (list SearchTarget) :=
  match type with
  | None => Some all_indices
  | Some t =>
      if negb (Str.truthy t) || String.eqb t "all" then Some all_indices
      else option_map (fun i => [i]) (typeToIndex t)
  end.

Fixpoint indexed {A} (n : nat) (l : list A) : list (string * A) :=
  match l with
  | [] => []
  | x :: r => (NilEmpty.string_of_uint (Nat.to_uint n), x) :: indexed (S n) r
  end.

(** The properties [{ ...v }] copies: those of an object, the elements of
    an array and the characters of a string under their indices. *)
Definition own_properties (v : Js.Value) : list (string * Json) :=
  match v with
  | Some (JObj fs) => fs
  | Some (JArr l) => indexed 0 l
  | Some (JStr s) =>
      indexed 0 (map (fun c => JStr (String c EmptyString))
                   (list_ascii_of_string s))
  | _ => []
  end.

(** [{ ...hit._source, id: hit._id, score: hit._score,
       highlights: hit.highlight }]; [None]: the hit is [null]. *)
Definition hit_json (hit : Json) : option Json :=
  match Js.prop "_source" (Some hit), Js.prop "_id" (Some hit),
        Js.prop "_score" (Some hit), Js.prop "highlight" (Some hit) with
  | Some source, Some id, Some score, Some highlight =>
      let copied := map (fun kv => (fst kv, Some (snd kv))) (own_properties source) in
      Some (JObj (Js.obj_of
                    (Js.set_field "highlights" highlight
                       (Js.set_field "score" score
                          (Js.set_field "id" id copied)))))
  | _, _, _, _ => None
  end.

Fixpoint hits_json (hits : list Json) : option (list Json) :=
  match hits with
  | [] => Some []
  | h :: r =>
      match hit_json h, hits_json r with
      | Some i, Some others => Some (i :: others)
      | _, _ => None
      end
  end.

(** The hits of one response. [inr]: a TypeError; [inl None]: the
    condition [response.hits && response.hits.hits] is falsy. *)
Definition hits_of (response : Json) : option (list Json) + JsError :=
  match Js.prop "hits" (Some response) with
  | None => inr (TypeError "Cannot read properties of null (reading 'hits')")
  | Some hits =>
      if negb (Js.truthy hits) then inl None
      else
        let inner := Js.opt_prop "hits" hits in
        if negb (Js.truthy inner) then inl None
        else
          match inner with
          | Some (JArr l) =>
              match hits_json l with
              | Some formatted => inl (Some formatted)
              | None =>
                  inr (TypeError
                         "Cannot read properties of null (reading '_source')")
              end
          | _ => inr (TypeError "response.hits.hits.map is not a function")
          end
  end.

(** The chain of [if (indexName === ...)] on [indices[index]]; the last
    test compares with the index of the tags, which is [undefined]. *)
Definition assign (indexName : option SearchTarget) (hits : list Json)
    (d : ResponseData) : ResponseData :=
  match indexName with
  | Some (Configured (Some i)) =>
      if String.eqb i Advanced.resources_index then
        mkData hits (rd_users d) (rd_collections d) (rd_tags d)
      else if String.eqb i users_index then
        mkData (rd_resources d) hits (rd_collections d) (rd_tags d)
      else if String.eqb i collections_index then
        mkData (rd_resources d) (rd_users d) hits (rd_tags d)
      else d
  | Some (Configured None) | None =>
      mkData (rd_resources d) (rd_users d) (rd_collections d) hits
  | Some (Inherited _) => d
  end.

(** [results.responses.forEach((response, index) => ...)], stopped by the
    first error. *)
Fixpoint each (indices : list SearchTarget) (index : nat)
    (responses : list Json) (d : ResponseData) : ResponseData * option JsError :=
  match responses with
  | [] => (d, None)
  | response :: rest =>
      match hits_of response with
      | inr e => (d, Some e)
      | inl None => each indices (S index) rest d
      | inl (Some hits) =>
          each indices (S index) rest (assign (nth_error indices index) hits d)
      end
  end.

Definition empty : ResponseData := mkData [] [] [] [].

Definition refused (error : string) : Response :=
  mkResponse 400 (JObj [("success", JBool false); ("error", JStr error)]).

Definition found (d : ResponseData) : Response :=
  mkResponse 200
    (JObj [("success", JBool true);
           ("data", JObj [("resources", JArr (rd_resources d));
                          ("users", JArr (rd_users d));
                          ("collections", JArr (rd_collections d));
                          ("tags", JArr (rd_tags d))])]).

End Global.

(** [globalSearch]: the answer and what the logger received. *)
Definition globalSearch (msearch : Msearch) (q : GlobalQuery)
    : Response * list LogEntry :=
  match gq_q q with
  | None => (Global.refused "Search query is required", [])
  | Some text =>
      if negb (Str.truthy text) then
        (Global.refused "Search query is required", [])
      else
        let size := gq_limit q in
        let from :=
          match gq_page q, size with
          | Some page, Some s => Some ((page - 1) * s)%Z
          | _, _ => None
          end in
        match Global.indices (gq_type q) with
        | None => (Global.refused "Invalid search type", [])
        | Some indices =>
            let '(responseData, error) :=
              match msearch indices text size from with
              | Throws e => (Global.empty, Some e)
              | Resolves results =>
                  if Js.truthy results
                     && Js.truthy (Js.opt_prop "responses" results) then
                    match Js.opt_prop "responses" results with
                    | Some (JArr responses) =>
                        Global.each indices 0 responses Global.empty
                    | _ =>
                        (Global.empty,
                         Some (TypeError
                                 "results.responses.forEach is not a function"))
                    end
                  else (Global.empty, None)
              end in
            (Global.found responseData,
             match error with
             | Some e =>
                 [(LError,
                   ("Elasticsearch connection error in global search: "
                    ++ message e)%string)]
             | None => []
             end)
        end
  end.

(* ================================================================== *)
(** * Properties                                                        *)
(* ================================================================== *)

(* ------------------------------------------------------------------ *)
(** ** The collection                                                   *)
(* ------------------------------------------------------------------ *)


Lemma skel_id c c' : skel c = skel c' -> _id c = _id c'.
Proof. intros H. apply (f_equal _id) in H. exact H. Qed.

Lemma skel_parent c c' : skel c = skel c' -> parent c = parent c'.
Proof. intros H. apply (f_equal parent) in H. exact H. Qed.

Lemma skel_untimed c c' :
  skel c = skel c' -> ancestors c = ancestors c' -> untimed c = untimed c'.
Proof.
  destruct c, c'; unfold skel, untimed, with_updatedAt, with_ancestors; simpl.
  intros H E. inversion H; subst. reflexivity.
Qed.

Lemma findById_In i s c : findById i s = Some c -> In c s /\ _id c = i.
Proof.
  unfold findById. intros H. apply find_some in H.
  destruct H as [H1 H2]. apply Nat.eqb_eq in H2. auto.
Qed.

Lemma findById_ids i s :
  In i (map _id s) -> exists c, findById i s = Some c.
Proof.
  unfold findById. induction s as [|d s IH]; simpl; [tauto|].
  intros [E|H].
  - subst. rewrite Nat.eqb_refl. eauto.
  - destruct (_id d =? i); eauto.
Qed.

Lemma findById_NoDup s c :
  NoDup (map _id s) -> In c s -> findById (_id c) s = Some c.
Proof.
  unfold findById. induction s as [|d s IH]; simpl; [tauto|].
  intros N [E|H].
  - subst. now rewrite Nat.eqb_refl.
  - inversion N as [|? ? Hn N']; subst.
    destruct (_id d =? _id c) eqn:E.
    + apply Nat.eqb_eq in E. exfalso. apply Hn. rewrite E. now apply in_map.
    + auto.
Qed.

Lemma In_same_id s c d :
  NoDup (map _id s) -> In c s -> In d s -> _id c = _id d -> c = d.
Proof.
  intros N Hc Hd E.
  pose proof (findById_NoDup s c N Hc) as H1.
  pose proof (findById_NoDup s d N Hd) as H2.
  rewrite E in H1. congruence.
Qed.

Lemma findById_updateOne i j f s :
  (forall d, _id (f d) = _id d) ->
  findById i (updateOne j f s)
  = if i =? j then option_map f (findById i s) else findById i s.
Proof.
  intros Hf. unfold findById, updateOne.
  induction s as [|d s IH]; simpl.
  - now destruct (i =? j).
  - destruct (_id d =? j) eqn:Ej.
    + rewrite Hf. destruct (_id d =? i) eqn:Ei.
      * apply Nat.eqb_eq in Ej, Ei. subst. now rewrite Nat.eqb_refl.
      * exact IH.
    + destruct (_id d =? i) eqn:Ei.
      * apply Nat.eqb_eq in Ei. subst. now rewrite Ej.
      * exact IH.
Qed.

Lemma In_updateOne j f s c' :
  In c' (updateOne j f s) ->
  exists c, In c s /\ c' = (if _id c =? j then f c else c).
Proof.
  unfold updateOne. intros H. apply in_map_iff in H.
  destruct H as [c [E H]]. eauto.
Qed.

Lemma skel_updateOne j f s :
  (forall d, skel (f d) = skel d) ->
  map skel (updateOne j f s) = map skel s.
Proof.
  intros Hf. unfold updateOne. rewrite map_map. apply map_ext.
  intros d. destruct (_id d =? j); auto.
Qed.

Lemma skel_save_ancestors t j a s :
  map skel (save_ancestors t j a s) = map skel s.
Proof. apply skel_updateOne. now intros []. Qed.

Lemma skel_ids s s' : map skel s = map skel s' -> map _id s = map _id s'.
Proof.
  intros H. apply (f_equal (map _id)) in H.
  rewrite !map_map in H. exact H.
Qed.

Lemma skel_In s s' c' :
  map skel s = map skel s' -> In c' s' ->
  exists c, In c s /\ skel c = skel c'.
Proof.
  intros H Hc. apply (in_map skel) in Hc. rewrite <- H in Hc.
  apply in_map_iff in Hc. destruct Hc as [c [E Hc]]. eauto.
Qed.

Lemma skel_findById s s' i c' :
  map skel s = map skel s' -> findById i s' = Some c' ->
  exists c, findById i s = Some c /\ skel c = skel c'.
Proof.
  unfold findById. revert s'.
  induction s as [|d s IH]; intros [|d' s']; simpl; try discriminate.
  intros H.
  assert (Hd : skel d = skel d')
    by (change (hd (skel d) (skel d :: map skel s)
                = hd (skel d) (skel d' :: map skel s')); now rewrite H).
  assert (Hs : map skel s = map skel s')
    by (change (tl (skel d :: map skel s) = tl (skel d' :: map skel s'));
        now rewrite H).
  rewrite (skel_id _ _ Hd).
  destruct (_id d' =? i).
  - intros E. inversion E; subst. eauto.
  - apply IH. exact Hs.
Qed.

Lemma findByParent_In p s c :
  In c (findByParent p s) <-> In c s /\ parent c = Some p.
Proof.
  unfold findByParent. rewrite filter_In. unfold parent_is.
  split; intros [H1 H2]; split; auto.
  - destruct (parent c); [|discriminate]. apply Nat.eqb_eq in H2. now subst.
  - rewrite H2. apply Nat.eqb_refl.
Qed.

(* ------------------------------------------------------------------ *)
(** ** The repair walk                                                  *)
(* ------------------------------------------------------------------ *)

Section Repair.

Variable now : Z.
Variable inside : ObjectId -> Prop.
Variable rank : ObjectId -> nat.
Variable bound : nat.

Lemma ranked_skel s s' :
  map skel s = map skel s' ->
  ranked inside rank bound s -> ranked inside rank bound s'.
Proof.
  intros E R c' p Hc Hp Hr.
  destruct (skel_In s s' c' E Hc) as [c [Hin Hs]].
  rewrite <- (skel_id _ _ Hs). apply (R c p Hin); auto.
  now rewrite (skel_parent _ _ Hs).
Qed.

Lemma repairEach_skel rec pid pa :
  (forall i a s s', rec i a s = Some s' -> map skel s' = map skel s) ->
  forall subs s s',
    repairEach rec now pid pa subs s = Some s' -> map skel s' = map skel s.
Proof.
  intros Hrec. induction subs as [|sub rest IH]; simpl; intros s s' H.
  - now inversion H.
  - destruct (rec (_id sub) (pa ++ [pid]) _) as [s1|] eqn:E; [|discriminate].
    rewrite (IH _ _ H), (Hrec _ _ _ _ E). apply skel_save_ancestors.
Qed.

Lemma repair_skel fuel :
  forall pid pa s s',
    updateSubcategoryAncestors fuel now pid pa s = Some s' ->
    map skel s' = map skel s.
Proof.
  induction fuel as [|fuel IH]; simpl; intros pid pa s s' H; [discriminate|].
  eapply repairEach_skel; eauto.
Qed.

Local Abbreviation below := (walk_child inside rank bound).
Local Abbreviation untouched := (walk_untouched inside rank).

Lemma children_rank pid s :
  ranked inside rank bound s -> inside pid ->
  forall sub, In sub (findByParent pid s) -> below pid sub.
Proof.
  intros R Hpid sub H. apply findByParent_In in H. destruct H as [H1 H2].
  apply (R sub pid); auto.
Qed.

(** The walk below [pid] does not touch a document outside the region, nor
    one whose rank is at most that of [pid]: the parent itself, its
    siblings, the children already repaired. *)
Lemma repairEach_frame rec pid pa :
  (forall j a s s', rec j a s = Some s' -> map skel s' = map skel s) ->
  (forall j a s s', ranked inside rank bound s -> inside j ->
     rec j a s = Some s' ->
     forall i, untouched j i -> findById i s' = findById i s) ->
  forall subs s s',
    ranked inside rank bound s ->
    (forall sub, In sub subs -> below pid sub) ->
    repairEach rec now pid pa subs s = Some s' ->
    forall i, untouched pid i -> findById i s' = findById i s.
Proof.
  intros Hskel Hrec.
  induction subs as [|sub rest IH]; simpl; intros s s' R Hsubs H i Hi.
  - now inversion H.
  - destruct (rec (_id sub) (pa ++ [pid]) _) as [s1|] eqn:E; [|discriminate].
    destruct (Hsubs sub (or_introl eq_refl)) as [Hin [Hsub _]].
    assert (R0 : ranked inside rank bound
                   (save_ancestors now (_id sub) (pa ++ [pid]) s))
      by (eapply ranked_skel; [|exact R]; symmetry; apply skel_save_ancestors).
    assert (R1 : ranked inside rank bound s1)
      by (eapply ranked_skel; [|exact R0]; symmetry; eapply Hskel; eauto).
    assert (Hi' : untouched (_id sub) i)
      by (destruct Hi as [Hi|Hi]; [now left|right; lia]).
    rewrite (IH s1 s' R1 (fun x Hx => Hsubs x (or_intror Hx)) H i Hi).
    rewrite (Hrec _ _ _ _ R0 Hin E i Hi').
    unfold save_ancestors. rewrite findById_updateOne by (now intros []).
    destruct (i =? _id sub) eqn:Ei; [|reflexivity].
    apply Nat.eqb_eq in Ei. subst. destruct Hi as [Hi|Hi]; [tauto|lia].
Qed.

Lemma repair_frame fuel :
  forall pid pa s s',
    ranked inside rank bound s -> inside pid ->
    updateSubcategoryAncestors fuel now pid pa s = Some s' ->
    forall i, untouched pid i -> findById i s' = findById i s.
Proof.
  induction fuel as [|fuel IH]; simpl; intros pid pa s s' R Hpid H;
    [discriminate|].
  eapply repairEach_frame; eauto.
  - intros; eapply repair_skel; eauto.
  - now apply children_rank.
Qed.

(** Termination: the walk finishes as soon as the fuel exceeds the ranks
    that remain below [pid]. *)
Lemma repairEach_total rec pid pa :
  (forall j a s s', rec j a s = Some s' -> map skel s' = map skel s) ->
  (forall j a s, ranked inside rank bound s -> inside j ->
     rank j = S (rank pid) -> rank j <= bound ->
     exists s', rec j a s = Some s') ->
  forall subs s,
    ranked inside rank bound s ->
    (forall sub, In sub subs -> below pid sub) ->
    exists s', repairEach rec now pid pa subs s = Some s'.
Proof.
  intros Hskel Hrec.
  induction subs as [|sub rest IH]; simpl; intros s R Hsubs; [eauto|].
  destruct (Hsubs sub (or_introl eq_refl)) as [H0 [H1 H2]].
  assert (R0 : ranked inside rank bound
                 (save_ancestors now (_id sub) (pa ++ [pid]) s))
    by (eapply ranked_skel; [|exact R]; symmetry; apply skel_save_ancestors).
  destruct (Hrec (_id sub) (pa ++ [pid]) _ R0 H0 H1 H2) as [s1 E].
  rewrite E. apply IH.
  - eapply ranked_skel; [|exact R0]. symmetry. eapply Hskel; eauto.
  - intros x Hx. apply Hsubs. now right.
Qed.

Lemma repair_total fuel :
  forall pid pa s,
    ranked inside rank bound s -> inside pid -> rank pid <= bound ->
    bound < fuel + rank pid ->
    exists s', updateSubcategoryAncestors fuel now pid pa s = Some s'.
Proof.
  induction fuel as [|fuel IH]; simpl; intros pid pa s R Hpid Hle Hb; [lia|].
  apply repairEach_total.
  - intros; eapply repair_skel; eauto.
  - intros j a s0 R0 Hin Hj Hjb. apply IH; auto; lia.
  - exact R.
  - now apply children_rank.
Qed.

(** Correctness: if only the children of [pid] (and the documents set
    aside in [Bad]) may have a wrong path when the walk starts, then none
    but those of [Bad] has one when it ends. *)
Lemma good_save_other s j a d :
  _id d <> j ->
  good s d ->
  good (save_ancestors now j a s) d \/ parent d = Some j.
Proof.
  intros Hd G. unfold good in *. destruct (parent d) as [p|] eqn:Ep.
  - destruct (Nat.eq_dec p j) as [->|Hp]; [now right|left].
    destruct G as [pc [H1 H2]]. exists pc. split; [|exact H2].
    unfold save_ancestors. rewrite findById_updateOne by (now intros []).
    apply Nat.eqb_neq in Hp. now rewrite Hp.
  - now left.
Qed.

Lemma repairEach_good rec pid pa (Bad : ObjectId -> Prop) :
  (forall j a s s', rec j a s = Some s' -> map skel s' = map skel s) ->
  (forall j a s s', ranked inside rank bound s -> inside j ->
     rec j a s = Some s' ->
     forall i, untouched j i -> findById i s' = findById i s) ->
  (forall j a s s' (B : ObjectId -> Prop),
     ranked inside rank bound s -> inside j -> NoDup (map _id s) ->
     has_path j a s -> pending j B s ->
     rec j a s = Some s' ->
     forall c', In c' s' -> good s' c' \/ B (_id c')) ->
  forall subs s s',
    ranked inside rank bound s -> NoDup (map _id s) -> has_path pid pa s ->
    (forall sub, In sub subs -> below pid sub) ->
    (forall sub d, In sub subs -> In d s -> _id d = _id sub ->
       parent d = Some pid) ->
    (forall sub, In sub subs -> In (_id sub) (map _id s)) ->
    (forall c, In c s ->
       good s c \/ In (_id c) (map _id subs) \/ Bad (_id c)) ->
    repairEach rec now pid pa subs s = Some s' ->
    forall c', In c' s' -> good s' c' \/ Bad (_id c').
Proof.
  intros Hskel Hframe Hgood.
  induction subs as [|sub rest IH]; simpl;
    intros s s' R N HP Hrk Hpar Hids Hpend H.
  - inversion H; subst. intros c Hc.
    destruct (Hpend c Hc) as [G|[[]|B]]; auto.
  - set (a := pa ++ [pid]) in *.
    set (s1 := save_ancestors now (_id sub) a s) in *.
    destruct (rec (_id sub) a s1) as [s2|] eqn:E; [|discriminate].
    destruct (Hrk sub (or_introl eq_refl)) as [Hin [Hsub _]].
    assert (Hne : pid <> _id sub) by (intros Heq; rewrite <- Heq in Hsub; lia).
    assert (K1 : map skel s1 = map skel s) by apply skel_save_ancestors.
    assert (K2 : map skel s2 = map skel s1) by (eapply Hskel; eauto).
    assert (R1 : ranked inside rank bound s1)
      by (eapply ranked_skel; [|exact R]; now symmetry).
    assert (R2 : ranked inside rank bound s2)
      by (eapply ranked_skel; [|exact R1]; now symmetry).
    assert (I1 : map _id s1 = map _id s) by now apply skel_ids.
    assert (I2 : map _id s2 = map _id s1) by now apply skel_ids.
    assert (F1 : findById pid s1 = findById pid s).
    { unfold s1, save_ancestors. rewrite findById_updateOne by (now intros []).
      apply Nat.eqb_neq in Hne. now rewrite Hne. }
    assert (F2 : findById pid s2 = findById pid s1).
    { apply (Hframe _ _ _ _ R1 Hin E). right. lia. }
    assert (P1 : has_path (_id sub) a s1).
    { destruct (findById_ids (_id sub) s (Hids sub (or_introl eq_refl)))
        as [d Hd].
      exists (with_updatedAt now (with_ancestors a d)). split; [|reflexivity].
      unfold s1, save_ancestors. rewrite findById_updateOne by (now intros []).
      now rewrite Nat.eqb_refl, Hd. }
    assert (Q1 : pending (_id sub)
                   (fun i => In i (map _id rest) \/ Bad i) s1).
    { intros c Hc. apply In_updateOne in Hc. destruct Hc as [d [Hd Hc]].
      destruct (_id d =? _id sub) eqn:Ed.
      - apply Nat.eqb_eq in Ed. left. subst c. unfold good. simpl.
        rewrite (Hpar sub d (or_introl eq_refl) Hd Ed).
        destruct HP as [pc [Hpc Hpa]]. exists pc. rewrite F1.
        split; [exact Hpc|]. now rewrite Hpa.
      - apply Nat.eqb_neq in Ed. subst c.
        destruct (Hpend d Hd) as [G|[[Hs|Hr]|B]].
        + destruct (good_save_other s (_id sub) a d Ed G); auto.
        + congruence.
        + right; right; now left.
        + right; right; now right. }
    pose proof (Hgood _ _ _ _ _ R1 Hin ltac:(now rewrite I1) P1 Q1 E) as G2.
    apply (IH s2 s'); [exact R2| | | | | | |exact H].
    + now rewrite I2, I1.
    + destruct HP as [pc [Hpc Hpa]]. exists pc. now rewrite F2, F1.
    + intros x Hx. apply Hrk. now right.
    + intros x d Hx Hd Hxd.
      destruct (skel_In s1 s2 d (eq_sym K2) Hd) as [d1 [Hd1 S1]].
      destruct (skel_In s s1 d1 (eq_sym K1) Hd1) as [d0 [Hd0 S0]].
      rewrite <- (skel_parent _ _ S1), <- (skel_parent _ _ S0).
      apply (Hpar x d0); [now right|exact Hd0|].
      now rewrite (skel_id _ _ S0), (skel_id _ _ S1).
    + intros x Hx. rewrite I2, I1. apply Hids. now right.
    + intros c Hc. destruct (G2 c Hc) as [G|[Hr|B]]; auto.
Qed.

Lemma repair_good fuel :
  forall pid pa s s' (Bad : ObjectId -> Prop),
    ranked inside rank bound s -> inside pid -> NoDup (map _id s) ->
    has_path pid pa s -> pending pid Bad s ->
    updateSubcategoryAncestors fuel now pid pa s = Some s' ->
    forall c', In c' s' -> good s' c' \/ Bad (_id c').
Proof.
  induction fuel as [|fuel IH]; simpl;
    intros pid pa s s' Bad R Hpid N HP Hpend H; [discriminate|].
  eapply repairEach_good with (s := s); eauto.
  - intros; eapply repair_skel; eauto.
  - intros; eapply repair_frame; eauto.
  - now apply children_rank.
  - intros sub d Hsub Hd E. apply findByParent_In in Hsub.
    destruct Hsub as [Hin Hp].
    now rewrite (In_same_id s d sub N Hd Hin E).
  - intros sub Hsub. apply findByParent_In in Hsub. apply in_map. tauto.
  - intros c Hc. destruct (Hpend c Hc) as [G|[Hp|B]]; auto.
    right; left. apply in_map. apply findByParent_In. auto.
Qed.

End Repair.

(* ------------------------------------------------------------------ *)
(** ** The ancestor invariant                                           *)
(* ------------------------------------------------------------------ *)


Lemma depth_ge s c : In c s -> List.length (ancestors c) <= depth s.
Proof.
  induction s as [|d s IH]; simpl; [tauto|].
  intros [->|H]; [lia|]. specialize (IH H). lia.
Qed.

Lemma includes_In id l : includes id l = true <-> In id l.
Proof.
  unfold includes. rewrite existsb_exists. split.
  - intros [x [H E]]. apply Nat.eqb_eq in E. now subst.
  - intros H. exists id. split; [exact H|apply Nat.eqb_refl].
Qed.

Lemma includes_app id l1 l2 :
  includes id (l1 ++ l2) = includes id l1 || includes id l2.
Proof. unfold includes. apply existsb_app. Qed.

Lemma ids_updateOne j f s :
  (forall d, _id (f d) = _id d) -> map _id (updateOne j f s) = map _id s.
Proof.
  intros Hf. unfold updateOne. rewrite map_map. apply map_ext.
  intros d. destruct (_id d =? j); auto.
Qed.


Lemma moved_findById_other now s A p a i :
  i <> A -> findById i (save_moved now A p a s) = findById i s.
Proof.
  intros H. unfold save_moved.
  rewrite findById_updateOne by (now intros []).
  apply Nat.eqb_neq in H. now rewrite H.
Qed.

Section Move.

Variables (now : Z) (s : Collection) (A : ObjectId) (category : Category).
Variables (p : option ObjectId) (a : list ObjectId).

Hypothesis Hok : tree_ok s.
Hypothesis Hcat : findById A s = Some category.
Hypothesis Hallowed : move_allowed s A p a.


Local Abbreviation s1 := (save_moved now A p a s).

Lemma moved_ids : map _id s1 = map _id s.
Proof. apply ids_updateOne. now intros []. Qed.

Lemma moved_has_path : has_path A a s1.
Proof.
  exists (with_updatedAt now (with_ancestors a (with_parent p category))).
  split; [|reflexivity]. unfold save_moved.
  rewrite findById_updateOne by (now intros []).
  now rewrite Nat.eqb_refl, Hcat.
Qed.

Lemma subtree_rank_A : subtree_rank s A A = S (List.length (ancestors category)).
Proof. unfold subtree_rank. now rewrite Hcat, Nat.eqb_refl. Qed.

Local Abbreviation in_subtree := (fun i => subtree_rank s A i <> 0).

Lemma moved_ranked : ranked in_subtree (subtree_rank s A) (S (depth s)) s1.
Proof.
  intros c q Hc Hq Hr. apply In_updateOne in Hc. destruct Hc as [d [Hd Hc]].
  cut (subtree_rank s A (_id c) = S (subtree_rank s A q)
       /\ subtree_rank s A (_id c) <= S (depth s)).
  { intros [K1 K2]. repeat split; auto. rewrite K1. lia. }
  destruct (_id d =? A) eqn:Ed.
  - (* the moved category: its new parent has rank 0 *)
    exfalso. subst c. simpl in Hq. subst p. simpl in Hallowed.
    destruct Hallowed as [pc [H1 [H2 [H3 H4]]]].
    apply Hr. unfold subtree_rank. rewrite H1, H3.
    apply Nat.eqb_neq in H4. now rewrite H4.
  - subst c. pose proof (paths_ok s Hok d Hd) as G. unfold good in G.
    rewrite Hq in G. destruct G as [qc [H1 H2]].
    unfold subtree_rank in *.
    rewrite (findById_NoDup s d (ids_unique s Hok) Hd), Ed.
    rewrite H1 in *. rewrite H2, includes_app. simpl.
    rewrite orb_false_r, (orb_comm (includes A (ancestors qc)) (q =? A)).
    simpl. destruct ((q =? A) || includes A (ancestors qc)); [|congruence].
    rewrite length_app. simpl. split; [lia|].
    pose proof (depth_ge s d Hd) as Hle. rewrite H2, length_app in Hle.
    simpl in Hle. lia.
Qed.

Lemma moved_inside : in_subtree A.
Proof. cbv beta. rewrite subtree_rank_A. lia. Qed.

Lemma moved_pending : pending A (fun _ => False) s1.
Proof.
  intros c Hc. apply In_updateOne in Hc. destruct Hc as [d [Hd Hc]].
  destruct (_id d =? A) eqn:Ed.
  - left. subst c. unfold good. simpl. unfold move_allowed in Hallowed.
    destruct p as [np|]; [|exact Hallowed].
    destruct Hallowed as [pc [H1 [H2 [H3 H4]]]].
    exists pc. rewrite (moved_findById_other now s A _ a np H4). auto.
  - subst c. apply Nat.eqb_neq in Ed.
    pose proof (paths_ok s Hok d Hd) as G. unfold good in *.
    destruct (parent d) as [q|] eqn:Eq; [|now left].
    destruct (Nat.eq_dec q A) as [->|Hq]; [right; now left|left].
    destruct G as [qc [H1 H2]]. exists qc.
    now rewrite (moved_findById_other now s A p a q Hq).
Qed.

Lemma move_repair_ok fuel s2 :
  updateSubcategoryAncestors fuel now A a s1 = Some s2 -> tree_ok s2.
Proof.
  intros H.
  assert (N1 : NoDup (map _id s1)) by (rewrite moved_ids; apply Hok).
  split.
  - rewrite (skel_ids _ _ (repair_skel now fuel _ _ _ _ H)). exact N1.
  - intros c Hc.
    destruct (repair_good now in_subtree (subtree_rank s A) (S (depth s))
                fuel A a s1 s2 (fun _ => False) moved_ranked moved_inside N1
                moved_has_path moved_pending H c Hc) as [G|[]].
    exact G.
Qed.

Lemma move_repair_total fuel :
  depth s < fuel ->
  exists s2, updateSubcategoryAncestors fuel now A a s1 = Some s2.
Proof.
  intros Hf.
  apply (repair_total now in_subtree (subtree_rank s A) (S (depth s)));
    [apply moved_ranked|apply moved_inside| |].
  - rewrite subtree_rank_A.
    destruct (findById_In _ _ _ Hcat) as [Hin _].
    pose proof (depth_ge s category Hin). lia.
  - rewrite subtree_rank_A. lia.
Qed.

Lemma move_repair_keeps_moved fuel s2 :
  updateSubcategoryAncestors fuel now A a s1 = Some s2 ->
  findById A s2
  = Some (with_updatedAt now (with_ancestors a (with_parent p category))).
Proof.
  intros H.
  rewrite (repair_frame now in_subtree (subtree_rank s A) (S (depth s)) fuel
             A a s1 s2 moved_ranked moved_inside H A (or_intror (le_n _))).
  unfold save_moved. rewrite findById_updateOne by (now intros []).
  now rewrite Nat.eqb_refl, Hcat.
Qed.

Lemma move_repair_outside fuel s2 i :
  updateSubcategoryAncestors fuel now A a s1 = Some s2 ->
  subtree_rank s A i = 0 ->
  findById i s2 = findById i s1.
Proof.
  intros H Hi.
  apply (repair_frame now in_subtree (subtree_rank s A) (S (depth s)) fuel
           A a s1 s2 moved_ranked moved_inside H i).
  left. intros K. now apply K.
Qed.

End Move.

(* ------------------------------------------------------------------ *)
(** ** Worlds the handlers keep well formed                             *)
(* ------------------------------------------------------------------ *)


Lemma wf_empty : wf empty_world.
Proof.
  split; [split|]; simpl; try tauto. constructor.
Qed.

Lemma es_try_categories env c m w : categories (es_try env c m w) = categories w.
Proof. unfold es_try, es_call. now destruct (elastic env (es_calls w) c). Qed.

Lemma es_try_next_oid env c m w : next_oid (es_try env c m w) = next_oid w.
Proof. unfold es_try, es_call. now destruct (elastic env (es_calls w) c). Qed.

Lemma wf_same w w' :
  categories w' = categories w -> next_oid w' = next_oid w -> wf w -> wf w'.
Proof. intros E1 E2 [H1 H2]. split; rewrite ?E1, ?E2; auto. Qed.

Lemma findById_app_l i s c t :
  findById i s = Some c -> findById i (s ++ t) = Some c.
Proof.
  unfold findById. induction s as [|d s IH]; simpl; [discriminate|].
  destruct (_id d =? i); auto.
Qed.

Lemma good_app s t c : good s c -> good (s ++ t) c.
Proof.
  unfold good. destruct (parent c); auto.
  intros [pc [H1 H2]]. exists pc. split; auto. now apply findById_app_l.
Qed.

Lemma tree_ok_insert s c :
  tree_ok s -> ~ In (_id c) (map _id s) -> good s c -> tree_ok (s ++ [c]).
Proof.
  intros [N G] Hfresh Hc. split.
  - rewrite map_app. simpl. apply NoDup_app; auto.
    + constructor; [simpl; tauto|constructor].
    + intros i Hi [<-|[]]. auto.
  - intros d Hd. apply in_app_or in Hd. destruct Hd as [Hd|[<-|[]]].
    + apply good_app. auto.
    + now apply good_app.
Qed.


Lemma createCategory_created env ctx body w :
  created ctx body w (fst (createCategory env ctx body w))
    (snd (createCategory env ctx body w)).
Proof.
  unfold createCategory.
  destruct (p_name body) as [nm|] eqn:En;
    [|now apply create_refused].
  destruct (findOneByName _ _) eqn:Ef; [now apply create_refused|].
  assert (K : forall par anc,
             par = truthy_parent (p_parent body) ->
             good (categories w)
               (mkCategory (next_oid w) (Str.trim (Str.trim nm))
                  (option_map Str.trim (p_description body))
                  (slugify (Str.trim nm)) par anc 0%Z true
                  (Some (user_id (user ctx))) (now ctx) (now ctx)) ->
             let res :=
               match Category_create ctx (Str.trim nm) (p_description body)
                       par anc w with
               | inr e => createCategory_failed e w
               | inl (category, w1) =>
                   (success 201 (category_json category),
                    es_try env
                      (IndexDocument (categories_index env) (_id category)
                         (created_doc category))
                      "Failed to index category in Elasticsearch: " w1)
               end in
             created ctx body w (fst res) (snd res)).
  { intros par anc Hp Hg. unfold Category_create. cbv zeta.
    destruct (negb (Str.truthy _)); [now apply create_refused|].
    destruct (negb (unique_ok _ _)); [now apply create_refused|].
    cbn [fst snd].
    eapply create_done with (nm := nm);
      rewrite ?es_try_categories, ?es_try_next_oid; simpl; eauto. }
  destruct (truthy_parent (p_parent body)) as [par|] eqn:Ep.
  - destruct (findById par (categories w)) as [pc|] eqn:Epc;
      [|now apply create_refused].
    apply K; auto. unfold good; simpl. eauto.
  - apply K; auto. reflexivity.
Qed.

Lemma createCategory_wf env ctx body w :
  wf w -> wf (snd (createCategory env ctx body w)).
Proof.
  intros W. destruct (createCategory_created env ctx body w)
    as [E1 E2 _|c nm E1 E2 _ _ _ Hc _ Hg].
  - eapply wf_same; eauto.
  - destruct W as [T F]. split; rewrite E1, ?E2.
    + apply tree_ok_insert; auto. rewrite Hc. simpl.
      intros H. apply in_map_iff in H. destruct H as [d [Hd Hin]].
      specialize (F d Hin). lia.
    + intros d Hd. apply in_app_or in Hd. destruct Hd as [Hd|[<-|[]]].
      * specialize (F d Hd). lia.
      * rewrite Hc. simpl. lia.
Qed.

(** What [moveCategory] does when it answers. *)
Lemma move_commit_wf fuel env ctx category p a w r w' :
  wf w ->
  findById (_id category) (categories w) = Some category ->
  move_allowed (categories w) (_id category) p a ->
  move_commit fuel env ctx category p a w = Some (r, w') ->
  wf w'.
Proof.
  intros [T F] Hc Ha. unfold move_commit.
  destruct (updateSubcategoryAncestors _ _ _ _ _) as [s2|] eqn:E; [|discriminate].
  intros H. inversion H; subst r w'; clear H.
  split; rewrite es_try_categories, ?es_try_next_oid; simpl.
  - eapply move_repair_ok; eauto.
  - intros c Hin. apply (in_map _id) in Hin.
    rewrite (skel_ids _ _ (repair_skel _ _ _ _ _ _ E)), moved_ids in Hin.
    apply in_map_iff in Hin. destruct Hin as [d [Hd Hin]].
    rewrite <- Hd. auto.
Qed.

Lemma move_commit_total fuel env ctx category p a w :
  wf w ->
  findById (_id category) (categories w) = Some category ->
  move_allowed (categories w) (_id category) p a ->
  depth (categories w) < fuel ->
  exists r w', move_commit fuel env ctx category p a w = Some (r, w').
Proof.
  intros [T F] Hc Ha Hf. unfold move_commit.
  destruct (move_repair_total (now ctx) (categories w) (_id category) category
              p a T Hc Ha fuel Hf) as [s2 E].
  rewrite E. eauto.
Qed.

Lemma move_checks_allowed s A np newParent :
  findById np s = Some newParent ->
  includes A (ancestors newParent) || (np =? A) = false ->
  move_allowed s A (Some np) (ancestors newParent ++ [np]).
Proof.
  intros H1 H2. apply orb_false_elim in H2. destruct H2 as [H2 H3].
  exists newParent. repeat split; auto. now apply Nat.eqb_neq.
Qed.

Lemma moveCategory_wf fuel env ctx id np w r w' :
  wf w -> moveCategory fuel env ctx id np w = Some (r, w') -> wf w'.
Proof.
  intros W. unfold moveCategory.
  destruct (negb (is_admin ctx)); [intros H; now inversion H; subst|].
  destruct (findById id (categories w)) as [category|] eqn:Ec;
    [|intros H; now inversion H; subst].
  destruct (findById_In _ _ _ Ec) as [_ Hid]. subst id.
  destruct np as [|np].
  - apply move_commit_wf; auto. reflexivity.
  - destruct (findById np (categories w)) as [newParent|] eqn:Ep;
      [|intros H; now inversion H; subst].
    destruct (includes _ _ || _) eqn:Ecy; [intros H; now inversion H; subst|].
    apply move_commit_wf; auto. now apply move_checks_allowed.
Qed.

Lemma moveCategory_total fuel env ctx id np w :
  wf w -> depth (categories w) < fuel ->
  exists r w', moveCategory fuel env ctx id np w = Some (r, w').
Proof.
  intros W Hf. unfold moveCategory.
  destruct (negb (is_admin ctx)); [eauto|].
  destruct (findById id (categories w)) as [category|] eqn:Ec; [|eauto].
  destruct (findById_In _ _ _ Ec) as [_ Hid]. subst id.
  destruct np as [|np].
  - apply move_commit_total; auto. reflexivity.
  - destruct (findById np (categories w)) as [newParent|] eqn:Ep; [|eauto].
    destruct (includes _ _ || _) eqn:Ecy; [eauto|].
    apply move_commit_total; auto. now apply move_checks_allowed.
Qed.

(** The depth of a well-formed tree is less than its number of documents:
    a path lists distinct documents, none of them its owner. *)
Lemma path_elements s :
  tree_ok s ->
  forall n c, In c s -> List.length (ancestors c) <= n ->
    forall x, In x (ancestors c) ->
      exists xc, In xc s /\ _id xc = x
                 /\ List.length (ancestors xc) < List.length (ancestors c).
Proof.
  intros T. induction n as [|n IH]; intros c Hc Hn x Hx.
  - destruct (ancestors c); [destruct Hx|simpl in Hn; lia].
  - pose proof (paths_ok s T c Hc) as G. unfold good in G.
    destruct (parent c) as [p|]; [|rewrite G in Hx; destruct Hx].
    destruct G as [pc [H1 H2]]. destruct (findById_In _ _ _ H1) as [Hpc Hid].
    rewrite H2 in Hx, Hn |- *. rewrite length_app in Hn |- *. simpl in *.
    apply in_app_or in Hx. destruct Hx as [Hx|[<-|[]]].
    + destruct (IH pc Hpc ltac:(lia) x Hx) as [xc [K1 [K2 K3]]].
      exists xc. repeat split; auto. lia.
    + exists pc. repeat split; auto. lia.
Qed.

Lemma path_NoDup s :
  tree_ok s ->
  forall n c, In c s -> List.length (ancestors c) <= n ->
    NoDup (_id c :: ancestors c).
Proof.
  intros T. induction n as [|n IH]; intros c Hc Hn.
  - destruct (ancestors c); [|simpl in Hn; lia].
    constructor; [simpl; tauto|constructor].
  - constructor.
    + intros Hx.
      destruct (path_elements s T _ c Hc (le_n _) _ Hx) as [xc [K1 [K2 K3]]].
      rewrite (In_same_id s xc c (ids_unique s T) K1 Hc K2) in K3. lia.
    + pose proof (paths_ok s T c Hc) as G. unfold good in G.
      destruct (parent c) as [p|]; [|rewrite G; constructor].
      destruct G as [pc [H1 H2]]. destruct (findById_In _ _ _ H1) as [Hpc Hid].
      rewrite H2 in Hn |- *. rewrite length_app in Hn. simpl in Hn.
      assert (N : NoDup (_id pc :: ancestors pc)) by (apply IH; auto; lia).
      rewrite Hid in N. inversion N as [|? ? Np Na]; subst.
      apply NoDup_app; auto.
      * constructor; [simpl; tauto|constructor].
      * intros i Hi [<-|[]]. auto.
Qed.

Lemma depth_lt_length s c :
  tree_ok s -> In c s -> List.length (ancestors c) < List.length s.
Proof.
  intros T Hc.
  assert (Hincl : incl (_id c :: ancestors c) (map _id s)).
  { intros x [<-|Hx]; [now apply in_map|].
    destruct (path_elements s T _ c Hc (le_n _) x Hx) as [xc [K1 [K2 _]]].
    rewrite <- K2. now apply in_map. }
  pose proof (NoDup_incl_length (path_NoDup s T _ c Hc (le_n _)) Hincl) as H.
  simpl in H. rewrite length_map in H. lia.
Qed.

Lemma depth_bound s : tree_ok s -> depth s <= List.length s.
Proof.
  intros T.
  assert (H : forall t, incl t s -> depth t <= List.length s).
  { induction t as [|d t IH]; simpl; intros Hi; [lia|].
    pose proof (depth_lt_length s d T (Hi d (or_introl eq_refl))).
    specialize (IH (fun x Hx => Hi x (or_intror Hx))). lia. }
  apply H. apply incl_refl.
Qed.

(* ------------------------------------------------------------------ *)
(** ** Sequences of create and move requests                            *)
(* ------------------------------------------------------------------ *)

Lemma handle_wf fuel env ctx c w r w' :
  create_or_move c = true -> wf w ->
  handle fuel env ctx c w = Some (r, w') -> wf w'.
Proof.
  destruct c as [body|id body|id|id np]; simpl; try discriminate; intros _ W H.
  - inversion H as [E]. pose proof (createCategory_wf env ctx body w W) as K.
    now rewrite E in K.
  - eapply moveCategory_wf; eauto.
Qed.

Lemma handle_length fuel env ctx c w r w' :
  create_or_move c = true ->
  handle fuel env ctx c w = Some (r, w') ->
  List.length (categories w') <= S (List.length (categories w)).
Proof.
  destruct c as [body|id body|id|id np]; simpl; try discriminate; intros _ H.
  - inversion H as [E].
    destruct (createCategory_created env ctx body w) as [E1 _ _|c nm E1];
      rewrite E in E1; simpl in E1; rewrite E1, ?length_app; simpl; lia.
  - unfold moveCategory, move_commit in H.
    assert (K : forall category p a,
              match updateSubcategoryAncestors fuel (now ctx) (_id category) a
                      (save_moved (now ctx) (_id category) p a (categories w))
              with
              | Some s2 =>
                  Some (success 200 (category_json
                          (with_updatedAt (now ctx)
                             (with_ancestors a (with_parent p category)))),
                        es_try env
                          (UpdateDocument (categories_index env) (_id category)
                             (moved_doc (with_updatedAt (now ctx)
                                (with_ancestors a (with_parent p category)))))
                          "Failed to update moved category in Elasticsearch: "
                          (with_categories s2 w))
              | None => None
              end = Some (r, w') ->
              List.length (categories w') <= S (List.length (categories w))).
    { intros category p a.
      destruct (updateSubcategoryAncestors _ _ _ _ _) as [s2|] eqn:E;
        [|discriminate].
      intros K. inversion K; subst. rewrite es_try_categories. simpl.
      apply repair_skel in E. apply skel_ids in E.
      apply (f_equal (@List.length _)) in E. rewrite !length_map in E.
      rewrite E. unfold save_moved, updateOne. rewrite length_map. lia. }
    destruct (negb (is_admin ctx)); [inversion H; subst; lia|].
    destruct (findById id (categories w)) as [category|];
      [|inversion H; subst; lia].
    destruct np as [|np]; [now apply (K category None [])|].
    destruct (findById np (categories w)) as [newParent|];
      [|inversion H; subst; lia].
    destruct (includes _ _ || _); [inversion H; subst; lia|].
    now apply (K category (Some np) (ancestors newParent ++ [np])).
Qed.

Lemma handle_total fuel env ctx c w :
  create_or_move c = true -> wf w -> List.length (categories w) < fuel ->
  exists r w', handle fuel env ctx c w = Some (r, w').
Proof.
  destruct c as [body|id body|id|id np]; simpl; try discriminate; intros _ W Hf.
  - destruct (createCategory env ctx body w); eauto.
  - apply moveCategory_total; auto.
    pose proof (depth_bound (categories w) (wf_tree w W)). lia.
Qed.

Lemma run_wf fuel env reqs :
  Forall (fun rc => create_or_move (snd rc) = true) reqs ->
  forall w rs w', wf w -> run fuel env reqs w = Some (rs, w') -> wf w'.
Proof.
  induction 1 as [|[ctx c] reqs Hc _ IH]; simpl; intros w rs w' W H.
  - now inversion H; subst.
  - destruct (handle fuel env ctx c w) as [[r w1]|] eqn:E; [|discriminate].
    destruct (run fuel env reqs w1) as [[rs1 w2]|] eqn:E2; [|discriminate].
    inversion H; subst. eapply IH; [|exact E2]. eapply handle_wf; eauto.
Qed.

Lemma run_total fuel env reqs :
  Forall (fun rc => create_or_move (snd rc) = true) reqs ->
  forall w, wf w -> List.length (categories w) + List.length reqs <= fuel ->
    exists rs w', run fuel env reqs w = Some (rs, w').
Proof.
  induction 1 as [|[ctx c] reqs Hc _ IH]; simpl; intros w W Hf; [eauto|].
  destruct (handle_total fuel env ctx c w Hc W ltac:(lia)) as [r [w1 E]].
  rewrite E.
  destruct (IH w1) as [rs [w2 E2]].
  - eapply handle_wf; eauto.
  - pose proof (handle_length _ _ _ _ _ _ _ Hc E). lia.
  - rewrite E2. eauto.
Qed.

Lemma tree_ok_chain s :
  tree_ok s ->
  forall fuel c, In c s -> List.length (ancestors c) < fuel ->
    parent_chain fuel s c = Some (ancestors c).
Proof.
  intros T. induction fuel as [|k IH]; intros c Hc Hf; [lia|]. simpl.
  pose proof (paths_ok s T c Hc) as G. unfold good in G.
  destruct (parent c) as [p|]; [|now rewrite G].
  destruct G as [pc [H1 H2]]. rewrite H1.
  destruct (findById_In _ _ _ H1) as [Hpc _].
  rewrite H2, length_app in Hf. simpl in Hf.
  rewrite (IH pc Hpc ltac:(lia)). now rewrite H2.
Qed.

Lemma world_after_wf reqs :
  Forall (fun rc => create_or_move (snd rc) = true) reqs -> wf (world_after reqs).
Proof.
  intros H. unfold world_after.
  destruct (run _ _ reqs empty_world) as [[rs w]|] eqn:E; [|apply wf_empty].
  eapply run_wf; eauto. apply wf_empty.
Qed.

(* ------------------------------------------------------------------ *)
(** ** The ancestor invariant under create and move                     *)
(* ------------------------------------------------------------------ *)

(** C1. Whatever sequence of create and move requests is served from the
    empty collection (whether or not each of them succeeds), the sequence
    is served to its end as soon as the repair walk may go as deep as the
    sequence is long, and in the collection it leaves the [ancestors] of
    every category is the chain of ids obtained by following the [parent]
    links, from the root down to the parent (empty for a root). *)
Theorem ancestors_are_the_parent_chain env reqs :
  Forall (fun rc => create_or_move (snd rc) = true) reqs ->
  (forall fuel, List.length reqs <= fuel ->
     exists rs w, run fuel env reqs empty_world = Some (rs, w))
  /\ (forall fuel rs w, run fuel env reqs empty_world = Some (rs, w) ->
        forall c, In c (categories w) ->
          forall k, List.length (ancestors c) < k ->
            parent_chain k (categories w) c = Some (ancestors c)).
Proof.
  intros H. split.
  - intros fuel Hf. apply run_total; auto. apply wf_empty.
  - intros fuel rs w E c Hc k Hk.
    apply tree_ok_chain; auto.
    apply (wf_tree w). eapply run_wf; eauto. apply wf_empty.
Qed.

Lemma ancestors_are_the_parent_chain_witness :
  (forall fuel, 4 <= fuel ->
     exists rs w,
       run fuel (env_with index_down)
         (three_levels ++ [(admin_at 4, Move 1 Root)]) empty_world
       = Some (rs, w))
  /\ (forall fuel rs w,
        run fuel (env_with index_down)
          (three_levels ++ [(admin_at 4, Move 1 Root)]) empty_world
        = Some (rs, w) ->
        forall c, In c (categories w) ->
          forall k, List.length (ancestors c) < k ->
            parent_chain k (categories w) c = Some (ancestors c)).
Proof.
  apply (ancestors_are_the_parent_chain (env_with index_down)
           (three_levels ++ [(admin_at 4, Move 1 Root)])).
  repeat constructor.
Defined.

(* ------------------------------------------------------------------ *)
(** ** Cycle rejection                                                  *)
(* ------------------------------------------------------------------ *)

Lemma descendant_in_path s a b :
  tree_ok s -> descendant s a b ->
  exists bc, findById b s = Some bc /\ In a (ancestors bc).
Proof.
  intros T. induction 1 as [b bc Hb Hp|b bc q Hb Hp _ IH].
  - exists bc. split; auto.
    destruct (findById_In _ _ _ Hb) as [Hin _].
    pose proof (paths_ok s T bc Hin) as G. unfold good in G. rewrite Hp in G.
    destruct G as [pc [_ G]]. rewrite G. apply in_or_app. right. now left.
  - exists bc. split; auto.
    destruct (findById_In _ _ _ Hb) as [Hin _].
    pose proof (paths_ok s T bc Hin) as G. unfold good in G. rewrite Hp in G.
    destruct G as [pc [H1 G]]. destruct IH as [qc [H2 H3]].
    rewrite G. apply in_or_app. left. congruence.
Qed.



(* ------------------------------------------------------------------ *)
(** ** The repair of a subtree that is already correct                  *)
(* ------------------------------------------------------------------ *)

Lemma good_dec s c : good s c \/ ~ good s c.
Proof.
  unfold good. destruct (parent c) as [p|].
  - destruct (findById p s) as [pc|].
    + destruct (list_eq_dec Nat.eq_dec (ancestors c) (ancestors pc ++ [p]))
        as [E|E].
      * left. eauto.
      * right. intros [x [H1 H2]]. congruence.
    + right. intros [x [H1 _]]. discriminate.
  - destruct (list_eq_dec Nat.eq_dec (ancestors c) []); auto.
Qed.

Lemma untimed_of_paths s s' :
  (forall c c', In c s -> In c' s' -> _id c = _id c' ->
     ancestors c = ancestors c') ->
  map skel s = map skel s' -> map untimed s = map untimed s'.
Proof.
  intros P.
  assert (K : forall t t', incl t s -> incl t' s' ->
                map skel t = map skel t' -> map untimed t = map untimed t').
  { induction t as [|d t IH]; intros [|d' t'] Hi Hi' E; simpl in *;
      try discriminate; auto.
    assert (Hd : skel d = skel d')
      by (change (hd (skel d) (skel d :: map skel t)
                  = hd (skel d) (skel d' :: map skel t')); now rewrite E).
    assert (Ht : map skel t = map skel t')
      by (change (tl (skel d :: map skel t) = tl (skel d' :: map skel t'));
          now rewrite E).
    f_equal.
    - apply skel_untimed; auto. apply P.
      + apply Hi. now left.
      + apply Hi'. now left.
      + now apply skel_id.
    - apply IH; auto.
      + intros x Hx. apply Hi. now right.
      + intros x Hx. apply Hi'. now right. }
  apply K; apply incl_refl.
Qed.

Section CorrectSubtree.

Variables (now : Z) (s : Collection) (A : ObjectId) (cat : Category).

Hypothesis Hids : NoDup (map _id s).
Hypothesis Hcat : findById A s = Some cat.
Hypothesis Hsub : subtree_ok s A.

Local Abbreviation inside := (in_or_below s A).

Lemma below_ranked : ranked inside (full_rank s) (S (depth s)) s.
Proof.
  intros c p Hc Hp Hin.
  assert (D : descendant s A (_id c)).
  { pose proof (findById_NoDup s c Hids Hc) as Hf.
    destruct Hin as [->|Hin]; [eapply desc_child|eapply desc_below]; eauto. }
  pose proof (Hsub c Hc D) as G. unfold good in G. rewrite Hp in G.
  destruct G as [pc [H1 H2]]. unfold full_rank.
  rewrite (findById_NoDup s c Hids Hc), H1, H2, length_app. simpl.
  repeat split; [now right|lia|].
  pose proof (depth_ge s c Hc) as Hle. rewrite H2, length_app in Hle.
  simpl in Hle. lia.
Qed.

Lemma correct_repair_total fuel :
  depth s < fuel ->
  exists s', updateSubcategoryAncestors fuel now A (ancestors cat) s = Some s'.
Proof.
  intros Hf. destruct (findById_In _ _ _ Hcat) as [Hin _].
  pose proof (depth_ge s cat Hin).
  apply (repair_total now inside (full_rank s) (S (depth s)));
    [apply below_ranked|now left| |]; unfold full_rank; rewrite Hcat; lia.
Qed.

Section After.

Variables (fuel : nat) (s' : Collection).
Hypothesis Hrun :
  updateSubcategoryAncestors fuel now A (ancestors cat) s = Some s'.

Lemma correct_repair_skel : map skel s' = map skel s.
Proof. eapply repair_skel; eauto. Qed.

Lemma correct_repair_outside i :
  ~ descendant s A i -> findById i s' = findById i s.
Proof.
  intros H.
  destruct (Nat.eq_dec i A) as [->|Hne].
  - apply (repair_frame now inside (full_rank s) (S (depth s)) fuel A
             (ancestors cat) s s' below_ranked (or_introl eq_refl) Hrun).
    right. lia.
  - apply (repair_frame now inside (full_rank s) (S (depth s)) fuel A
             (ancestors cat) s s' below_ranked (or_introl eq_refl) Hrun).
    left. intros [E|D]; auto.
Qed.

Lemma correct_repair_good c' :
  In c' s' -> descendant s A (_id c') -> good s' c'.
Proof.
  intros Hc' D.
  destruct (repair_good now inside (full_rank s) (S (depth s)) fuel A
              (ancestors cat) s s'
              (fun i => exists c, In c s /\ _id c = i /\ ~ good s c)
              below_ranked (or_introl eq_refl) Hids) with (c' := c')
    as [G|[c [Hc [Hi Hb]]]]; auto.
  - exists cat. auto.
  - intros c Hc. destruct (good_dec s c) as [G|G]; [now left|].
    right; right. exists c. auto.
  - exfalso. apply Hb. apply Hsub; auto. now rewrite Hi.
Qed.

Lemma correct_repair_inside i :
  descendant s A i ->
  forall c c', findById i s = Some c -> findById i s' = Some c' ->
    ancestors c' = ancestors c.
Proof.
  induction 1 as [b bc Hb Hp|b bc q Hb Hp Hq IH]; intros c c' Hc Hc';
    rewrite Hb in Hc; inversion Hc; subst c; clear Hc;
    destruct (findById_In _ _ _ Hb) as [Hin Hi];
    destruct (findById_In _ _ _ Hc') as [Hin' Hi'];
    destruct (skel_findById s s' b c' (eq_sym correct_repair_skel) Hc')
      as [c0 [H0 S0]];
    rewrite Hb in H0; inversion H0; subst c0; clear H0.
  - assert (D : descendant s A (_id c'))
      by (rewrite Hi'; eapply desc_child; eauto).
    pose proof (correct_repair_good c' Hin' D) as G'.
    pose proof (Hsub bc Hin ltac:(rewrite Hi; rewrite Hi' in D; exact D)) as G.
    unfold good in G, G'. rewrite <- (skel_parent _ _ S0) in G'.
    rewrite Hp in G, G'.
    destruct G as [pc [H1 H2]]. destruct G' as [pc' [H1' H2']].
    rewrite (repair_frame now inside (full_rank s) (S (depth s)) fuel A
               (ancestors cat) s s' below_ranked (or_introl eq_refl) Hrun A
               (or_intror (le_n _))) in H1'.
    congruence.
  - assert (D : descendant s A (_id c'))
      by (rewrite Hi'; eapply desc_below; eauto).
    pose proof (correct_repair_good c' Hin' D) as G'.
    pose proof (Hsub bc Hin ltac:(rewrite Hi; rewrite Hi' in D; exact D)) as G.
    unfold good in G, G'. rewrite <- (skel_parent _ _ S0) in G'.
    rewrite Hp in G, G'.
    destruct G as [pc [H1 H2]]. destruct G' as [pc' [H1' H2']].
    rewrite H2, H2'. f_equal. now apply IH.
Qed.

Lemma correct_repair_untimed : map untimed s' = map untimed s.
Proof.
  apply untimed_of_paths; [|apply correct_repair_skel].
  intros c' c Hc' Hc Hid.
  assert (N' : NoDup (map _id s'))
    by (rewrite (skel_ids _ _ correct_repair_skel); exact Hids).
  pose proof (findById_NoDup s c Hids Hc) as F.
  pose proof (findById_NoDup s' c' N' Hc') as F'. rewrite Hid in F'.
  destruct (list_eq_dec Nat.eq_dec (ancestors c') (ancestors c)) as [E|E];
    [exact E|exfalso].
  assert (ND : ~ descendant s A (_id c)).
  { intros D. apply E. eapply correct_repair_inside; eauto. }
  rewrite (correct_repair_outside _ ND) in F'. congruence.
Qed.

End After.

End CorrectSubtree.




(* ------------------------------------------------------------------ *)
(** ** The guards of the delete                                         *)
(* ------------------------------------------------------------------ *)

Lemma existsByParent_true id s :
  existsByParent id s = true <-> exists d, In d s /\ parent d = Some id.
Proof.
  unfold existsByParent. rewrite existsb_exists. unfold parent_is.
  split; intros [d [H1 H2]]; exists d; split; auto.
  - destruct (parent d); [|discriminate]. apply Nat.eqb_eq in H2. now subst.
  - rewrite H2. apply Nat.eqb_refl.
Qed.

Lemma existsByParent_false id s :
  (forall d, In d s -> parent d <> Some id) -> existsByParent id s = false.
Proof.
  intros H. destruct (existsByParent id s) eqn:E; [|reflexivity].
  apply existsByParent_true in E. destruct E as [d [H1 H2]].
  now apply H in H1.
Qed.

Lemma deleteOne_gone id s : forall d, In d (deleteOne id s) -> _id d <> id.
Proof.
  unfold deleteOne. intros d H. apply filter_In in H. destruct H as [_ H].
  apply negb_true_iff in H. now apply Nat.eqb_neq.
Qed.

Lemma findById_gone id s : (forall d, In d s -> _id d <> id) -> findById id s = None.
Proof.
  intros H. destruct (findById id s) as [c|] eqn:E; [|reflexivity].
  apply findById_In in E. destruct E as [E1 E2]. now apply H in E1.
Qed.

(** C4, as the code has it. For an existing category and an admin: the
    delete is refused with the subcategories message (HasChildren) whenever
    some document lists the category as its parent; with the resources
    message (NotEmpty) whenever it has no child and its resourceCount is
    greater than 0; and when it has no child and resourceCount 0 (and the
    installed Mongoose provides [Document.prototype.remove]) the delete
    succeeds and no document of the collection has its id any more, so no
    later query returns it. *)
Theorem delete_guards env ctx id w c :
  findById id (categories w) = Some c ->
  is_admin ctx = true ->
  ((exists d, In d (categories w) /\ parent d = Some id) ->
     deleteCategory env ctx id w = (failure 400 msg_has_children, w))
  /\ ((forall d, In d (categories w) -> parent d <> Some id) ->
      (resourceCount c > 0)%Z ->
      deleteCategory env ctx id w = (failure 400 msg_not_empty, w))
  /\ ((forall d, In d (categories w) -> parent d <> Some id) ->
      resourceCount c = 0%Z ->
      document_remove env = true ->
      fst (deleteCategory env ctx id w) = success 200 (JObj [])
      /\ (forall d, In d (categories (snd (deleteCategory env ctx id w))) ->
            _id d <> id)
      /\ findById id (categories (snd (deleteCategory env ctx id w))) = None
      /\ (forall p, ~ In c (findByParent p
                              (categories (snd (deleteCategory env ctx id w)))))).
Proof.
  intros Hc Hadm. unfold deleteCategory. rewrite Hc, Hadm. simpl.
  destruct (findById_In _ _ _ Hc) as [_ Hid].
  repeat split.
  - intros H. apply existsByParent_true in H. now rewrite H.
  - intros H Hr. rewrite (existsByParent_false _ _ H).
    apply Z.gtb_gt in Hr. now rewrite Hr.
  - rewrite (existsByParent_false _ _ H), H0, H1. reflexivity.
  - rewrite (existsByParent_false _ _ H), H0, H1. simpl.
    rewrite es_try_categories. simpl. rewrite Hid. apply deleteOne_gone.
  - rewrite (existsByParent_false _ _ H), H0, H1. simpl.
    rewrite es_try_categories. simpl. rewrite Hid.
    apply findById_gone, deleteOne_gone.
  - rewrite (existsByParent_false _ _ H), H0, H1. simpl.
    rewrite es_try_categories. simpl. rewrite Hid.
    intros p Hin. apply findByParent_In in Hin. destruct Hin as [Hin _].
    now apply deleteOne_gone in Hin.
Qed.

Lemma delete_guards_witness :
  ((exists d, In d (categories (world_after three_levels)) /\ parent d = Some 2) ->
     deleteCategory (env_with index_down) (admin_at 9) 2 (world_after three_levels)
     = (failure 400 msg_has_children, world_after three_levels))
  /\ ((forall d, In d (categories (world_after three_levels)) ->
         parent d <> Some 2) ->
      (0 > 0)%Z ->
      deleteCategory (env_with index_down) (admin_at 9) 2 (world_after three_levels)
      = (failure 400 msg_not_empty, world_after three_levels))
  /\ ((forall d, In d (categories (world_after three_levels)) ->
         parent d <> Some 2) ->
      0%Z = 0%Z ->
      true = true ->
      fst (deleteCategory (env_with index_down) (admin_at 9) 2
             (world_after three_levels)) = success 200 (JObj [])
      /\ (forall d,
            In d (categories
                    (snd (deleteCategory (env_with index_down) (admin_at 9) 2
                            (world_after three_levels)))) -> _id d <> 2)
      /\ findById 2
           (categories
              (snd (deleteCategory (env_with index_down) (admin_at 9) 2
                      (world_after three_levels)))) = None
      /\ (forall p,
            ~ In (mkCategory 2 "C" None "c" (Some 1) [0; 1] 0%Z true
                    (Some 1000) 3%Z 3%Z)
                (findByParent p
                   (categories
                      (snd (deleteCategory (env_with index_down) (admin_at 9) 2
                              (world_after three_levels))))))).
Proof.
  apply (delete_guards (env_with index_down) (admin_at 9) 2
           (world_after three_levels)
           (mkCategory 2 "C" None "c" (Some 1) [0; 1] 0%Z true (Some 1000)
              3%Z 3%Z)).
  - vm_compute. reflexivity.
  - reflexivity.
Defined.

(** The claim C4 as stated fails where it says "nonzero": the category of
    [negative_count] has no child and resourceCount -1, and the admin's
    delete is not answered with NotEmpty. Where Mongoose provides
    [Document.prototype.remove] the category is removed; where it does not,
    the answer is the 500 of the handler's catch. *)
Lemma delete_with_negative_count_succeeds :
  option_map resourceCount (findById 0 (categories (world_after negative_count)))
  = Some (-1)%Z
  /\ existsByParent 0 (categories (world_after negative_count)) = false
  /\ fst (deleteCategory (env_with index_up) (admin_at 3) 0
            (world_after negative_count)) = success 200 (JObj [])
  /\ categories (snd (deleteCategory (env_with index_up) (admin_at 3) 0
                        (world_after negative_count))) = []
  /\ fst (deleteCategory (without_remove (env_with index_up)) (admin_at 3) 0
            (world_after negative_count))
     = serverError "Server error while deleting category"
         "category.remove is not a function".
Proof. repeat split; vm_compute; reflexivity. Qed.

(* ------------------------------------------------------------------ *)
(** ** Search when the index is down                                    *)
(* ------------------------------------------------------------------ *)

(** The advanced search hands every error of the index to the error
    middleware: the request fails. *)
Lemma advancedSearch_propagates env q w e :
  elastic env (es_calls w) (Advanced.search_call q) = Throws e ->
  fst (advancedSearch env q w) = fst (errorHandler env e w).
Proof.
  intros H. unfold advancedSearch, es_call. now rewrite H.
Qed.




(* ------------------------------------------------------------------ *)
(** ** What the index is told, and what its failures change             *)
(* ------------------------------------------------------------------ *)

Lemma es_try_calls env c m w : es_calls (es_try env c m w) = es_calls w ++ [c].
Proof. unfold es_try, es_call. now destruct (elastic env (es_calls w) c). Qed.

Lemma es_try_logs env c m w :
  match elastic env (es_calls w) c with
  | Resolves _ => logs (es_try env c m w) = logs w
  | Throws e => logs (es_try env c m w) = logs w ++ [(LWarn, (m ++ message e)%string)]
  end.
Proof. unfold es_try, es_call. now destruct (elastic env (es_calls w) c). Qed.

(** C6, as the code has it. A move that succeeds attempts exactly one
    write to the index, the update of the moved category itself with its
    new parent; a move that is refused attempts none and leaves the world
    as it was. The repair walk writes to the collection only: the
    descendants it repairs are not sent to the index (whose documents do
    not hold the [ancestors]). *)
Theorem move_writes_one_index_document fuel env ctx id np w r w' :
  moveCategory fuel env ctx id np w = Some (r, w') ->
  (succeeded r = true
   /\ exists saved,
        r = success 200 (category_json saved)
        /\ _id saved = id
        /\ es_calls w'
           = es_calls w ++ [UpdateDocument (categories_index env) id (moved_doc saved)])
  \/ (succeeded r = false /\ w' = w).
Proof.
  unfold moveCategory, move_commit.
  assert (K : forall category p a,
            _id category = id ->
            match updateSubcategoryAncestors fuel (now ctx) (_id category) a
                    (save_moved (now ctx) (_id category) p a (categories w))
            with
            | Some s2 =>
                Some (success 200 (category_json
                        (with_updatedAt (now ctx)
                           (with_ancestors a (with_parent p category)))),
                      es_try env
                        (UpdateDocument (categories_index env) (_id category)
                           (moved_doc (with_updatedAt (now ctx)
                              (with_ancestors a (with_parent p category)))))
                        "Failed to update moved category in Elasticsearch: "
                        (with_categories s2 w))
            | None => None
            end = Some (r, w') ->
            (succeeded r = true
             /\ exists saved,
                  r = success 200 (category_json saved)
                  /\ _id saved = id
                  /\ es_calls w'
                     = es_calls w
                       ++ [UpdateDocument (categories_index env) id (moved_doc saved)])
            \/ (succeeded r = false /\ w' = w)).
  { intros category p a Hid.
    destruct (updateSubcategoryAncestors _ _ _ _ _) as [s2|]; [|discriminate].
    intros H. inversion H; subst. left. split; [reflexivity|].
    eexists. split; [reflexivity|]. split; [reflexivity|].
    now rewrite es_try_calls. }
  destruct (negb (is_admin ctx)); [intros H; inversion H; subst; now right|].
  destruct (findById id (categories w)) as [category|] eqn:Ec;
    [|intros H; inversion H; subst; now right].
  destruct (findById_In _ _ _ Ec) as [_ Hid].
  destruct np as [|np]; [now apply K|].
  destruct (findById np (categories w)) as [newParent|];
    [|intros H; inversion H; subst; now right].
  destruct (includes _ _ || _); [intros H; inversion H; subst; now right|].
  now apply K.
Qed.

Lemma move_writes_one_index_document_witness :
  (succeeded (success 200 (category_json
      (mkCategory 1 "B" None "b" None [] 0%Z true (Some 1000) 2%Z 4%Z))) = true
   /\ exists saved,
        success 200 (category_json
          (mkCategory 1 "B" None "b" None [] 0%Z true (Some 1000) 2%Z 4%Z))
        = success 200 (category_json saved)
        /\ _id saved = 1
        /\ es_calls (world_after (three_levels ++ [(admin_at 4, Move 1 Root)]))
           = es_calls (world_after three_levels)
             ++ [UpdateDocument (categories_index (env_with index_up)) 1
                   (moved_doc saved)])
  \/ (succeeded (success 200 (category_json
        (mkCategory 1 "B" None "b" None [] 0%Z true (Some 1000) 2%Z 4%Z))) = false
      /\ world_after (three_levels ++ [(admin_at 4, Move 1 Root)])
         = world_after three_levels).
Proof.
  apply (move_writes_one_index_document 3 (env_with index_up) (admin_at 4) 1 Root
           (world_after three_levels)).
  vm_compute. reflexivity.
Defined.

(** The claim C6 as stated fails: when B (id 1) of [three_levels] moves to
    the root, the walk repairs C (id 2), whose path goes from [0; 1] to
    [1], and the index receives the update of B alone. *)
Lemma repaired_descendant_is_not_indexed :
  option_map ancestors (findById 2 (categories (world_after three_levels)))
  = Some [0; 1]
  /\ option_map ancestors
       (findById 2 (categories
                      (world_after (three_levels ++ [(admin_at 4, Move 1 Root)]))))
     = Some [1]
  /\ es_calls (world_after (three_levels ++ [(admin_at 4, Move 1 Root)]))
     = es_calls (world_after three_levels)
       ++ [UpdateDocument (Some "categories") 1
             (JObj [("parent", JNull); ("updatedAt", JNum 4)])].
Proof. repeat split; vm_compute; reflexivity. Qed.

(* ------------------------------------------------------------------ *)
(** ** Best-effort propagation                                          *)
(* ------------------------------------------------------------------ *)


Ltac primary :=
  simpl; rewrite ?es_try_categories, ?es_try_next_oid; simpl; auto.

Lemma createCategory_index_free env index' ctx body w :
  same_primary (Some (createCategory env ctx body w))
    (Some (createCategory (with_elastic index' env) ctx body w)).
Proof.
  unfold createCategory, Category_create, createCategory_failed.
  destruct (p_name body); [|primary].
  destruct (findOneByName _ _); [primary|].
  destruct (truthy_parent _); [destruct (findById _ _); [|primary]|];
    cbv zeta;
    (destruct (negb (Str.truthy _)); [primary|]);
    (destruct (negb (unique_ok _ _)); primary).
Qed.

Lemma updateCategory_index_free env index' ctx id body w :
  same_primary (Some (updateCategory env ctx id body w))
    (Some (updateCategory (with_elastic index' env) ctx id body w)).
Proof.
  unfold updateCategory, updateCategory_failed.
  destruct (findById _ _); [|primary].
  destruct (negb (is_admin ctx)); [primary|].
  cbv zeta. destruct (_ && _); [primary|].
  destruct (match p_name body with Some _ => _ | None => false end); [primary|].
  destruct (negb (unique_ok _ _)); primary.
Qed.

Lemma deleteCategory_index_free env index' ctx id w :
  same_primary (Some (deleteCategory env ctx id w))
    (Some (deleteCategory (with_elastic index' env) ctx id w)).
Proof.
  unfold deleteCategory.
  destruct (findById _ _); [|primary].
  destruct (negb (is_admin ctx)); [primary|].
  destruct (existsByParent _ _); [primary|].
  destruct (_ >? _)%Z; [primary|].
  simpl. destruct (negb (document_remove env)); primary.
Qed.

Lemma moveCategory_index_free fuel env index' ctx id np w :
  same_primary (moveCategory fuel env ctx id np w)
    (moveCategory fuel (with_elastic index' env) ctx id np w).
Proof.
  unfold moveCategory, move_commit.
  destruct (negb (is_admin ctx)); [primary|].
  destruct (findById id _); [|primary].
  destruct np as [|np].
  - destruct (updateSubcategoryAncestors _ _ _ _ _); primary.
  - destruct (findById np _); [|primary].
    destruct (includes _ _ || _); [primary|].
    destruct (updateSubcategoryAncestors _ _ _ _ _); primary.
Qed.


Lemma es_try_attempt env w wp r call m :
  succeeded r = true -> es_calls wp = es_calls w -> logs wp = logs w ->
  index_attempt env w r (es_try env call m wp).
Proof.
  intros Hr Hc Hl. right. split; [exact Hr|]. exists call, m.
  rewrite es_try_calls, Hc. split; [reflexivity|].
  pose proof (es_try_logs env call m wp) as K. rewrite Hc, Hl in K. exact K.
Qed.

Lemma createCategory_attempt env ctx body w :
  index_attempt env w (fst (createCategory env ctx body w))
    (snd (createCategory env ctx body w)).
Proof.
  unfold createCategory, Category_create, createCategory_failed.
  destruct (p_name body); [|now left].
  destruct (findOneByName _ _); [now left|].
  destruct (truthy_parent _); [destruct (findById _ _); [|now left]|];
    cbv zeta;
    (destruct (negb (Str.truthy _)); [now left|]);
    (destruct (negb (unique_ok _ _)); [now left|]);
    now apply es_try_attempt.
Qed.

Lemma updateCategory_attempt env ctx id body w :
  index_attempt env w (fst (updateCategory env ctx id body w))
    (snd (updateCategory env ctx id body w)).
Proof.
  unfold updateCategory, updateCategory_failed.
  destruct (findById _ _); [|now left].
  destruct (negb (is_admin ctx)); [now left|].
  cbv zeta. destruct (_ && _); [now left|].
  destruct (match p_name body with Some _ => _ | None => false end); [now left|].
  destruct (negb (unique_ok _ _)); [now left|].
  now apply es_try_attempt.
Qed.

Lemma deleteCategory_attempt env ctx id w :
  index_attempt env w (fst (deleteCategory env ctx id w))
    (snd (deleteCategory env ctx id w)).
Proof.
  unfold deleteCategory.
  destruct (findById _ _); [|now left].
  destruct (negb (is_admin ctx)); [now left|].
  destruct (existsByParent _ _); [now left|].
  destruct (_ >? _)%Z; [now left|].
  destruct (negb (document_remove env)); [now left|].
  now apply es_try_attempt.
Qed.

Lemma moveCategory_attempt fuel env ctx id np w r w1 :
  moveCategory fuel env ctx id np w = Some (r, w1) -> index_attempt env w r w1.
Proof.
  unfold moveCategory, move_commit.
  destruct (negb (is_admin ctx)); [intros H; inversion H; now left|].
  destruct (findById id _); [|intros H; inversion H; now left].
  destruct np as [|np].
  - destruct (updateSubcategoryAncestors _ _ _ _ _); [|discriminate].
    intros H; inversion H. now apply es_try_attempt.
  - destruct (findById np _); [|intros H; inversion H; now left].
    destruct (includes _ _ || _); [intros H; inversion H; now left|].
    destruct (updateSubcategoryAncestors _ _ _ _ _); [|discriminate].
    intros H; inversion H. now apply es_try_attempt.
Qed.

Lemma findById_app_fresh s c :
  (forall d, In d s -> _id d <> _id c) -> findById (_id c) (s ++ [c]) = Some c.
Proof.
  unfold findById. induction s as [|d s IH]; simpl; intros H.
  - now rewrite Nat.eqb_refl.
  - pose proof (H d (or_introl eq_refl)) as Hd. apply Nat.eqb_neq in Hd.
    rewrite Hd. apply IH. intros x Hx. apply H. now right.
Qed.

Lemma createCategory_visible env ctx body w :
  wf w -> succeeded (fst (createCategory env ctx body w)) = true ->
  visible (Create body) (fst (createCategory env ctx body w))
    (snd (createCategory env ctx body w)).
Proof.
  intros W Hs.
  destruct (createCategory_created env ctx body w)
    as [_ _ Hf|c nm E1 _ Er _ _ Hc _ _]; [congruence|].
  exists c. split; [exact Er|]. rewrite E1. apply findById_app_fresh.
  intros d Hd. pose proof (wf_fresh w W d Hd). rewrite Hc. simpl. lia.
Qed.

Lemma updateCategory_visible env ctx id body w :
  succeeded (fst (updateCategory env ctx id body w)) = true ->
  visible (Update id body) (fst (updateCategory env ctx id body w))
    (snd (updateCategory env ctx id body w)).
Proof.
  unfold updateCategory, updateCategory_failed.
  destruct (findById _ _) as [category|] eqn:Ec; [|discriminate].
  destruct (negb (is_admin ctx)); [discriminate|].
  cbv zeta. destruct (_ && _); [discriminate|].
  destruct (match p_name body with Some _ => _ | None => false end);
    [discriminate|].
  destruct (negb (unique_ok _ _)); [discriminate|].
  intros _. simpl. eexists. split; [reflexivity|].
  rewrite es_try_categories. simpl.
  rewrite findById_updateOne by (now intros []).
  now rewrite Nat.eqb_refl, Ec.
Qed.

Lemma deleteCategory_visible env ctx id w :
  succeeded (fst (deleteCategory env ctx id w)) = true ->
  visible (Delete id) (fst (deleteCategory env ctx id w))
    (snd (deleteCategory env ctx id w)).
Proof.
  unfold deleteCategory.
  destruct (findById _ _) as [category|] eqn:Ec; [|discriminate].
  destruct (negb (is_admin ctx)); [discriminate|].
  destruct (existsByParent _ _); [discriminate|].
  destruct (_ >? _)%Z; [discriminate|].
  destruct (negb (document_remove env)); [discriminate|].
  intros _. simpl. rewrite es_try_categories. simpl.
  destruct (findById_In _ _ _ Ec) as [_ ->].
  apply findById_gone, deleteOne_gone.
Qed.

Lemma moveCategory_visible fuel env ctx id np w r w1 :
  wf w -> moveCategory fuel env ctx id np w = Some (r, w1) ->
  succeeded r = true -> visible (Move id np) r w1.
Proof.
  intros W. unfold moveCategory.
  assert (K : forall category p a,
            findById (_id category) (categories w) = Some category ->
            move_allowed (categories w) (_id category) p a ->
            move_commit fuel env ctx category p a w = Some (r, w1) ->
            visible (Move (_id category) np) r w1).
  { intros category p a Hc Ha. unfold move_commit.
    destruct (updateSubcategoryAncestors _ _ _ _ _) as [s2|] eqn:E;
      [|discriminate].
    intros H. inversion H; subst. eexists. split; [reflexivity|].
    rewrite es_try_categories. simpl.
    eapply move_repair_keeps_moved; eauto. apply W. }
  destruct (negb (is_admin ctx)); [intros H; inversion H; subst; discriminate|].
  destruct (findById id (categories w)) as [category|] eqn:Ec;
    [|intros H; inversion H; subst; discriminate].
  destruct (findById_In _ _ _ Ec) as [_ Hid]. subst id.
  destruct np as [|np]; [intros H _; now apply (K category None [])|].
  destruct (findById np (categories w)) as [newParent|] eqn:Ep;
    [|intros H; inversion H; subst; discriminate].
  destruct (includes _ _ || _) eqn:Ecy;
    [intros H; inversion H; subst; discriminate|].
  intros H _. apply (K category (Some np) (ancestors newParent ++ [np])); auto.
  now apply move_checks_allowed.
Qed.



(* ------------------------------------------------------------------ *)
(** ** Uniqueness of names                                              *)
(* ------------------------------------------------------------------ *)

Lemma findOneByName_In n s d :
  In d s -> name d = n -> exists c, findOneByName n s = Some c.
Proof.
  intros Hd Hn. unfold findOneByName.
  destruct (find _ s) as [c|] eqn:E; [eauto|].
  pose proof (find_none _ _ E d Hd) as K. simpl in K.
  rewrite Hn, String.eqb_refl in K. discriminate.
Qed.




(* ------------------------------------------------------------------ *)
(** ** What an update may write                                         *)
(* ------------------------------------------------------------------ *)

(** C9, as the code has it. [createCategory] reads name, description and
    parent only: its result does not depend on the [resourceCount] of the
    body, and the document it inserts has resourceCount 0.
    [updateCategory] writes the whole body: after an update that succeeds
    the stored resourceCount is the one of the body when the body has one,
    and is unchanged otherwise. *)
Theorem resourceCount_after_create_and_update env ctx w pl :
  (forall z, createCategory env ctx (with_resourceCount z pl) w
             = createCategory env ctx pl w)
  /\ (categories (snd (createCategory env ctx pl w)) = categories w
      \/ exists c,
           categories (snd (createCategory env ctx pl w)) = categories w ++ [c]
           /\ resourceCount c = 0%Z)
  /\ (forall id c,
        findById id (categories w) = Some c ->
        succeeded (fst (updateCategory env ctx id pl w)) = true ->
        option_map resourceCount
          (findById id (categories (snd (updateCategory env ctx id pl w))))
        = Some (set_opt (p_resourceCount pl) (resourceCount c))).
Proof.
  split; [|split].
  - intros z. reflexivity.
  - destruct (createCategory_created env ctx pl w)
      as [E _ _|c nm E _ _ _ _ Hc _ _]; [now left|right].
    exists c. split; [exact E|]. now rewrite Hc.
  - intros id c Hc. unfold updateCategory, updateCategory_failed. rewrite Hc.
    destruct (negb (is_admin ctx)); [discriminate|].
    cbv zeta. destruct (_ && _); [discriminate|].
    destruct (match p_name pl with Some _ => _ | None => false end);
      [discriminate|].
    destruct (negb (unique_ok _ _)); [discriminate|].
    intros _. simpl. rewrite es_try_categories. simpl.
    rewrite findById_updateOne by (now intros []).
    now rewrite Nat.eqb_refl, Hc.
Qed.

(** The claim C9 as stated fails for the update: the stored counter of A
    follows the [resourceCount] of the body. *)
Lemma update_sets_resourceCount :
  option_map resourceCount (findById 0 (categories (world_after three_levels)))
  = Some 0%Z
  /\ option_map resourceCount
       (findById 0
          (categories
             (snd (updateCategory (env_with index_up) (admin_at 9) 0
                     (count_only 5) (world_after three_levels)))))
     = Some 5%Z
  /\ option_map resourceCount
       (findById 0
          (categories
             (snd (updateCategory (env_with index_up) (admin_at 9) 0
                     (count_only 7) (world_after three_levels)))))
     = Some 7%Z.
Proof. repeat split; vm_compute; reflexivity. Qed.

(** The guard of [updateCategory] on the parent: a body whose parent is an
    id is written without it. *)
Lemma update_discards_a_parent_id env ctx id pl w c x :
  findById id (categories w) = Some c ->
  p_parent pl = Some (Some x) ->
  succeeded (fst (updateCategory env ctx id pl w)) = true ->
  option_map parent
    (findById id (categories (snd (updateCategory env ctx id pl w))))
  = Some (parent c).
Proof.
  intros Hc Hp. unfold updateCategory, updateCategory_failed. rewrite Hc, Hp.
  destruct (negb (is_admin ctx)); [discriminate|].
  cbv zeta. destruct (_ && _); [discriminate|].
  destruct (match p_name pl with Some _ => _ | None => false end);
    [discriminate|].
  destruct (negb (unique_ok _ _)); [discriminate|].
  intros _. simpl. rewrite es_try_categories. simpl.
  rewrite findById_updateOne by (now intros []).
  now rewrite Nat.eqb_refl, Hc.
Qed.

(** C10 at its failing input. B (id 1) of [three_levels] has the parent A
    (id 0). The admin's update of B with the body [{ "parent": null }]
    succeeds; the guard [if (req.body.parent)] lets the [null] through, so
    the stored parent of B becomes [null] while its [ancestors] stay [0]:
    the parent has changed through the update, and the path no longer
    follows the parent links. *)
Theorem update_with_null_parent_changes_the_parent :
  option_map parent (findById 1 (categories (world_after three_levels)))
  = Some (Some 0)
  /\ status (fst (updateCategory (env_with index_up) (admin_at 9) 1 null_parent
                    (world_after three_levels))) = 200
  /\ option_map (fun c => (parent c, ancestors c))
       (findById 1
          (categories
             (snd (updateCategory (env_with index_up) (admin_at 9) 1 null_parent
                     (world_after three_levels)))))
     = Some (None, [0]).
Proof. repeat split; vm_compute; reflexivity. Qed.

(* ================================================================== *)
(** * Further properties of the code                                    *)
(* ================================================================== *)

(* ------------------------------------------------------------------ *)
(** ** The slug of the pre-save hook and the trimming of names          *)
(* ------------------------------------------------------------------ *)

Ltac each_ascii c :=
  destruct c as [[] [] [] [] [] [] [] []]; vm_compute; try reflexivity;
  try discriminate; auto.

Lemma lower_word_is_slug_char c :
  Str.is_word_or_dash (Str.lower c) = true -> is_slug_char (Str.lower c) = true.
Proof. each_ascii c. Qed.

Lemma slug_char_facts c :
  is_slug_char c = true ->
  Str.is_space c = false /\ Str.lower c = c /\ Str.is_word_or_dash c = true.
Proof. each_ascii c. Qed.

Lemma dash_spaces_from_In b l c :
  In c (Str.dash_spaces_from b l) -> c = "-"%char \/ In c l.
Proof.
  revert b. induction l as [|d l IH]; simpl; intros b H; [tauto|].
  destruct (Str.is_space d).
  - destruct b; [|destruct H as [H|H]; [now left|]];
      (destruct (IH _ H); [now left|right; now right]).
  - destruct H as [H|H]; [right; now left|].
    destruct (IH _ H); [now left|right; now right].
Qed.

Lemma slug_chars name :
  Forall (fun c => is_slug_char c = true)
    (Str.keep_word
       (Str.dash_spaces
          (map Str.lower (Str.trim_chars (list_ascii_of_string name))))).
Proof.
  apply Forall_forall. intros c H. unfold Str.keep_word in H.
  apply filter_In in H. destruct H as [H Hw].
  apply dash_spaces_from_In in H. destruct H as [->|H]; [reflexivity|].
  apply in_map_iff in H. destruct H as [c' [<- _]].
  now apply lower_word_is_slug_char.
Qed.

Lemma drop_spaces_none l :
  Forall (fun c => Str.is_space c = false) l -> Str.drop_spaces l = l.
Proof.
  destruct l as [|c l]; simpl; [reflexivity|].
  intros H. inversion H; subst. now rewrite H2.
Qed.

Lemma trim_chars_none l :
  Forall (fun c => Str.is_space c = false) l -> Str.trim_chars l = l.
Proof.
  intros H. unfold Str.trim_chars. rewrite (drop_spaces_none l H).
  rewrite drop_spaces_none; [apply rev_involutive|].
  apply Forall_forall. intros c Hc. apply in_rev in Hc.
  revert c Hc. now apply Forall_forall.
Qed.

Lemma dash_spaces_none l :
  Forall (fun c => Str.is_space c = false) l ->
  Str.dash_spaces_from false l = l.
Proof.
  induction 1 as [|c l Hc _ IH]; simpl; [reflexivity|].
  now rewrite Hc, IH.
Qed.

Lemma slug_of_slug_chars l :
  Forall (fun c => is_slug_char c = true) l ->
  slugify (string_of_list_ascii l) = string_of_list_ascii l.
Proof.
  intros H. unfold slugify. rewrite list_ascii_of_string_of_list_ascii.
  assert (Hs : Forall (fun c => Str.is_space c = false) l).
  { eapply Forall_impl; [|exact H]. intros c Hc.
    now destruct (slug_char_facts c Hc). }
  rewrite (trim_chars_none l Hs).
  assert (Hl : map Str.lower l = l).
  { clear Hs. induction H as [|c l Hc _ IH]; simpl; [reflexivity|].
    destruct (slug_char_facts c Hc) as [_ [-> _]]. now rewrite IH. }
  rewrite Hl. unfold Str.dash_spaces. rewrite (dash_spaces_none l Hs).
  f_equal. unfold Str.keep_word. clear Hs Hl.
  induction H as [|c l Hc _ IH]; simpl; [reflexivity|].
  destruct (slug_char_facts c Hc) as [_ [_ ->]]. now rewrite IH.
Qed.


Lemma drop_spaces_head l :
  match Str.drop_spaces l with
  | c :: _ => Str.is_space c = false
  | [] => True
  end.
Proof.
  induction l as [|c l IH]; simpl; [exact I|].
  destruct (Str.is_space c) eqn:E; [exact IH|exact E].
Qed.

Lemma drop_spaces_fixed l :
  match l with c :: _ => Str.is_space c = false | [] => True end ->
  Str.drop_spaces l = l.
Proof. destruct l as [|c l]; simpl; [reflexivity|]. now intros ->. Qed.

Lemma drop_spaces_suffix l : exists pre, l = pre ++ Str.drop_spaces l.
Proof.
  induction l as [|c l [pre IH]]; simpl; [now exists []|].
  destruct (Str.is_space c).
  - exists (c :: pre). simpl. now rewrite <- IH.
  - now exists [].
Qed.

Lemma trim_chars_ends l :
  match Str.trim_chars l with
  | [] => True
  | c :: r => Str.is_space c = false /\ Str.is_space (last r c) = false
  end.
Proof.
  unfold Str.trim_chars.
  set (l1 := Str.drop_spaces l).
  pose proof (drop_spaces_head l) as H1. fold l1 in H1.
  pose proof (drop_spaces_head (rev l1)) as H3.
  destruct (drop_spaces_suffix (rev l1)) as [pre Hpre].
  set (l3 := Str.drop_spaces (rev l1)) in *.
  assert (E : l1 = rev l3 ++ rev pre).
  { rewrite <- rev_app_distr, <- Hpre. symmetry. apply rev_involutive. }
  destruct l3 as [|d l3']; [exact I|].
  simpl. destruct (rev l3' ++ [d]) as [|c r] eqn:Er.
  - destruct (rev l3'); discriminate.
  - split.
    + simpl in E. rewrite Er in E. simpl in E. rewrite E in H1. exact H1.
    + assert (L : last (c :: r) c = d).
      { rewrite <- Er. apply last_last. }
      destruct r as [|c2 r'].
      * simpl in L. simpl. now subst.
      * change (last (c :: c2 :: r') c) with (last (c2 :: r') c) in L.
        now rewrite L.
Qed.

Lemma trim_chars_fixed l :
  match l with
  | [] => True
  | c :: r => Str.is_space c = false /\ Str.is_space (last r c) = false
  end ->
  Str.trim_chars l = l.
Proof.
  intros H. unfold Str.trim_chars.
  destruct l as [|c r]; [reflexivity|]. destruct H as [H1 H2].
  rewrite (drop_spaces_fixed (c :: r) H1).
  rewrite drop_spaces_fixed; [apply rev_involutive|].
  destruct (rev (c :: r)) as [|d t] eqn:E; [exact I|].
  assert (L : last (c :: r) c = d).
  { apply (f_equal (@rev _)) in E. rewrite rev_involutive in E.
    rewrite E. simpl. apply last_last. }
  destruct r as [|c2 r'].
  - simpl in L. now subst.
  - change (last (c :: c2 :: r') c) with (last (c2 :: r') c) in L.
    now rewrite <- L.
Qed.

Lemma trim_ends s : trimmed (Str.trim s).
Proof.
  unfold trimmed, Str.trim. rewrite list_ascii_of_string_of_list_ascii.
  apply trim_chars_ends.
Qed.

Lemma trim_fixed s : trimmed s -> Str.trim s = s.
Proof.
  intros Ht. unfold Str.trim. rewrite trim_chars_fixed by exact Ht.
  apply string_of_list_ascii_of_string.
Qed.

Lemma trim_trim s : Str.trim (Str.trim s) = Str.trim s.
Proof. apply trim_fixed, trim_ends. Qed.

Lemma slugify_trim s : slugify (Str.trim s) = slugify s.
Proof.
  unfold slugify. f_equal. f_equal. f_equal. f_equal.
  change (Str.trim_chars (list_ascii_of_string (Str.trim s))
          = Str.trim_chars (list_ascii_of_string s)).
  unfold Str.trim. rewrite list_ascii_of_string_of_list_ascii.
  apply trim_chars_fixed, trim_chars_ends.
Qed.


(* ------------------------------------------------------------------ *)
(** ** createCategory: what it stores                                   *)
(* ------------------------------------------------------------------ *)



(* ------------------------------------------------------------------ *)
(** ** Reading back what was written                                    *)
(* ------------------------------------------------------------------ *)

(** X4. In a well-formed world, right after a mutation that succeeded,
    [getCategory] shows it: after a create it answers 200 with the
    document the create answered with; after an update or a move it gives
    the very answer of the update or move; after a delete it answers 404. *)
Theorem read_after_write fuel env ctx c w r w1 :
  wf w ->
  handle fuel env ctx c w = Some (r, w1) ->
  succeeded r = true ->
  read_back c r w1.
Proof.
  intros W H Hs.
  assert (V : visible c r w1).
  { destruct c as [pl|id pl|id|id np]; simpl in H.
    - inversion H as [E].
      pose proof (createCategory_visible env ctx pl w W) as K.
      rewrite E in K. now apply K.
    - inversion H as [E].
      pose proof (updateCategory_visible env ctx id pl w) as K.
      rewrite E in K. now apply K.
    - inversion H as [E].
      pose proof (deleteCategory_visible env ctx id w) as K.
      rewrite E in K. now apply K.
    - eapply moveCategory_visible; eauto. }
  destruct c as [pl|id pl|id|id np]; simpl in V |- *; unfold getCategory.
  - destruct V as [cat [E F]]. exists cat. now rewrite F.
  - destruct V as [cat [E F]]. exists cat. now rewrite F.
  - now rewrite V.
  - destruct V as [cat [E F]]. exists cat. now rewrite F.
Qed.

Lemma read_after_write_witness :
  read_back (Move 1 Root)
    (success 200 (category_json
       (mkCategory 1 "B" None "b" None [] 0%Z true (Some 1000) 2%Z 4%Z)))
    (world_after (three_levels ++ [(admin_at 4, Move 1 Root)])).
Proof.
  apply (read_after_write 3 (env_with index_up) (admin_at 4) (Move 1 Root)
           (world_after three_levels)).
  - apply world_after_wf. repeat constructor.
  - vm_compute. reflexivity.
  - reflexivity.
Defined.

(* ------------------------------------------------------------------ *)
(** ** getSubcategories                                                 *)
(* ------------------------------------------------------------------ *)

Lemma findByParent_app p s t :
  findByParent p (s ++ t) = findByParent p s ++ findByParent p t.
Proof. unfold findByParent. apply filter_app. Qed.

(** X5. When the sort of MongoDB permutes what it sorts, [getSubcategories]
    lists exactly the documents whose parent is the given id and counts
    them; and a create that succeeds makes the list of its parent one
    longer and leaves the length of every other list as it was. *)
Theorem subcategories_are_the_children env id w :
  (forall l, Permutation (mongo_sort env "name" false l) l) ->
  (forall c, In c (subcategories_of env id w)
             <-> In c (categories w) /\ parent c = Some id)
  /\ getSubcategories env id w
     = listing (JNum (Z.of_nat (List.length (findByParent id (categories w)))))
         (JArr (map category_json (subcategories_of env id w)))
  /\ (forall ctx pl,
        succeeded (fst (createCategory env ctx pl w)) = true ->
        List.length (subcategories_of env id (snd (createCategory env ctx pl w)))
        = List.length (subcategories_of env id w)
          + match truthy_parent (p_parent pl) with
            | Some p => if p =? id then 1 else 0
            | None => 0
            end).
Proof.
  intros Hsort. unfold getSubcategories, subcategories_of. split; [|split].
  - intros c. rewrite <- findByParent_In. split; intros H.
    + eapply Permutation_in; [apply Hsort|exact H].
    + eapply Permutation_in; [apply Permutation_sym, Hsort|exact H].
  - now rewrite (Permutation_length (Hsort _)).
  - intros ctx pl Hs. rewrite !(Permutation_length (Hsort _)).
    destruct (createCategory_created env ctx pl w)
      as [_ _ Hf|c nm E1 _ _ _ _ _ Hp _]; [congruence|].
    rewrite E1, findByParent_app, length_app. f_equal.
    simpl. unfold parent_is. rewrite Hp.
    destruct (truthy_parent (p_parent pl)) as [p|]; [|reflexivity].
    now destruct (p =? id).
Qed.

Lemma subcategories_are_the_children_witness :
  getSubcategories (env_with index_up) 0 (world_after three_levels)
  = listing (JNum 1)
      (JArr [category_json
               (mkCategory 1 "B" None "b" (Some 0) [0] 0%Z true (Some 1000)
                  2%Z 2%Z)]).
Proof.
  destruct (subcategories_are_the_children (env_with index_up) 0
              (world_after three_levels)) as [_ [H _]].
  - intros l. apply Permutation_refl.
  - rewrite H. vm_compute. reflexivity.
Defined.

(* ------------------------------------------------------------------ *)
(** ** moveCategory: what it writes and what it leaves alone            *)
(* ------------------------------------------------------------------ *)

(** The shape of a move that was not refused. *)
Lemma move_commit_success fuel env ctx category p a w r w1 :
  move_commit fuel env ctx category p a w = Some (r, w1) ->
  updateSubcategoryAncestors fuel (now ctx) (_id category) a
    (save_moved (now ctx) (_id category) p a (categories w))
  = Some (categories w1)
  /\ next_oid w1 = next_oid w /\ succeeded r = true.
Proof.
  unfold move_commit.
  destruct (updateSubcategoryAncestors _ _ _ _ _) as [s2|]; [|discriminate].
  intros H. inversion H; subst.
  rewrite es_try_categories, es_try_next_oid. simpl. auto.
Qed.

Lemma moveCategory_cases fuel env ctx id np w r w1 :
  moveCategory fuel env ctx id np w = Some (r, w1) ->
  (succeeded r = false /\ w1 = w)
  \/ (succeeded r = true
      /\ next_oid w1 = next_oid w
      /\ exists category,
           findById id (categories w) = Some category
           /\ is_admin ctx = true
           /\ move_allowed (categories w) id (fst (target_of (categories w) np))
                (snd (target_of (categories w) np))
           /\ updateSubcategoryAncestors fuel (now ctx) id
                (snd (target_of (categories w) np))
                (save_moved (now ctx) id (fst (target_of (categories w) np))
                   (snd (target_of (categories w) np)) (categories w))
              = Some (categories w1)).
Proof.
  unfold moveCategory.
  destruct (is_admin ctx) eqn:Ea; cbn [negb];
    [|intros H; inversion H; subst; left; split; reflexivity].
  destruct (findById id (categories w)) as [category|] eqn:Ec;
    [|intros H; inversion H; subst; left; split; reflexivity].
  destruct (findById_In _ _ _ Ec) as [_ Hid].
  destruct np as [|n]; unfold target_of; cbn [fst snd].
  - intros H. apply move_commit_success in H. rewrite Hid in H.
    destruct H as [H1 [H2 H3]]. right. repeat split; auto.
    exists category. repeat split; auto.
  - destruct (findById n (categories w)) as [newParent|] eqn:En;
      [|intros H; inversion H; subst; left; split; reflexivity].
    destruct (includes _ _ || _) eqn:Ecy;
      [intros H; inversion H; subst; left; split; reflexivity|].
    intros H. apply move_commit_success in H. rewrite Hid in H.
    destruct H as [H1 [H2 H3]]. right. repeat split; auto.
    exists category. repeat split; auto. now apply move_checks_allowed.
Qed.

Lemma moveCategory_success fuel env ctx id np w r w1 :
  moveCategory fuel env ctx id np w = Some (r, w1) ->
  succeeded r = true ->
  exists category,
    findById id (categories w) = Some category
    /\ is_admin ctx = true
    /\ move_allowed (categories w) id (fst (target_of (categories w) np))
         (snd (target_of (categories w) np))
    /\ updateSubcategoryAncestors fuel (now ctx) id
         (snd (target_of (categories w) np))
         (save_moved (now ctx) id (fst (target_of (categories w) np))
            (snd (target_of (categories w) np)) (categories w))
       = Some (categories w1).
Proof.
  intros H Hs. destruct (moveCategory_cases _ _ _ _ _ _ _ _ H) as [[K _]|[_ [_ K]]].
  - congruence.
  - exact K.
Qed.

(** X6. In a well-formed world, after a move that succeeded the stored
    category is the old one with the requested parent, the path of that
    parent followed by the parent (no parent and the empty path for a move
    to the root) and the time of the request as [updatedAt]; nothing else
    of it has changed, and the new parent is stored as it was. *)
Theorem move_sets_parent_and_path fuel env ctx id np w r w1 :
  wf w ->
  moveCategory fuel env ctx id np w = Some (r, w1) ->
  succeeded r = true ->
  exists old,
    findById id (categories w) = Some old
    /\ findById id (categories w1)
       = Some (with_updatedAt (now ctx)
                 (with_ancestors (snd (target_of (categories w) np))
                    (with_parent (fst (target_of (categories w) np)) old)))
    /\ match np with
       | Root => True
       | Under n =>
           exists newParent,
             findById n (categories w) = Some newParent
             /\ findById n (categories w1) = Some newParent
       end.
Proof.
  intros W H Hs.
  destruct (moveCategory_success _ _ _ _ _ _ _ _ H Hs) as [old [Ho [_ [Ha E]]]].
  exists old. split; [exact Ho|]. split.
  - eapply move_repair_keeps_moved; eauto. apply W.
  - destruct np as [|n]; [exact I|]. simpl in Ha, E.
    destruct (findById n (categories w)) as [newParent|] eqn:En.
    + exists newParent. split; [reflexivity|].
      destruct Ha as [pc [H1 [H2 [H3 H4]]]]. inversion H1; subst pc.
      rewrite (move_repair_outside (now ctx) (categories w) id old (Some n)
                 (ancestors newParent ++ [n]) (wf_tree w W) Ho
                 ltac:(exists newParent; auto) fuel (categories w1) n E).
      * now rewrite moved_findById_other.
      * unfold subtree_rank. rewrite En, H3.
        apply Nat.eqb_neq in H4. now rewrite H4.
    + destruct Ha as [pc [H1 _]]. discriminate.
Qed.

Lemma move_sets_parent_and_path_witness :
  exists old,
    findById 2 (categories (world_after three_levels)) = Some old
    /\ findById 2 (categories
                     (world_after (three_levels ++ [(admin_at 4, Move 2 (Under 0))])))
       = Some (with_updatedAt (now (admin_at 4))
                 (with_ancestors
                    (snd (target_of (categories (world_after three_levels)) (Under 0)))
                    (with_parent
                       (fst (target_of (categories (world_after three_levels))
                               (Under 0))) old)))
    /\ exists newParent,
         findById 0 (categories (world_after three_levels)) = Some newParent
         /\ findById 0 (categories
                          (world_after (three_levels
                                        ++ [(admin_at 4, Move 2 (Under 0))])))
            = Some newParent.
Proof.
  apply (move_sets_parent_and_path 3 (env_with index_up) (admin_at 4) 2 (Under 0)
           (world_after three_levels)
           (success 200 (category_json
              (mkCategory 2 "C" None "c" (Some 0) [0] 0%Z true (Some 1000)
                 3%Z 4%Z)))).
  - apply world_after_wf. repeat constructor.
  - vm_compute. reflexivity.
  - reflexivity.
Defined.

(** X7. In a well-formed world, a move that succeeded leaves every
    document outside the moved subtree exactly as it was, time stamp
    included: a document that is not the moved category and whose path
    does not hold the moved category reads the same before and after. *)
Theorem move_leaves_other_subtrees_alone fuel env ctx id np w r w1 :
  wf w ->
  moveCategory fuel env ctx id np w = Some (r, w1) ->
  succeeded r = true ->
  forall i c,
    findById i (categories w) = Some c ->
    i <> id ->
    includes id (ancestors c) = false ->
    findById i (categories w1) = Some c.
Proof.
  intros W H Hs i c Hc Hne Hout.
  destruct (moveCategory_success _ _ _ _ _ _ _ _ H Hs) as [old [Ho [_ [Ha E]]]].
  rewrite (move_repair_outside (now ctx) (categories w) id old _ _
             (wf_tree w W) Ho Ha fuel (categories w1) i E).
  - now rewrite moved_findById_other.
  - unfold subtree_rank. rewrite Hc, Hout.
    apply Nat.eqb_neq in Hne. now rewrite Hne.
Qed.

Lemma move_leaves_other_subtrees_alone_witness :
  findById 0 (categories
                (world_after (three_levels ++ [(admin_at 4, Move 1 Root)])))
  = Some (mkCategory 0 "A" None "a" None [] 0%Z true (Some 1000) 1%Z 1%Z).
Proof.
  apply (move_leaves_other_subtrees_alone 3 (env_with index_up) (admin_at 4)
           1 Root (world_after three_levels)
           (success 200 (category_json
              (mkCategory 1 "B" None "b" None [] 0%Z true (Some 1000) 2%Z 4%Z)))).
  - apply world_after_wf. repeat constructor.
  - vm_compute. reflexivity.
  - reflexivity.
  - vm_compute. reflexivity.
  - discriminate.
  - reflexivity.
Defined.

Lemma bare_of_skel s s' : map skel s = map skel s' -> map bare s = map bare s'.
Proof.
  intros H. unfold bare. rewrite <- !(map_map skel (with_parent None)).
  now rewrite H.
Qed.

(** X8. Whatever it answers, [moveCategory] creates and deletes no
    document and generates no id: the collection holds the same documents
    in the same order, each with the attributes it had, but for parents,
    paths and time stamps; and the parent of every document other than the
    moved one is what it was. *)
Theorem move_keeps_the_documents fuel env ctx id np w r w1 :
  moveCategory fuel env ctx id np w = Some (r, w1) ->
  map bare (categories w1) = map bare (categories w)
  /\ next_oid w1 = next_oid w
  /\ (forall i c1,
        i <> id -> findById i (categories w1) = Some c1 ->
        exists c, findById i (categories w) = Some c /\ parent c = parent c1).
Proof.
  intros H.
  destruct (moveCategory_cases _ _ _ _ _ _ _ _ H)
    as [[_ E]|[_ [N [old [Ho [_ [_ E]]]]]]].
  - subst w1. repeat split; auto. intros i c1 _ Hc1. eauto.
  - pose proof (repair_skel _ _ _ _ _ _ E) as K.
    repeat split; auto.
    + rewrite (bare_of_skel _ _ K). unfold save_moved, updateOne.
      rewrite map_map. apply map_ext. intros d.
      destruct (_id d =? id); [|reflexivity]. now destruct d.
    + intros i c1 Hne Hc1.
      destruct (skel_findById _ _ i c1 (eq_sym K) Hc1) as [c [Hc Sc]].
      rewrite moved_findById_other in Hc by exact Hne.
      exists c. split; [exact Hc|]. now apply skel_parent.
Qed.

Lemma move_keeps_the_documents_witness :
  map bare (categories
              (world_after (three_levels ++ [(admin_at 4, Move 1 Root)])))
  = map bare (categories (world_after three_levels))
  /\ next_oid (world_after (three_levels ++ [(admin_at 4, Move 1 Root)]))
     = next_oid (world_after three_levels)
  /\ (forall i c1,
        i <> 1 ->
        findById i (categories
                      (world_after (three_levels ++ [(admin_at 4, Move 1 Root)])))
        = Some c1 ->
        exists c, findById i (categories (world_after three_levels)) = Some c
                  /\ parent c = parent c1).
Proof.
  apply (move_keeps_the_documents 3 (env_with index_up) (admin_at 4) 1 Root
           (world_after three_levels)
           (success 200 (category_json
              (mkCategory 1 "B" None "b" None [] 0%Z true (Some 1000) 2%Z 4%Z)))).
  vm_compute. reflexivity.
Defined.

(* ------------------------------------------------------------------ *)
(** ** What updateCategory and deleteCategory write                     *)
(* ------------------------------------------------------------------ *)

Lemma updateCategory_cases env ctx id body w :
  (categories (snd (updateCategory env ctx id body w)) = categories w
   /\ next_oid (snd (updateCategory env ctx id body w)) = next_oid w
   /\ succeeded (fst (updateCategory env ctx id body w)) = false)
  \/ (exists category,
        findById id (categories w) = Some category
        /\ is_admin ctx = true
        /\ unique_ok (apply_update (now ctx) body (parent_after_guard body) category)
             (categories w) = true
        /\ categories (snd (updateCategory env ctx id body w))
           = updateOne id (apply_update (now ctx) body (parent_after_guard body))
               (categories w)
        /\ next_oid (snd (updateCategory env ctx id body w)) = next_oid w
        /\ fst (updateCategory env ctx id body w)
           = success 200
               (category_json
                  (apply_update (now ctx) body (parent_after_guard body) category))).
Proof.
  unfold updateCategory, parent_after_guard.
  destruct (findById id (categories w)) as [category|] eqn:Ec; [|left; auto].
  destruct (is_admin ctx) eqn:Ea; cbn [negb]; [|left; auto].
  match goal with |- context [if ?b then (failure 400 msg_duplicate, w) else _] =>
    destruct b end; [left; auto|].
  cbv zeta.
  match goal with |- context [if ?b then updateCategory_failed _ w else _] =>
    destruct b end; [left; auto|].
  destruct (unique_ok _ _) eqn:Eu; cbn [negb]; [|left; auto].
  right. exists category. cbn [fst snd].
  rewrite es_try_categories, es_try_next_oid. simpl. repeat split; auto.
Qed.

Lemma deleteCategory_cases env ctx id w :
  (categories (snd (deleteCategory env ctx id w)) = categories w
   /\ next_oid (snd (deleteCategory env ctx id w)) = next_oid w
   /\ succeeded (fst (deleteCategory env ctx id w)) = false)
  \/ (exists category,
        findById id (categories w) = Some category
        /\ is_admin ctx = true
        /\ existsByParent id (categories w) = false
        /\ categories (snd (deleteCategory env ctx id w))
           = deleteOne id (categories w)
        /\ next_oid (snd (deleteCategory env ctx id w)) = next_oid w
        /\ fst (deleteCategory env ctx id w) = success 200 (JObj [])).
Proof.
  unfold deleteCategory.
  destruct (findById id (categories w)) as [category|] eqn:Ec; [|left; auto].
  destruct (findById_In _ _ _ Ec) as [_ Hid].
  destruct (is_admin ctx) eqn:Ea; cbn [negb]; [|left; auto].
  destruct (existsByParent id (categories w)) eqn:Ee; [left; auto|].
  destruct (resourceCount category >? 0)%Z; [left; auto|].
  destruct (document_remove env); cbn [negb]; [|left; auto].
  right. exists category. cbn [fst snd].
  rewrite es_try_categories, es_try_next_oid, Hid. simpl. repeat split; auto.
Qed.

Lemma findById_map f s i :
  (forall d, _id (f d) = _id d) ->
  findById i (map f s) = option_map f (findById i s).
Proof.
  intros Hf. unfold findById. induction s as [|d s IH]; simpl; [reflexivity|].
  rewrite Hf. destruct (_id d =? i); auto.
Qed.

Lemma tree_ok_same_paths f s :
  (forall d, _id (f d) = _id d /\ parent (f d) = parent d
             /\ ancestors (f d) = ancestors d) ->
  tree_ok s -> tree_ok (map f s).
Proof.
  intros Hf [N G]. split.
  - rewrite map_map. erewrite map_ext; [exact N|]. intros d. apply Hf.
  - intros c' Hc'. apply in_map_iff in Hc'. destruct Hc' as [c [<- Hc]].
    specialize (G c Hc). unfold good in *.
    destruct (Hf c) as [_ [Hp Ha]]. rewrite Hp, Ha.
    destruct (parent c) as [p|]; [|exact G].
    destruct G as [pc [H1 H2]]. exists (f pc). split.
    + rewrite findById_map by (intros d; apply Hf). now rewrite H1.
    + destruct (Hf pc) as [_ [_ Ha']]. now rewrite Ha'.
Qed.

Lemma findById_deleteOne i id s :
  i <> id -> findById i (deleteOne id s) = findById i s.
Proof.
  intros Hne. unfold findById, deleteOne.
  induction s as [|d s IH]; simpl; [reflexivity|].
  destruct (_id d =? id) eqn:E; simpl.
  - apply Nat.eqb_eq in E.
    assert (K : (_id d =? i) = false) by (apply Nat.eqb_neq; congruence).
    rewrite K. exact IH.
  - destruct (_id d =? i); auto.
Qed.

Lemma NoDup_map_filter {A B} (f : A -> B) (p : A -> bool) l :
  NoDup (map f l) -> NoDup (map f (filter p l)).
Proof.
  induction l as [|x l IH]; simpl; intros N; [constructor|].
  inversion N as [|? ? Hn N']; subst.
  destruct (p x); simpl; auto. constructor; auto.
  intros H. apply Hn. apply in_map_iff in H. destruct H as [y [E Hy]].
  apply filter_In in Hy. apply in_map_iff. exists y. tauto.
Qed.

Lemma tree_ok_deleteOne id s :
  tree_ok s -> existsByParent id s = false -> tree_ok (deleteOne id s).
Proof.
  intros [N G] He. split.
  - now apply NoDup_map_filter.
  - intros c Hc. apply filter_In in Hc. destruct Hc as [Hc _].
    specialize (G c Hc). unfold good in *.
    destruct (parent c) as [p|] eqn:Ep; [|exact G].
    destruct G as [pc [H1 H2]]. exists pc. split; [|exact H2].
    rewrite findById_deleteOne; [exact H1|].
    intros ->. assert (K : existsByParent id s = true)
      by (apply existsByParent_true; eauto).
    congruence.
Qed.

Lemma updateCategory_wf env ctx id body w :
  keeps_paths (Update id body) = true ->
  wf w -> wf (snd (updateCategory env ctx id body w)).
Proof.
  intros Hk W.
  destruct (updateCategory_cases env ctx id body w)
    as [[E1 [E2 _]]|[category [_ [_ [_ [E1 [E2 _]]]]]]].
  - eapply wf_same; eauto.
  - simpl in Hk.
    destruct (parent_after_guard body) eqn:Ep; [discriminate|].
    destruct (p_ancestors body) eqn:Ean; [discriminate|].
    assert (Hf : forall d,
              _id ((fun d => if _id d =? id
                             then apply_update (now ctx) body None d else d) d)
              = _id d
              /\ parent ((fun d => if _id d =? id
                                   then apply_update (now ctx) body None d else d) d)
                 = parent d
              /\ ancestors ((fun d => if _id d =? id
                                      then apply_update (now ctx) body None d
                                      else d) d)
                 = ancestors d).
    { intros d. cbv beta. destruct (_id d =? id); auto.
      unfold apply_update. simpl. now rewrite Ean. }
    destruct W as [T F]. split; rewrite E1, ?E2.
    + now apply tree_ok_same_paths.
    + intros c Hc. apply in_map_iff in Hc. destruct Hc as [d [<- Hd]].
      destruct (Hf d) as [-> _]. auto.
Qed.

Lemma deleteCategory_wf env ctx id w :
  wf w -> wf (snd (deleteCategory env ctx id w)).
Proof.
  intros W.
  destruct (deleteCategory_cases env ctx id w)
    as [[E1 [E2 _]]|[category [_ [_ [He [E1 [E2 _]]]]]]].
  - eapply wf_same; eauto.
  - destruct W as [T F]. split; rewrite E1, ?E2.
    + now apply tree_ok_deleteOne.
    + intros c Hc. apply filter_In in Hc. apply F. tauto.
Qed.

Lemma keeps_paths_wf fuel env ctx c w r w' :
  keeps_paths c = true -> wf w ->
  handle fuel env ctx c w = Some (r, w') -> wf w'.
Proof.
  destruct c as [body|id body|id|id np]; intros Hk W H.
  - exact (handle_wf fuel env ctx (Create body) w r w' eq_refl W H).
  - simpl in H. inversion H as [E].
    pose proof (updateCategory_wf env ctx id body w Hk W) as K.
    now rewrite E in K.
  - simpl in H. inversion H as [E].
    pose proof (deleteCategory_wf env ctx id w W) as K.
    now rewrite E in K.
  - exact (handle_wf fuel env ctx (Move id np) w r w' eq_refl W H).
Qed.

Lemma any_handle_length fuel env ctx c w r w' :
  handle fuel env ctx c w = Some (r, w') ->
  List.length (categories w') <= S (List.length (categories w)).
Proof.
  destruct c as [body|id body|id|id np]; intros H.
  - exact (handle_length fuel env ctx (Create body) w r w' eq_refl H).
  - simpl in H. inversion H as [E].
    destruct (updateCategory_cases env ctx id body w)
      as [[E1 _]|[category [_ [_ [_ [E1 _]]]]]];
      rewrite E in E1; simpl in E1; rewrite E1.
    + lia.
    + unfold updateOne. rewrite length_map. lia.
  - simpl in H. inversion H as [E].
    destruct (deleteCategory_cases env ctx id w)
      as [[E1 _]|[category [_ [_ [_ [E1 _]]]]]];
      rewrite E in E1; simpl in E1; rewrite E1.
    + lia.
    + unfold deleteOne. pose proof (filter_length_le
        (fun d => negb (_id d =? id)) (categories w)). lia.
  - exact (handle_length fuel env ctx (Move id np) w r w' eq_refl H).
Qed.

Lemma keeps_paths_total fuel env ctx c w :
  wf w -> List.length (categories w) < fuel ->
  exists r w', handle fuel env ctx c w = Some (r, w').
Proof.
  destruct c as [body|id body|id|id np]; intros W Hf.
  - apply handle_total; auto.
  - simpl. destruct (updateCategory env ctx id body w); eauto.
  - simpl. destruct (deleteCategory env ctx id w); eauto.
  - apply handle_total; auto.
Qed.



(* ------------------------------------------------------------------ *)
(** ** The unique indexes                                               *)
(* ------------------------------------------------------------------ *)

Lemma unique_ok_others c s d :
  unique_ok c s = true -> In d s -> _id d <> _id c ->
  name d <> name c /\ slug d <> slug c.
Proof.
  unfold unique_ok. intros H Hd Hne.
  rewrite forallb_forall in H. specialize (H d Hd).
  apply Nat.eqb_neq in Hne. rewrite Hne in H. simpl in H.
  apply negb_true_iff, orb_false_elim in H. destruct H as [H1 H2].
  split; intros E; rewrite E, String.eqb_refl in *; discriminate.
Qed.

Lemma updateOne_absent id g s :
  ~ In id (map _id s) -> updateOne id g s = s.
Proof.
  unfold updateOne. induction s as [|d s IH]; simpl; intros H; [reflexivity|].
  destruct (_id d =? id) eqn:E.
  - apply Nat.eqb_eq in E. tauto.
  - f_equal. apply IH. tauto.
Qed.

Lemma NoDup_map_updateOne {B} (h : Category -> B) id g s c :
  NoDup (map _id s) -> NoDup (map h s) ->
  findById id s = Some c ->
  (forall d, In d s -> _id d <> id -> h d <> h (g c)) ->
  NoDup (map h (updateOne id g s)).
Proof.
  induction s as [|d s IH]; simpl; intros Ni Nh Hc Ho; [constructor|].
  inversion Ni as [|? ? Hni Ni']; subst.
  inversion Nh as [|? ? Hnh Nh']; subst.
  unfold findById in Hc. simpl in Hc.
  destruct (_id d =? id) eqn:E.
  - inversion Hc; subst d. apply Nat.eqb_eq in E.
    rewrite updateOne_absent by (now rewrite <- E).
    constructor; auto. intros K. apply in_map_iff in K.
    destruct K as [e [E1 E2]]. apply (Ho e); auto.
    intros E3. apply Hni. apply in_map_iff. exists e. split; congruence.
  - constructor.
    + intros K. apply in_map_iff in K. destruct K as [e' [E1 E2]].
      unfold updateOne in E2. apply in_map_iff in E2.
      destruct E2 as [e [E3 E4]].
      destruct (_id e =? id) eqn:E5.
      * apply Nat.eqb_eq in E5.
        assert (e = c).
        { pose proof (findById_NoDup s e Ni' E4) as K. rewrite E5 in K.
          unfold findById in K. congruence. }
        subst e e'. apply (Ho d); auto. now apply Nat.eqb_neq.
      * subst e'. apply Hnh. apply in_map_iff. eauto.
    + apply IH; auto.
Qed.

Lemma NoDup_map_snoc {B} (h : Category -> B) s c :
  NoDup (map h s) -> (forall d, In d s -> h d <> h c) ->
  NoDup (map h (s ++ [c])).
Proof.
  intros N H. rewrite map_app. simpl. apply NoDup_app; auto.
  - constructor; [simpl; tauto|constructor].
  - intros b Hb [<-|[]]. apply in_map_iff in Hb.
    destruct Hb as [d [E Hd]]. now apply (H d).
Qed.

Lemma createCategory_inserted env ctx body w :
  succeeded (fst (createCategory env ctx body w)) = true ->
  exists c,
    categories (snd (createCategory env ctx body w)) = categories w ++ [c]
    /\ next_oid (snd (createCategory env ctx body w)) = S (next_oid w)
    /\ _id c = next_oid w
    /\ unique_ok c (categories w) = true.
Proof.
  unfold createCategory.
  destruct (p_name body) as [nm|]; [|discriminate].
  destruct (findOneByName _ _); [discriminate|].
  assert (K : forall par anc,
            let res :=
              match Category_create ctx (Str.trim nm) (p_description body)
                      par anc w with
              | inr e => createCategory_failed e w
              | inl (category, w1) =>
                  (success 201 (category_json category),
                   es_try env
                     (IndexDocument (categories_index env) (_id category)
                        (created_doc category))
                     "Failed to index category in Elasticsearch: " w1)
              end in
            succeeded (fst res) = true ->
            exists c,
              categories (snd res) = categories w ++ [c]
              /\ next_oid (snd res) = S (next_oid w)
              /\ _id c = next_oid w
              /\ unique_ok c (categories w) = true).
  { intros par anc. unfold Category_create. cbv zeta.
    destruct (negb (Str.truthy _)); [discriminate|].
    destruct (unique_ok _ _) eqn:Eu; cbn [negb]; [|discriminate].
    intros _. cbn [fst snd]. rewrite es_try_categories, es_try_next_oid.
    eexists. simpl. repeat split. exact Eu. }
  destruct (truthy_parent (p_parent body)) as [par|].
  - destruct (findById par (categories w)); [|discriminate]. apply K.
  - apply K.
Qed.

Lemma createCategory_distinct env ctx body w :
  distinct w -> distinct (snd (createCategory env ctx body w)).
Proof.
  intros [Di Df Dn Ds].
  destruct (succeeded (fst (createCategory env ctx body w))) eqn:Es.
  - destruct (createCategory_inserted env ctx body w Es) as [c [E1 [E2 [E3 E4]]]].
    assert (Ho : forall d, In d (categories w) -> _id d <> _id c)
      by (intros d Hd; specialize (Df d Hd); lia).
    split; rewrite E1, ?E2.
    + apply NoDup_map_snoc; auto.
    + intros d Hd. apply in_app_or in Hd. destruct Hd as [Hd|[<-|[]]].
      * specialize (Df d Hd). lia.
      * lia.
    + apply NoDup_map_snoc; auto. intros d Hd.
      apply (unique_ok_others c (categories w) d); auto.
    + apply NoDup_map_snoc; auto. intros d Hd.
      apply (unique_ok_others c (categories w) d); auto.
  - destruct (createCategory_created env ctx body w)
      as [E1 E2 _|c nm _ _ E3 _ _ _ _ _].
    + split; rewrite E1, ?E2; auto.
    + rewrite E3 in Es. discriminate.
Qed.

Lemma updateCategory_distinct env ctx id body w :
  distinct w -> distinct (snd (updateCategory env ctx id body w)).
Proof.
  intros [Di Df Dn Ds].
  destruct (updateCategory_cases env ctx id body w)
    as [[E1 [E2 _]]|[category [Hc [_ [Hu [E1 [E2 _]]]]]]].
  - split; rewrite E1, ?E2; auto.
  - assert (Hid : forall d, _id (apply_update (now ctx) body
                                   (parent_after_guard body) d) = _id d)
      by reflexivity.
    destruct (findById_In _ _ _ Hc) as [_ Hcid].
    assert (Ho : forall d, In d (categories w) -> _id d <> id ->
               name d <> name (apply_update (now ctx) body
                                 (parent_after_guard body) category)
               /\ slug d <> slug (apply_update (now ctx) body
                                    (parent_after_guard body) category)).
    { intros d Hd Hne. apply (unique_ok_others _ (categories w) d); auto.
      rewrite Hid. congruence. }
    split; rewrite E1, ?E2.
    + now rewrite ids_updateOne.
    + intros d Hd. unfold updateOne in Hd. apply in_map_iff in Hd.
      destruct Hd as [e [<- He]]. destruct (_id e =? id); simpl; auto.
    + eapply NoDup_map_updateOne; eauto. intros d Hd Hne. now apply Ho.
    + eapply NoDup_map_updateOne; eauto. intros d Hd Hne. now apply Ho.
Qed.

Lemma deleteCategory_distinct env ctx id w :
  distinct w -> distinct (snd (deleteCategory env ctx id w)).
Proof.
  intros [Di Df Dn Ds].
  destruct (deleteCategory_cases env ctx id w)
    as [[E1 [E2 _]]|[category [_ [_ [_ [E1 [E2 _]]]]]]];
    split; rewrite E1, ?E2; auto; try (now apply NoDup_map_filter).
  intros c Hc. apply filter_In in Hc. apply Df. tauto.
Qed.

Lemma bare_projection {B} (h : Category -> B) s s' :
  (forall c, h (bare c) = h c) ->
  map bare s' = map bare s -> map h s' = map h s.
Proof.
  intros Hh E.
  rewrite <- (map_ext (fun c => h (bare c)) h Hh s).
  rewrite <- (map_ext (fun c => h (bare c)) h Hh s').
  rewrite <- !(map_map bare h). now rewrite E.
Qed.

Lemma moveCategory_bare fuel env ctx id np w r w1 :
  moveCategory fuel env ctx id np w = Some (r, w1) ->
  map bare (categories w1) = map bare (categories w)
  /\ next_oid w1 = next_oid w.
Proof.
  intros H.
  destruct (moveCategory_cases _ _ _ _ _ _ _ _ H)
    as [[_ E]|[_ [N [old [Ho [_ [_ E]]]]]]].
  - subst w1. auto.
  - pose proof (repair_skel _ _ _ _ _ _ E) as K. split; [|exact N].
    rewrite (bare_of_skel _ _ K). unfold save_moved, updateOne.
    rewrite map_map. apply map_ext. intros d.
    destruct (_id d =? id); [|reflexivity]. now destruct d.
Qed.

Lemma moveCategory_distinct fuel env ctx id np w r w1 :
  moveCategory fuel env ctx id np w = Some (r, w1) ->
  distinct w -> distinct w1.
Proof.
  intros H [Di Df Dn Ds].
  destruct (moveCategory_bare _ _ _ _ _ _ _ _ H) as [E N].
  pose proof (bare_projection _id _ _ (fun c => eq_refl) E) as Ei.
  split.
  - now rewrite Ei.
  - intros c Hc. rewrite N.
    assert (K : In (_id c) (map _id (categories w)))
      by (rewrite <- Ei; now apply in_map).
    apply in_map_iff in K. destruct K as [d [<- Hd]]. auto.
  - now rewrite (bare_projection name _ _ (fun c => eq_refl) E).
  - now rewrite (bare_projection slug _ _ (fun c => eq_refl) E).
Qed.



(* ------------------------------------------------------------------ *)
(** ** updateCategory and deleteCategory touch one document             *)
(* ------------------------------------------------------------------ *)

(** X11. Whatever it answers, [updateCategory] (for a body made of name,
    description, parent, ancestors, resourceCount and isActive) writes to
    the one document of the request: the collection keeps its documents,
    in their order; every other document reads as before; and the
    document itself keeps its slug (a rename does not recompute it: no
    save hook runs on [findByIdAndUpdate]), its creator and its creation
    time. *)
Theorem update_touches_one_document env ctx id body w :
  map _id (categories (snd (updateCategory env ctx id body w)))
  = map _id (categories w)
  /\ (forall i, i <> id ->
        findById i (categories (snd (updateCategory env ctx id body w)))
        = findById i (categories w))
  /\ (forall c1,
        findById id (categories (snd (updateCategory env ctx id body w)))
        = Some c1 ->
        exists c,
          findById id (categories w) = Some c
          /\ slug c1 = slug c /\ createdBy c1 = createdBy c
          /\ createdAt c1 = createdAt c).
Proof.
  destruct (updateCategory_cases env ctx id body w)
    as [[E1 _]|[category [Hc [_ [_ [E1 _]]]]]]; rewrite E1.
  - repeat split; auto. intros c1 H. exists c1. auto.
  - assert (Hid : forall d, _id (apply_update (now ctx) body
                                   (parent_after_guard body) d) = _id d)
      by reflexivity.
    split; [now apply ids_updateOne|]. split.
    + intros i Hne. rewrite findById_updateOne by exact Hid.
      apply Nat.eqb_neq in Hne. now rewrite Hne.
    + intros c1. rewrite findById_updateOne by exact Hid.
      rewrite Nat.eqb_refl, Hc. simpl. intros H. inversion H; subst c1.
      exists category. auto.
Qed.

Lemma length_deleteOne id s c :
  NoDup (map _id s) -> findById id s = Some c ->
  S (List.length (deleteOne id s)) = List.length s.
Proof.
  unfold findById, deleteOne.
  induction s as [|d s IH]; simpl; intros N H; [discriminate|].
  inversion N as [|? ? Hn N']; subst.
  destruct (_id d =? id) eqn:E; simpl.
  - apply Nat.eqb_eq in E. f_equal.
    assert (K : forall x, In x s -> negb (_id x =? id) = true).
    { intros x Hx. apply negb_true_iff, Nat.eqb_neq. intros Ex.
      apply Hn. apply in_map_iff. exists x. split; congruence. }
    clear -K. induction s as [|x s IH]; simpl; [reflexivity|].
    rewrite (K x (or_introl eq_refl)). simpl. f_equal.
    apply IH. intros y Hy. apply K. now right.
  - f_equal. now apply IH.
Qed.

(** X12. When the ids of the collection are distinct, a delete that
    succeeded has removed the one document of the request and nothing
    else: the id reads as not found, every other id reads as before, and
    the collection has one document less. *)
Theorem delete_removes_one_document env ctx id w :
  NoDup (map _id (categories w)) ->
  succeeded (fst (deleteCategory env ctx id w)) = true ->
  findById id (categories (snd (deleteCategory env ctx id w))) = None
  /\ (forall i, i <> id ->
        findById i (categories (snd (deleteCategory env ctx id w)))
        = findById i (categories w))
  /\ S (List.length (categories (snd (deleteCategory env ctx id w))))
     = List.length (categories w).
Proof.
  intros N Hs.
  destruct (deleteCategory_cases env ctx id w)
    as [[_ [_ E]]|[category [Hc [_ [_ [E1 _]]]]]]; [congruence|].
  rewrite E1. split; [|split].
  - apply findById_gone. apply deleteOne_gone.
  - intros i Hne. now apply findById_deleteOne.
  - eapply length_deleteOne; eauto.
Qed.

Lemma delete_removes_one_document_witness :
  findById 2 (categories
                (snd (deleteCategory (env_with index_up) (admin_at 9) 2
                        (world_after three_levels)))) = None
  /\ (forall i, i <> 2 ->
        findById i (categories
                      (snd (deleteCategory (env_with index_up) (admin_at 9) 2
                              (world_after three_levels))))
        = findById i (categories (world_after three_levels)))
  /\ S (List.length
          (categories (snd (deleteCategory (env_with index_up) (admin_at 9) 2
                              (world_after three_levels)))))
     = List.length (categories (world_after three_levels)).
Proof.
  apply (delete_removes_one_document (env_with index_up) (admin_at 9) 2
           (world_after three_levels)).
  - vm_compute. repeat constructor; simpl; intuition discriminate.
  - reflexivity.
Defined.

(* ------------------------------------------------------------------ *)
(** ** The category routes behind authenticate and authorize            *)
(* ------------------------------------------------------------------ *)

Lemma createCategory_status env ctx body w :
  In (status (fst (createCategory env ctx body w))) [201; 400; 404; 500].
Proof.
  unfold createCategory, Category_create, createCategory_failed.
  destruct (p_name body); [|simpl; tauto].
  destruct (findOneByName _ _); [simpl; tauto|].
  cbv zeta.
  destruct (truthy_parent (p_parent body)).
  - destruct (findById _ _); [|simpl; tauto].
    destruct (negb (Str.truthy _)); [simpl; tauto|].
    destruct (negb (unique_ok _ _)); simpl; tauto.
  - destruct (negb (Str.truthy _)); [simpl; tauto|].
    destruct (negb (unique_ok _ _)); simpl; tauto.
Qed.

Lemma updateCategory_status env ctx id body w :
  is_admin ctx = true ->
  In (status (fst (updateCategory env ctx id body w))) [200; 400; 404; 500].
Proof.
  intros Ha. unfold updateCategory, updateCategory_failed. rewrite Ha.
  destruct (findById id (categories w)); [|simpl; tauto].
  cbn [negb].
  match goal with |- context [if ?b then (failure 400 msg_duplicate, w) else _] =>
    destruct b end; [simpl; tauto|].
  cbv zeta.
  match goal with |- context [if ?b then (serverError _ _, _) else _] =>
    destruct b end; [simpl; tauto|].
  destruct (negb (unique_ok _ _)); simpl; tauto.
Qed.

Lemma deleteCategory_status env ctx id w :
  is_admin ctx = true ->
  In (status (fst (deleteCategory env ctx id w))) [200; 400; 404; 500].
Proof.
  intros Ha. unfold deleteCategory. rewrite Ha.
  destruct (findById id (categories w)); [|simpl; tauto].
  cbn [negb].
  destruct (existsByParent _ _); [simpl; tauto|].
  destruct (resourceCount _ >? 0)%Z; [simpl; tauto|].
  destruct (negb (document_remove env)); simpl; tauto.
Qed.

Lemma moveCategory_status fuel env ctx id np w r w1 :
  is_admin ctx = true ->
  moveCategory fuel env ctx id np w = Some (r, w1) ->
  In (status r) [200; 400; 404; 500].
Proof.
  intros Ha. unfold moveCategory, move_commit. rewrite Ha. cbn [negb].
  destruct (findById id (categories w));
    [|intros H; inversion H; simpl; tauto].
  destruct np as [|n].
  - destruct (updateSubcategoryAncestors _ _ _ _ _); [|discriminate].
    intros H; inversion H; simpl; tauto.
  - destruct (findById n (categories w));
      [|intros H; inversion H; simpl; tauto].
    destruct (includes _ _ || _); [intros H; inversion H; simpl; tauto|].
    destruct (updateSubcategoryAncestors _ _ _ _ _); [|discriminate].
    intros H; inversion H; simpl; tauto.
Qed.

Lemma handle_status fuel env ctx c w r w1 :
  is_admin ctx = true ->
  handle fuel env ctx c w = Some (r, w1) ->
  In (status r) [200; 201; 400; 404; 500].
Proof.
  intros Ha. destruct c as [pl|id pl|id|id np]; simpl; intros H.
  - inversion H as [E1].
    pose proof (createCategory_status env ctx pl w) as K.
    rewrite E1 in K. simpl in *. tauto.
  - inversion H as [E1].
    pose proof (updateCategory_status env ctx id pl w Ha) as K.
    rewrite E1 in K. simpl in *. tauto.
  - inversion H as [E1].
    pose proof (deleteCategory_status env ctx id w Ha) as K.
    rewrite E1 in K. simpl in *. tauto.
  - pose proof (moveCategory_status _ _ _ _ _ _ _ _ Ha H) as K.
    simpl in *. tauto.
Qed.

Lemma authorize_admin auth u :
  authorize auth ["admin"] u = None -> role u = "admin".
Proof.
  unfold authorize. destruct (negb (Str.truthy (role u))); [discriminate|].
  simpl. rewrite orb_false_r.
  destruct (String.eqb (role u) "admin") eqn:E; [|discriminate].
  intros _. now apply String.eqb_eq.
Qed.

Lemma authenticate_error auth req err :
  authenticate auth req = inr err -> statusCode err = Some 401.
Proof.
  unfold authenticate.
  destruct (if Str.truthy_opt (x_auth_token req) then _ else _) as [t|].
  - destruct (Str.truthy t).
    + destruct (verify auth t); [discriminate|].
      intros H; inversion H; reflexivity.
    + intros H; inversion H; reflexivity.
  - intros H; inversion H; reflexivity.
Qed.

Lemma authorize_error auth roles u err :
  authorize auth roles u = Some err -> statusCode err = Some 403.
Proof.
  unfold authorize. destruct (negb (Str.truthy (role u))).
  - intros H; inversion H; reflexivity.
  - destruct (negb (existsb _ roles)); [|discriminate].
    intros H; inversion H; reflexivity.
Qed.

(** X13. Through the router, only an administrator reaches the category
    handlers. For every request to the four protected category routes:
    an answer in the 2xx range was given to a token that decodes to a user
    whose role is admin; and an answer 401 or 403 comes from the
    middleware alone, with the collection, the id counter and the calls to
    the index untouched - so the role checks of updateCategory,
    deleteCategory and moveCategory never answer behind this router, and
    createCategory, which has none, is protected all the same. *)
Theorem only_admins_reach_the_category_handlers fuel env auth req w r w1 :
  category_route fuel env auth req w = Some (r, w1) ->
  (succeeded r = true ->
     exists u, authenticate auth req = inl u /\ role u = "admin")
  /\ (status r = 401 \/ status r = 403 ->
      (exists err, (r, w1) = errorHandler env err w
                   /\ (authenticate auth req = inr err
                       \/ exists u, authenticate auth req = inl u
                                    /\ authorize auth ["admin"] u = Some err))
      /\ categories w1 = categories w
      /\ next_oid w1 = next_oid w
      /\ es_calls w1 = es_calls w).
Proof.
  unfold category_route.
  destruct (authenticate auth req) as [u|err] eqn:Ea.
  - destruct (authorize auth ["admin"] u) as [err|] eqn:Ez.
    + intros H; inversion H; subst. split.
      * pose proof (authorize_error _ _ _ _ Ez) as K.
        unfold errorHandler, succeeded. simpl. rewrite K. discriminate.
      * intros _. split; [|auto]. exists err. split; [reflexivity|].
        right. eauto.
    + pose proof (authorize_admin _ _ Ez) as Hr. intros H. split.
      * intros _. eauto.
      * intros Hs. exfalso.
        assert (Hadm : is_admin (mkCtx u (received req)) = true)
          by (unfold is_admin; simpl; rewrite Hr; reflexivity).
        pose proof (handle_status _ _ _ _ _ _ _ Hadm H) as K.
        simpl in K. lia.
  - intros H; inversion H; subst. split.
    + pose proof (authenticate_error _ _ _ Ea) as K.
      unfold errorHandler, succeeded. simpl. rewrite K. discriminate.
    + intros _. split; [|auto]. exists err. split; [reflexivity|]. now left.
Qed.

Lemma only_admins_reach_the_category_handlers_witness :
  (succeeded (mkResponse 403
     (JObj [("success", JBool false);
            ("error", JStr "Forbidden: Insufficient permissions")])) = true ->
     exists u,
       authenticate two_tokens
         (mkRequest None (Some "Bearer user-token")
            (Create (named "D" None)) 9%Z) = inl u
       /\ role u = "admin")
  /\ (403 = 401 \/ 403 = 403 ->
      (exists err,
         (mkResponse 403
            (JObj [("success", JBool false);
                   ("error", JStr "Forbidden: Insufficient permissions")]),
          log LError "Forbidden: Insufficient permissions"
            (world_after three_levels))
         = errorHandler (env_with index_up) err (world_after three_levels)
         /\ (authenticate two_tokens
               (mkRequest None (Some "Bearer user-token")
                  (Create (named "D" None)) 9%Z) = inr err
             \/ exists u,
                  authenticate two_tokens
                    (mkRequest None (Some "Bearer user-token")
                       (Create (named "D" None)) 9%Z) = inl u
                  /\ authorize two_tokens ["admin"] u = Some err))
      /\ categories (log LError "Forbidden: Insufficient permissions"
                       (world_after three_levels))
         = categories (world_after three_levels)
      /\ next_oid (log LError "Forbidden: Insufficient permissions"
                     (world_after three_levels))
         = next_oid (world_after three_levels)
      /\ es_calls (log LError "Forbidden: Insufficient permissions"
                     (world_after three_levels))
         = es_calls (world_after three_levels)).
Proof.
  apply (only_admins_reach_the_category_handlers 3 (env_with index_up)
           two_tokens
           (mkRequest None (Some "Bearer user-token")
              (Create (named "D" None)) 9%Z)
           (world_after three_levels)
           (mkResponse 403
              (JObj [("success", JBool false);
                     ("error", JStr "Forbidden: Insufficient permissions")]))
           (log LError "Forbidden: Insufficient permissions"
              (world_after three_levels))).
  vm_compute. reflexivity.
Defined.

(* ------------------------------------------------------------------ *)
(** ** getCategories without a search text                              *)
(* ------------------------------------------------------------------ *)

Lemma firstn_plus {A} (a b : nat) (l : list A) :
  firstn (a + b) l = firstn a l ++ firstn b (skipn a l).
Proof.
  revert l. induction a as [|a IH]; intros l; simpl; [reflexivity|].
  destruct l as [|x l]; simpl.
  - now rewrite firstn_nil.
  - now rewrite IH.
Qed.

Lemma pages_tile {A} (m n : nat) (l : list A) :
  List.concat (map (fun k => firstn m (skipn ((k - 1) * m) l)) (seq 1 n))
  = firstn (n * m) l.
Proof.
  induction n as [|n IH]; [reflexivity|].
  rewrite seq_S, map_app, List.concat_app, IH. simpl.
  rewrite app_nil_r, Nat.sub_0_r.
  replace (m + n * m) with (n * m + m) by lia.
  now rewrite firstn_plus.
Qed.

Lemma plain_listing env q w :
  Str.truthy (lq_query q) = false -> 1 <= lq_page q -> 0 < lq_limit q ->
  getCategories env q w
  = (listing
       (JNum (Z.of_nat (List.length
                          (filter (matches_filter (lq_parentId q))
                             (categories w)))))
       (JArr (map category_json
                (firstn (lq_limit q)
                   (skipn ((lq_page q - 1) * lq_limit q)
                      (sorted_matches env q w))))), w).
Proof.
  intros Hq Hp Hl. unfold getCategories. rewrite Hq.
  unfold mongo_listing, paginate, mongo_matches, sorted_matches.
  assert (E : filter (fun c => matches_filter (lq_parentId q) c
                               && (negb false || text_search env (lq_query q) c))
                (categories w)
              = filter (matches_filter (lq_parentId q)) (categories w)).
  { apply filter_ext. intros c. simpl. apply andb_true_r. }
  rewrite E.
  destruct (lq_page q =? 0) eqn:E0; [apply Nat.eqb_eq in E0; lia|].
  destruct (lq_limit q =? 0) eqn:E1; [apply Nat.eqb_eq in E1; lia|].
  reflexivity.
Qed.

(** X14. The listing without a search text reads and never writes, and
    its pages tile the result: with a limit greater than 0, every page
    from 1 on is answered with the world untouched (no call to the index,
    nothing logged) and with the number of all the documents that match
    the parent filter as count, whatever the page; and the data of the
    pages 1 to n laid end to end are the first n * limit matching
    documents in the sort order, none skipped and none repeated. *)
Theorem listing_pages_tile_the_matches env q w n :
  Str.truthy (lq_query q) = false ->
  0 < lq_limit q ->
  (forall k, 1 <= k ->
     snd (getCategories env (on_page k q) w) = w
     /\ status (fst (getCategories env (on_page k q) w)) = 200
     /\ count_of (fst (getCategories env (on_page k q) w))
        = Some (JNum (Z.of_nat
                        (List.length (filter (matches_filter (lq_parentId q))
                                        (categories w))))))
  /\ List.concat (map (fun k => data_of (fst (getCategories env (on_page k q) w)))
               (seq 1 n))
     = map category_json (firstn (n * lq_limit q) (sorted_matches env q w)).
Proof.
  intros Hq Hl. split.
  - intros k Hk. rewrite (plain_listing env (on_page k q) w Hq Hk Hl).
    repeat split.
  - rewrite <- pages_tile, List.concat_map, map_map.
    f_equal. apply map_ext_in. intros k Hk. apply in_seq in Hk.
    rewrite (plain_listing env (on_page k q) w Hq ltac:(simpl; lia) Hl).
    reflexivity.
Qed.

Lemma listing_pages_tile_the_matches_witness :
  (forall k, 1 <= k ->
     snd (getCategories (env_with index_up)
            (on_page k (mkListQuery "" 2 1 "name" "asc" None))
            (world_after three_levels))
     = world_after three_levels
     /\ status (fst (getCategories (env_with index_up)
                       (on_page k (mkListQuery "" 2 1 "name" "asc" None))
                       (world_after three_levels))) = 200
     /\ count_of (fst (getCategories (env_with index_up)
                         (on_page k (mkListQuery "" 2 1 "name" "asc" None))
                         (world_after three_levels)))
        = Some (JNum (Z.of_nat
                        (List.length
                           (filter (matches_filter None)
                              (categories (world_after three_levels)))))))
  /\ List.concat (map (fun k =>
                    data_of (fst (getCategories (env_with index_up)
                                    (on_page k
                                       (mkListQuery "" 2 1 "name" "asc" None))
                                    (world_after three_levels))))
               (seq 1 2))
     = map category_json
         (firstn (2 * 2)
            (sorted_matches (env_with index_up)
               (mkListQuery "" 2 1 "name" "asc" None)
               (world_after three_levels))).
Proof.
  apply (listing_pages_tile_the_matches (env_with index_up)
           (mkListQuery "" 2 1 "name" "asc" None) (world_after three_levels) 2).
  - reflexivity.
  - simpl. lia.
Defined.

(* ------------------------------------------------------------------ *)
(** ** The search controller                                            *)
(* ------------------------------------------------------------------ *)

Lemma advanced_filters_of_resources q :
  String.eqb (Advanced.type_of q) "resources" = true ->
  Js.opt_prop "visibility" (Some (Advanced.filters q)) = Some (JStr "public")
  /\ Js.opt_prop "status" (Some (Advanced.filters q)) = Some (JStr "active").
Proof.
  intros H. unfold Advanced.filters. rewrite H. cbv zeta.
  destruct (Advanced.list_filter (aq_categories q));
  destruct (Advanced.list_filter (aq_tags q));
  destruct (match aq_resourceType q with Some r => _ | None => None end);
  destruct (match aq_verified q with Some v => _ | None => None end);
  destruct (when (Str.truthy_opt (aq_dateFrom q) || Str.truthy_opt (aq_dateTo q)) _);
  split; reflexivity.
Qed.

Lemma advanced_filters_of_others q :
  String.eqb (Advanced.type_of q) "resources" = false ->
  Js.opt_prop "visibility" (Some (Advanced.filters q)) = None
  /\ Js.opt_prop "status" (Some (Advanced.filters q)) = None.
Proof.
  intros H. unfold Advanced.filters. rewrite H. cbv zeta.
  destruct (Advanced.list_filter (aq_categories q));
  destruct (Advanced.list_filter (aq_tags q));
  destruct (match aq_resourceType q with Some r => _ | None => None end);
  destruct (match aq_verified q with Some v => _ | None => None end);
  destruct (when (Str.truthy_opt (aq_dateFrom q) || Str.truthy_opt (aq_dateTo q)) _);
  split; reflexivity.
Qed.

Lemma search_call_index q :
  call_index (Advanced.search_call q) = Advanced.index_of (Advanced.type_of q).
Proof.
  unfold Advanced.search_call. destruct (aq_q q) as [t|]; [|reflexivity].
  now destruct (Str.truthy t).
Qed.

Lemma search_call_filters q :
  call_filters (Advanced.search_call q) = Some (Advanced.filters q).
Proof.
  unfold Advanced.search_call. destruct (aq_q q) as [t|]; [|reflexivity].
  now destruct (Str.truthy t).
Qed.

(** X15. Every advanced search asks the index exactly once and leaves the
    collection alone. This holds for a type that is not the name of a
    property every object inherits (constructor, toString, ...: for these
    [typeToIndex[type]] is that property, not an index). When the type is
    resources (or absent) the call goes to the resources index with the
    filters visibility = public and status = active, whatever else the
    query holds. For any other type the call carries neither filter; and
    unless the type is users or collections it still goes to the resources
    index (the configuration names no index for tags, and an unknown type
    falls back): such a search reads the resources index without the
    public and active filters. *)
Theorem advanced_search_filters env q w :
  inherited_key (Advanced.type_of q) = false ->
  es_calls (snd (advancedSearch env q w))
  = es_calls w ++ [Advanced.search_call q]
  /\ categories (snd (advancedSearch env q w)) = categories w
  /\ (Advanced.type_of q = "resources" ->
      call_index (Advanced.search_call q) = Some Advanced.resources_index
      /\ Js.opt_prop "visibility" (call_filters (Advanced.search_call q))
         = Some (JStr "public")
      /\ Js.opt_prop "status" (call_filters (Advanced.search_call q))
         = Some (JStr "active"))
  /\ (Advanced.type_of q <> "resources" ->
      Js.opt_prop "visibility" (call_filters (Advanced.search_call q)) = None
      /\ Js.opt_prop "status" (call_filters (Advanced.search_call q)) = None
      /\ (Advanced.type_of q <> "users" ->
          Advanced.type_of q <> "collections" ->
          call_index (Advanced.search_call q)
          = Some Advanced.resources_index)).
Proof.
  intros _. split; [|split; [|split]].
  - unfold advancedSearch, es_call, errorHandler.
    destruct (elastic env (es_calls w) (Advanced.search_call q)); simpl.
    + now destruct (Advanced.format q result).
    + reflexivity.
  - unfold advancedSearch, es_call, errorHandler.
    destruct (elastic env (es_calls w) (Advanced.search_call q)); simpl.
    + now destruct (Advanced.format q result).
    + reflexivity.
  - intros H. rewrite search_call_index, search_call_filters.
    assert (E : String.eqb (Advanced.type_of q) "resources" = true)
      by (now apply String.eqb_eq).
    destruct (advanced_filters_of_resources q E) as [H1 H2].
    rewrite H. repeat split; assumption.
  - intros H. rewrite search_call_index, search_call_filters.
    assert (E : String.eqb (Advanced.type_of q) "resources" = false)
      by (now apply String.eqb_neq).
    destruct (advanced_filters_of_others q E) as [H1 H2].
    split; [exact H1|split; [exact H2|]].
    intros Hu Hc. unfold Advanced.index_of.
    apply String.eqb_neq in Hu, Hc. now rewrite Hu, Hc.
Qed.

Lemma advanced_search_filters_witness :
  es_calls (snd (advancedSearch (env_with index_down) tags_query empty_world))
  = es_calls empty_world ++ [Advanced.search_call tags_query]
  /\ categories (snd (advancedSearch (env_with index_down) tags_query
                        empty_world))
     = categories empty_world
  /\ (Advanced.type_of tags_query = "resources" ->
      call_index (Advanced.search_call tags_query)
      = Some Advanced.resources_index
      /\ Js.opt_prop "visibility" (call_filters (Advanced.search_call tags_query))
         = Some (JStr "public")
      /\ Js.opt_prop "status" (call_filters (Advanced.search_call tags_query))
         = Some (JStr "active"))
  /\ (Advanced.type_of tags_query <> "resources" ->
      Js.opt_prop "visibility" (call_filters (Advanced.search_call tags_query))
      = None
      /\ Js.opt_prop "status" (call_filters (Advanced.search_call tags_query))
         = None
      /\ (Advanced.type_of tags_query <> "users" ->
          Advanced.type_of tags_query <> "collections" ->
          call_index (Advanced.search_call tags_query)
          = Some Advanced.resources_index)).
Proof.
  apply (advanced_search_filters (env_with index_down) tags_query empty_world).
  reflexivity.
Defined.



Lemma dedupe_In x l : In x (dedupe l) <-> In x l.
Proof.
  induction l as [|y l IH]; simpl; [tauto|].
  rewrite filter_In, IH. split.
  - intros [H|[H _]]; auto.
  - intros [H|H]; auto.
    destruct (String.eqb x y) eqn:E.
    + apply String.eqb_eq in E. auto.
    + right. split; auto; now rewrite E.
Qed.

Lemma dedupe_NoDup l : NoDup (dedupe l).
Proof.
  induction l as [|y l IH]; simpl; constructor.
  - rewrite filter_In. intros [_ H]. now rewrite String.eqb_refl in H.
  - now apply NoDup_filter.
Qed.

Lemma slice_to_firstn {A} n (l : list A) :
  exists k, slice_to n l = firstn k l
            /\ forall z, n = Some z -> (0 <= z)%Z -> k = Z.to_nat z.
Proof.
  unfold slice_to. destruct n as [z|].
  - destruct (z <? 0)%Z eqn:E.
    + eexists. split; [reflexivity|]. intros z' H Hz. inversion H; subst.
      apply Z.ltb_lt in E. lia.
    + eexists. split; [reflexivity|]. intros z' H _. now inversion H.
  - exists 0. split; [reflexivity|]. discriminate.
Qed.

Lemma firstn_In {A} k (l : list A) x : In x (firstn k l) -> In x l.
Proof.
  revert l. induction k as [|k IH]; intros [|y l]; simpl; try tauto.
  intros [H|H]; auto.
Qed.

Lemma firstn_NoDup {A} k (l : list A) : NoDup l -> NoDup (firstn k l).
Proof.
  revert l. induction k as [|k IH]; intros [|y l]; simpl; intros N;
    try constructor.
  - inversion N; subst. intros H. apply firstn_In in H. contradiction.
  - inversion N; subst. auto.
Qed.

(** X17. For a query with a text, [getSearchSuggestions] always answers
    200, whatever the index does: the suggestions it returns are pairwise
    distinct, at most [limit] when the limit is a number that is not
    negative, and each of them was returned by one of its two calls to the
    index for this text; when the call for the resources throws, the list
    is empty, and when only the call for the tags throws, the suggestions
    of the resources are still served. *)
Theorem suggestions_are_distinct_and_bounded suggest q text :
  sq_q q = Some text ->
  Str.truthy text = true ->
  exists l,
    fst (getSearchSuggestions suggest q) = success 200 (JArr (map JStr l))
    /\ NoDup l
    /\ (forall z, sq_limit q = Some z -> (0 <= z)%Z ->
          List.length l <= Z.to_nat z)
    /\ (forall x, In x l ->
          exists index fields found,
            suggest index text fields (sq_limit q) = inl found /\ In x found)
    /\ (forall e,
          suggest (Some Advanced.resources_index) text
            ["title"; "description"; "tags"] (sq_limit q) = inr e ->
          l = [])
    /\ (forall rs e,
          suggest (Some Advanced.resources_index) text
            ["title"; "description"; "tags"] (sq_limit q) = inl rs ->
          suggest None text ["name"] (sq_limit q) = inr e ->
          l = slice_to (sq_limit q) (dedupe rs)).
Proof.
  intros Hq Ht. unfold getSearchSuggestions. rewrite Hq, Ht. cbn [negb].
  destruct (suggest (Some Advanced.resources_index) text
              ["title"; "description"; "tags"] (sq_limit q)) as [rs|e1] eqn:E1.
  - destruct (suggest None text ["name"] (sq_limit q)) as [ts|e2] eqn:E2.
    + destruct (slice_to_firstn (sq_limit q) (dedupe (rs ++ ts)))
        as [k [Ek Hk]].
      exists (slice_to (sq_limit q) (dedupe (rs ++ ts))).
      split; [reflexivity|]. rewrite Ek.
      split; [apply firstn_NoDup, dedupe_NoDup|].
      split; [intros z Hz Hz0; rewrite (Hk z Hz Hz0); apply firstn_le_length|].
      split; [|split; [discriminate|intros ? ? _ H; discriminate]].
      intros x Hx. apply firstn_In in Hx. rewrite dedupe_In in Hx.
      apply in_app_or in Hx. destruct Hx as [Hx|Hx]; eauto.
    + destruct (slice_to_firstn (sq_limit q) (dedupe (rs ++ [])))
        as [k [Ek Hk]].
      exists (slice_to (sq_limit q) (dedupe (rs ++ []))).
      split; [reflexivity|]. rewrite Ek.
      split; [apply firstn_NoDup, dedupe_NoDup|].
      split; [intros z Hz Hz0; rewrite (Hk z Hz Hz0); apply firstn_le_length|].
      split; [|split; [discriminate|]].
      * intros x Hx. apply firstn_In in Hx. rewrite dedupe_In in Hx.
        rewrite app_nil_r in Hx. eauto.
      * intros rs' e H _. inversion H; subst rs'.
        now rewrite <- Ek, app_nil_r.
  - exists []. split.
    + simpl. now destruct (sq_limit q) as [z|]; simpl;
        [destruct (z <? 0)%Z; simpl; rewrite ?firstn_nil|].
    + split; [constructor|]. split; [simpl; lia|].
      split; [intros x []|]. split; [reflexivity|discriminate].
Qed.

Lemma suggestions_are_distinct_and_bounded_witness :
  exists l,
    fst (getSearchSuggestions titles_only (mkSuggestQuery (Some "gra") (Some 5%Z)))
    = success 200 (JArr (map JStr l))
    /\ NoDup l
    /\ (forall z, Some 5%Z = Some z -> (0 <= z)%Z -> List.length l <= Z.to_nat z)
    /\ (forall x, In x l ->
          exists index fields found,
            titles_only index "gra" fields (Some 5%Z) = inl found /\ In x found)
    /\ (forall e,
          titles_only (Some Advanced.resources_index) "gra"
            ["title"; "description"; "tags"] (Some 5%Z) = inr e ->
          l = [])
    /\ (forall rs e,
          titles_only (Some Advanced.resources_index) "gra"
            ["title"; "description"; "tags"] (Some 5%Z) = inl rs ->
          titles_only None "gra" ["name"] (Some 5%Z) = inr e ->
          l = slice_to (Some 5%Z) (dedupe rs)).
Proof.
  apply (suggestions_are_distinct_and_bounded titles_only
           (mkSuggestQuery (Some "gra") (Some 5%Z)) "gra"); reflexivity.
Defined.

(* ------------------------------------------------------------------ *)
(** ** Round trips: a move and its way back, a create and its delete    *)
(* ------------------------------------------------------------------ *)

Lemma skel_same_id s s' c c' :
  NoDup (map _id s) -> map skel s = map skel s' ->
  In c s -> In c' s' -> _id c = _id c' -> skel c = skel c'.
Proof.
  intros N E Hc Hc' Hid.
  assert (N' : NoDup (map _id s')) by (now rewrite <- (skel_ids _ _ E)).
  pose proof (findById_NoDup s' c' N' Hc') as F.
  destruct (skel_findById s s' _ c' E F) as [c0 [F0 S0]].
  destruct (findById_In _ _ _ F0) as [H0 I0].
  assert (c0 = c) by (apply (In_same_id s); auto; congruence).
  now subst.
Qed.

(** In a collection that satisfies the invariant the parents determine
    the paths. *)
Lemma paths_determined s s' :
  tree_ok s -> tree_ok s' -> map skel s = map skel s' ->
  forall n c c', In c s -> In c' s' -> _id c = _id c' ->
    List.length (ancestors c) <= n -> ancestors c = ancestors c'.
Proof.
  intros T T' E. induction n as [|n IH]; intros c c' Hc Hc' Hid Hn.
  - pose proof (skel_same_id s s' c c' (ids_unique s T) E Hc Hc' Hid) as S.
    pose proof (skel_parent _ _ S) as P.
    pose proof (paths_ok s T c Hc) as G. pose proof (paths_ok s' T' c' Hc') as G'.
    unfold good in G, G'. rewrite <- P in G'.
    destruct (parent c) as [p|]; [|congruence].
    destruct G as [pc [_ H2]]. rewrite H2, length_app in Hn. simpl in Hn. lia.
  - pose proof (skel_same_id s s' c c' (ids_unique s T) E Hc Hc' Hid) as S.
    pose proof (skel_parent _ _ S) as P.
    pose proof (paths_ok s T c Hc) as G. pose proof (paths_ok s' T' c' Hc') as G'.
    unfold good in G, G'. rewrite <- P in G'.
    destruct (parent c) as [p|]; [|congruence].
    destruct G as [pc [H1 H2]]. destruct G' as [pc' [H1' H2']].
    destruct (findById_In _ _ _ H1) as [K1 K2].
    destruct (findById_In _ _ _ H1') as [K1' K2'].
    rewrite H2, H2'. f_equal. apply IH; auto; [congruence|].
    rewrite H2, length_app in Hn. simpl in Hn. lia.
Qed.

Lemma skel_save_moved now A p a s :
  map skel (save_moved now A p a s) = map (reparented A p) (map skel s).
Proof.
  unfold save_moved, updateOne, reparented. rewrite !map_map.
  apply map_ext. intros d. simpl. destruct (_id d =? A); reflexivity.
Qed.

Lemma reparented_twice A p q e : reparented A p (reparented A q e) = reparented A p e.
Proof.
  unfold reparented. destruct (_id e =? A) eqn:E; simpl; rewrite E; reflexivity.
Qed.

Lemma reparented_same s A old :
  NoDup (map _id s) -> findById A s = Some old ->
  map (reparented A (parent old)) (map skel s) = map skel s.
Proof.
  intros N H. destruct (findById_In _ _ _ H) as [Ho Hid].
  rewrite map_map. apply map_ext_in. intros d Hd. unfold reparented. simpl.
  destruct (_id d =? A) eqn:E; [|reflexivity].
  apply Nat.eqb_eq in E.
  assert (d = old) by (apply (In_same_id s); auto; congruence).
  subst d. now destruct old.
Qed.

(** X18. A move can be undone. In a well-formed world, after a move of a
    category that succeeded, an administrator's request to move it back
    under the parent it had (or to the root, if it had none) succeeds, for
    any fuel greater than the number of documents, and the collection is
    again what it was before the two moves, time stamps apart: every
    document has the parent and the path it had. *)
Theorem move_back_restores_the_tree fuel env ctx ctx2 A np w r w1 old :
  wf w ->
  findById A (categories w) = Some old ->
  moveCategory fuel env ctx A np w = Some (r, w1) ->
  succeeded r = true ->
  is_admin ctx2 = true ->
  List.length (categories w) < fuel ->
  exists r2 w2,
    moveCategory fuel env ctx2 A (origin old) w1 = Some (r2, w2)
    /\ succeeded r2 = true
    /\ map untimed (categories w2) = map untimed (categories w).
Proof.
  intros W Ho H Hs Ha2 Hf.
  pose proof (moveCategory_wf _ _ _ _ _ _ _ _ W H) as W1.
  destruct (moveCategory_success _ _ _ _ _ _ _ _ H Hs)
    as [old' [Ho' [_ [Hal E]]]].
  rewrite Ho in Ho'. inversion Ho'; subst old'. clear Ho'.
  destruct (findById_In _ _ _ Ho) as [Hin Hid].
  pose proof (wf_tree w W) as T.
  pose proof (move_repair_keeps_moved (now ctx) (categories w) A old _ _
                T Ho Hal fuel (categories w1) E) as Hm.
  pose proof (repair_skel _ _ _ _ _ _ E) as K1.
  rewrite skel_save_moved in K1.
  assert (L1 : List.length (categories w1) = List.length (categories w)).
  { apply (f_equal (@List.length _)) in K1. now rewrite !length_map in K1. }
  set (cat1 := with_updatedAt (now ctx)
                 (with_ancestors (snd (target_of (categories w) np))
                    (with_parent (fst (target_of (categories w) np)) old))).
  fold cat1 in Hm.
  assert (Hid1 : _id cat1 = A) by exact Hid.
  assert (Hfin : forall p a,
             move_allowed (categories w1) A p a ->
             p = parent old ->
             exists r2 w2,
               move_commit fuel env ctx2 cat1 p a w1 = Some (r2, w2)
               /\ succeeded r2 = true
               /\ map untimed (categories w2) = map untimed (categories w)).
  { intros p a Hal2 Hp.
    assert (Hm' : findById (_id cat1) (categories w1) = Some cat1)
      by (now rewrite Hid1).
    assert (Hal2' : move_allowed (categories w1) (_id cat1) p a)
      by (now rewrite Hid1).
    destruct (move_commit_total fuel env ctx2 cat1 p a w1 W1 Hm' Hal2')
      as [r2 [w2 E2]].
    { pose proof (depth_bound (categories w1) (wf_tree w1 W1)). lia. }
    exists r2, w2. split; [exact E2|].
    pose proof (move_commit_wf _ _ _ _ _ _ _ _ _ W1 Hm' Hal2' E2) as W2.
    destruct (move_commit_success _ _ _ _ _ _ _ _ _ E2) as [E3 [_ S2]].
    split; [exact S2|].
    pose proof (repair_skel _ _ _ _ _ _ E3) as K2.
    rewrite skel_save_moved, K1, Hid1, map_map in K2.
    assert (K3 : map skel (categories w2) = map skel (categories w)).
    { rewrite K2.
      transitivity (map (reparented A (parent old)) (map skel (categories w))).
      - apply map_ext. intros d. rewrite reparented_twice. now rewrite Hp.
      - apply reparented_same; auto. apply T. }
    apply untimed_of_paths; [|exact K3].
    intros c c' Hc Hc' Hcid.
    apply (paths_determined (categories w2) (categories w)
             (wf_tree w2 W2) T K3 (List.length (ancestors c))); auto. }
  unfold moveCategory. rewrite Ha2. cbn [negb]. rewrite Hm.
  pose proof (paths_ok _ T old Hin) as G. unfold good in G.
  unfold origin. destruct (parent old) as [p|] eqn:Ep.
  - destruct G as [pc [Hpc Hanc]].
    pose proof (path_NoDup (categories w) T _ old Hin (le_n _)) as Nd.
    rewrite Hanc, Hid in Nd. apply NoDup_cons_iff in Nd. destruct Nd as [Hn _].
    assert (HpA : p <> A)
      by (intros ->; apply Hn; apply in_or_app; right; now left).
    assert (Hinc : includes A (ancestors pc) = false).
    { unfold includes. destruct (existsb _ _) eqn:Ex; [|reflexivity].
      apply existsb_exists in Ex. destruct Ex as [x [Hx Hx']].
      apply Nat.eqb_eq in Hx'. subst x. exfalso. apply Hn.
      apply in_or_app. now left. }
    assert (Hp1 : findById p (categories w1) = Some pc).
    { rewrite (move_repair_outside (now ctx) (categories w) A old _ _
                 T Ho Hal fuel (categories w1) p E).
      - rewrite moved_findById_other by exact HpA. exact Hpc.
      - unfold subtree_rank. rewrite Hpc, Hinc.
        apply Nat.eqb_neq in HpA. now rewrite HpA. }
    rewrite Hp1.
    assert (Hck : includes A (ancestors pc) || (p =? A) = false).
    { rewrite Hinc. simpl. now apply Nat.eqb_neq. }
    rewrite Hck. apply Hfin; [|reflexivity].
    now apply move_checks_allowed.
  - apply Hfin; reflexivity.
Qed.

Lemma move_back_restores_the_tree_witness :
  exists r2 w2,
    moveCategory 4 (env_with index_up) (admin_at 5) 1 (Under 0)
      (world_after (three_levels ++ [(admin_at 4, Move 1 Root)]))
    = Some (r2, w2)
    /\ succeeded r2 = true
    /\ map untimed (categories w2)
       = map untimed (categories (world_after three_levels)).
Proof.
  apply (move_back_restores_the_tree 4 (env_with index_up) (admin_at 4)
           (admin_at 5) 1 Root (world_after three_levels)
           (success 200 (category_json
              (mkCategory 1 "B" None "b" None [] 0%Z true (Some 1000) 2%Z 4%Z)))
           (world_after (three_levels ++ [(admin_at 4, Move 1 Root)]))
           (mkCategory 1 "B" None "b" (Some 0) [0] 0%Z true (Some 1000) 2%Z 2%Z)).
  - apply world_after_wf. repeat constructor.
  - vm_compute. reflexivity.
  - vm_compute. reflexivity.
  - reflexivity.
  - reflexivity.
  - vm_compute. lia.
Defined.

Lemma deleteOne_last s c :
  (forall d, In d s -> _id d <> _id c) -> deleteOne (_id c) (s ++ [c]) = s.
Proof.
  intros H. unfold deleteOne. rewrite filter_app. simpl.
  rewrite Nat.eqb_refl. simpl. rewrite app_nil_r.
  induction s as [|d s IH]; simpl; [reflexivity|].
  pose proof (H d (or_introl eq_refl)) as Hd. apply Nat.eqb_neq in Hd.
  rewrite Hd. simpl. f_equal. apply IH. intros x Hx. apply H. now right.
Qed.

(** X19. A delete undoes a create. In a well-formed world, after a create
    that succeeded, an administrator's delete of the new category succeeds
    (where the installed Mongoose provides [Document.prototype.remove])
    and leaves the collection exactly as it was before the create; the id
    of the deleted category is not given again. *)
Theorem delete_undoes_create env ctx ctx2 body w :
  wf w ->
  is_admin ctx2 = true ->
  document_remove env = true ->
  succeeded (fst (createCategory env ctx body w)) = true ->
  fst (deleteCategory env ctx2 (next_oid w) (snd (createCategory env ctx body w)))
  = success 200 (JObj [])
  /\ categories
       (snd (deleteCategory env ctx2 (next_oid w)
               (snd (createCategory env ctx body w))))
     = categories w
  /\ next_oid
       (snd (deleteCategory env ctx2 (next_oid w)
               (snd (createCategory env ctx body w))))
     = S (next_oid w).
Proof.
  intros W Ha Hr Hs.
  destruct (createCategory_created env ctx body w)
    as [_ _ Hf|c nm E1 E2 _ _ _ Hc _ _]; [congruence|].
  assert (Hid : _id c = next_oid w) by (rewrite Hc; reflexivity).
  assert (Hrc : resourceCount c = 0%Z) by (rewrite Hc; reflexivity).
  assert (Hfresh : forall d, In d (categories w) -> _id d <> _id c).
  { intros d Hd. pose proof (wf_fresh w W d Hd). lia. }
  assert (Hfind : findById (next_oid w)
                    (categories (snd (createCategory env ctx body w))) = Some c).
  { rewrite E1, <- Hid. now apply findById_app_fresh. }
  assert (Hnc : existsByParent (next_oid w)
                  (categories (snd (createCategory env ctx body w))) = false).
  { apply existsByParent_false. rewrite E1. intros d Hd Hp.
    apply in_app_or in Hd. destruct Hd as [Hd|[<-|[]]].
    - pose proof (paths_ok _ (wf_tree w W) d Hd) as G. unfold good in G.
      rewrite Hp in G. destruct G as [pc [G1 _]].
      destruct (findById_In _ _ _ G1) as [G2 G3].
      pose proof (wf_fresh w W pc G2). lia.
    - pose proof (createCategory_wf env ctx body w W) as W1.
      assert (Hin : In c (categories (snd (createCategory env ctx body w))))
        by (rewrite E1; apply in_or_app; right; now left).
      pose proof (path_NoDup _ (wf_tree _ W1) _ c Hin (le_n _)) as Nd.
      pose proof (paths_ok _ (wf_tree _ W1) c Hin) as G. unfold good in G.
      rewrite Hp in G. destruct G as [pc [_ G2]].
      apply NoDup_cons_iff in Nd. destruct Nd as [Hn _]. apply Hn.
      rewrite G2, Hid. apply in_or_app. right. now left. }
  unfold deleteCategory. rewrite Hfind, Ha, Hnc, Hrc, Hr. cbn [negb].
  simpl. rewrite es_try_categories, es_try_next_oid. simpl.
  rewrite E1, E2. repeat split. now apply deleteOne_last.
Qed.

Lemma delete_undoes_create_witness :
  fst (deleteCategory (env_with index_down) (admin_at 8)
         (next_oid (world_after three_levels))
         (snd (createCategory (env_with index_down) (admin_at 7)
                 (named "D" (Some 2)) (world_after three_levels))))
  = success 200 (JObj [])
  /\ categories
       (snd (deleteCategory (env_with index_down) (admin_at 8)
               (next_oid (world_after three_levels))
               (snd (createCategory (env_with index_down) (admin_at 7)
                       (named "D" (Some 2)) (world_after three_levels)))))
     = categories (world_after three_levels)
  /\ next_oid
       (snd (deleteCategory (env_with index_down) (admin_at 8)
               (next_oid (world_after three_levels))
               (snd (createCategory (env_with index_down) (admin_at 7)
                       (named "D" (Some 2)) (world_after three_levels)))))
     = S (next_oid (world_after three_levels)).
Proof.
  apply (delete_undoes_create (env_with index_down) (admin_at 7) (admin_at 8)
           (named "D" (Some 2)) (world_after three_levels)).
  - apply world_after_wf. repeat constructor.
  - reflexivity.
  - reflexivity.
  - reflexivity.
Defined.

(* ------------------------------------------------------------------ *)
(** ** globalSearch                                                     *)
(* ------------------------------------------------------------------ *)

Lemma global_indices_refused t :
  Global.indices (Some t) = None
  <-> (Str.truthy t = true /\ t <> "all" /\ t <> "resources" /\ t <> "users"
       /\ t <> "collections" /\ inherited_key t = false).
Proof.
  unfold Global.indices, Global.typeToIndex.
  destruct (Str.truthy t) eqn:Et; simpl.
  - destruct (String.eqb t "all") eqn:E0;
      [apply String.eqb_eq in E0; split; [discriminate|tauto]|].
    destruct (String.eqb t "resources") eqn:E1;
      [apply String.eqb_eq in E1; split; [discriminate|tauto]|].
    destruct (String.eqb t "users") eqn:E2;
      [apply String.eqb_eq in E2; split; [discriminate|tauto]|].
    destruct (String.eqb t "collections") eqn:E3;
      [apply String.eqb_eq in E3; split; [discriminate|tauto]|].
    apply String.eqb_neq in E0, E1, E2, E3.
    destruct (inherited_key t); simpl; split; try discriminate; try tauto.
    intros [_ [_ [_ [_ [_ K]]]]]. discriminate.
  - split; [discriminate|]. intros [K _]. discriminate.
Qed.

(** X20. [globalSearch] answers 400 or 200 and nothing else, and the index
    cannot make it fail. Without a text it answers 400 'Search query is
    required'. With a text, a type other than all, resources, users and
    collections answers 400 'Invalid search type' - tags among them,
    since the configuration names no index for tags - unless it is the
    name of a property every object inherits, which passes the check. In
    every other case the answer is 200 with the four lists resources,
    users, collections and tags; when the index throws, the four lists
    are empty and the error is logged. *)
Theorem global_search_answers msearch q :
  (Str.truthy_opt (gq_q q) = false ->
     globalSearch msearch q = (Global.refused "Search query is required", []))
  /\ (forall text t,
        gq_q q = Some text -> Str.truthy text = true ->
        gq_type q = Some t ->
        inherited_key t = false ->
        (Str.truthy t = true /\ t <> "all" /\ t <> "resources" /\ t <> "users"
         /\ t <> "collections"
         <-> globalSearch msearch q
             = (Global.refused "Invalid search type", [])))
  /\ (forall text indices,
        gq_q q = Some text -> Str.truthy text = true ->
        Global.indices (gq_type q) = Some indices ->
        (exists d, fst (globalSearch msearch q) = Global.found d)
        /\ (forall e,
              msearch indices text (gq_limit q)
                (match gq_page q, gq_limit q with
                 | Some page, Some s => Some ((page - 1) * s)%Z
                 | _, _ => None
                 end) = Throws e ->
              globalSearch msearch q
              = (Global.found Global.empty,
                 [(LError,
                   ("Elasticsearch connection error in global search: "
                    ++ message e)%string)])))
  /\ Global.indices (Some "tags") = None.
Proof.
  split; [|split; [|split]].
  - unfold globalSearch, Str.truthy_opt.
    destruct (gq_q q) as [text|]; [|reflexivity]. now intros ->.
  - intros text t Hq Ht Hty Hin. unfold globalSearch. rewrite Hq, Ht, Hty.
    cbn [negb]. pose proof (global_indices_refused t) as K.
    destruct (Global.indices (Some t)) as [indices|] eqn:E.
    + split.
      * intros H. destruct K as [_ K]. discriminate K. tauto.
      * intros H. exfalso. revert H.
        destruct (msearch indices text _ _) as [results|e].
        -- destruct (Js.truthy results && _).
           ++ destruct (Js.opt_prop "responses" results) as [[]|];
                try discriminate.
              destruct (Global.each _ _ _ _). discriminate.
           ++ discriminate.
        -- discriminate.
    + destruct K as [K _]. specialize (K eq_refl). split; [reflexivity|tauto].
  - intros text indices Hq Ht Hi. unfold globalSearch. rewrite Hq, Ht, Hi.
    cbn [negb]. split.
    + destruct (msearch indices text _ _) as [results|e].
      * destruct (Js.truthy results && _).
        -- destruct (Js.opt_prop "responses" results) as [[]|];
             try (eexists; reflexivity).
           destruct (Global.each _ _ _ _). eexists; reflexivity.
        -- eexists; reflexivity.
      * eexists; reflexivity.
    + intros e He. rewrite He. reflexivity.
  - reflexivity.
Qed.
